(** * mdweb: the in-memory search index of [indexer.js]

    A shallow embedding of the [FileIndex] class (tokenizer, inverted index,
    dual-mode search, ranking, pagination, snapshot) and of the two
    synchronisation loops of [initializeIndex] and [rebuildIndexCache],
    followed by the properties of the specification that concern them.

    Modelling conventions.
    - A JavaScript string is the list of its UTF-16 code units ([Z]).
    - A JavaScript [Map] whose iteration order is never observed by the
      modelled code ([files], [wordIndex]) is a [gmap]; a [Set] whose
      iteration order decides the order of search results (token sets,
      posting sets) is a duplicate-free list in insertion order.
    - A method of [FileIndex] is a computation in the monad [M]: it reads and
      writes the receiver [this] and completes normally or abruptly (a
      [TypeError] thrown by a property access on [undefined]).
    - File modification times ([stat.mtimeMs]) are only ever compared with
      [!==]; they are modelled by [Z]. *)

From Stdlib Require Import ZArith Lia String Ascii Sorted.
From stdpp Require Import base numbers option list gmap.

Local Open Scope Z_scope.

(** ** Strings *)

Abbreviation jsstring := (list Z).

(** Code units of an ASCII literal. *)
Definition js (s : string) : jsstring :=
  (fun a => Z.of_N (N_of_ascii a)) <$> list_ascii_of_string s.

(** The part of the host runtime that the index relies on and that is not
    part of the repository: [String.prototype.toLowerCase] and
    [path.basename]. *)
Class JsRuntime := {
  toLowerCase : jsstring -> jsstring;
  basename : jsstring -> jsstring
}.

(** A runtime for concrete evaluations: lower-casing of the Basic Latin
    letters only, which agrees with the host's [toLowerCase] on every string
    made of ASCII and of code units without a case mapping (all of the CJK
    blocks); and the POSIX base name of a path that does not end in a slash. *)
Definition lowerUnit (c : Z) : Z :=
  if (65 <=? c) && (c <=? 90) then c + 32 else c.

Fixpoint afterLastSlash (s acc : jsstring) : jsstring :=
  match s with
  | [] => acc
  | c :: s' =>
      if decide (c = 47) then afterLastSlash s' []
      else afterLastSlash s' (acc ++ [c])
  end.

Definition posixHost : JsRuntime :=
  {| toLowerCase := fun s => lowerUnit <$> s;
     basename := fun s => afterLastSlash s [] |}.

(** The character class of [cjkRegex]: U+4E00..U+9FFF, U+3040..U+309F and
    U+AC00..U+D7AF. *)
Definition isCJK (c : Z) : bool :=
  ((0x4E00 <=? c) && (c <=? 0x9FFF))
  || ((0x3040 <=? c) && (c <=? 0x309F))
  || ((0xAC00 <=? c) && (c <=? 0xD7AF)).

(** The class [\w] of a regular expression without the [u] and [i] flags:
    [[A-Za-z0-9_]]. *)
Definition isWordChar (c : Z) : bool :=
  ((65 <=? c) && (c <=? 90))
  || ((97 <=? c) && (c <=? 122))
  || ((48 <=? c) && (c <=? 57))
  || (c =? 95).

(** [text.match(cjkRegex) || []]: every code unit of the class, in order,
    each as a string of length one. *)
Definition matchCJK (text : jsstring) : list jsstring :=
  (fun c => [c]) <$> List.filter isCJK text.

(** [text.match(/\b\w+\b/g) || []]: the maximal runs of word characters, from
    left to right. [cur] holds the run being read, reversed. *)
Definition flushRun (cur : jsstring) : list jsstring :=
  match cur with [] => [] | _ => [reverse cur] end.

Fixpoint scanWords (cur : jsstring) (s : jsstring) : list jsstring :=
  match s with
  | [] => flushRun cur
  | c :: s' =>
      if isWordChar c then scanWords (c :: cur) s'
      else flushRun cur ++ scanWords [] s'
  end.

Definition matchWords (s : jsstring) : list jsstring := scanWords [] s.

(** [s.split('\n')]. *)
Fixpoint splitOn (sep : Z) (s : jsstring) : list jsstring :=
  match s with
  | [] => [[]]
  | c :: s' =>
      if decide (c = sep) then [] :: splitOn sep s'
      else match splitOn sep s' with
           | l :: ls => (c :: l) :: ls
           | [] => [[c]]
           end
  end.

Definition lines (content : jsstring) : list jsstring := splitOn 10 content.

Fixpoint isPrefixOf (q s : jsstring) : bool :=
  match q, s with
  | [], _ => true
  | _ :: _, [] => false
  | a :: q', b :: s' => bool_decide (a = b) && isPrefixOf q' s'
  end.

(** [indexOfFrom q s i]: [s] is the part of the line from offset [i] on. *)
Fixpoint indexOfFrom (q s : jsstring) (i : nat) : option nat :=
  if isPrefixOf q s then Some i
  else match s with
       | [] => None
       | _ :: s' => indexOfFrom q s' (S i)
       end.

(** [line.indexOf(query, pos)]; [None] stands for [-1]. *)
Definition indexOf (query line : jsstring) (pos : nat) : option nat :=
  let pos := Nat.min pos (length line) in
  indexOfFrom query (drop pos line) pos.

(** [line.includes(query)]. *)
Definition includes (query line : jsstring) : bool :=
  bool_decide (is_Some (indexOf query line 0)).

(** White space and line terminators removed by [String.prototype.trim]. *)
Definition isWhiteSpace (c : Z) : bool :=
  bool_decide (c ∈ [9; 10; 11; 12; 13; 32; 0xA0; 0x1680; 0x2028; 0x2029;
                     0x202F; 0x205F; 0x3000; 0xFEFF])
  || ((0x2000 <=? c) && (c <=? 0x200A)).

Fixpoint trimStart (s : jsstring) : jsstring :=
  match s with
  | c :: s' => if isWhiteSpace c then trimStart s' else s
  | [] => []
  end.

Definition trim (s : jsstring) : jsstring :=
  reverse (trimStart (reverse (trimStart s))).

(** ** Sets in insertion order *)

Module JsSet.
Section ops.
Context {A : Type} `{EqDecision A}.

(** [s.add(x)]: a new element goes last, a present one stays in place. *)
Definition add (x : A) (s : list A) : list A :=
  if decide (x ∈ s) then s else s ++ [x].

(** [s.delete(x)]. *)
Definition delete (x : A) (s : list A) : list A :=
  List.filter (fun y => bool_decide (y ≠ x)) s.

(** [xs.forEach(x => s.add(x))]. *)
Definition addAll (xs : list A) (s : list A) : list A :=
  foldl (fun acc x => add x acc) s xs.
End ops.
End JsSet.

(** ** Completions and the method monad *)

(** The completion of a JavaScript evaluation: a value, or a thrown
    exception. The modelled code throws only through property accesses on
    [undefined] ([TypeError]) and through failed file reads. *)
Inductive completion (A : Type) : Type :=
| Normal (a : A)
| Throw.
Arguments Normal {A} a.
Arguments Throw {A}.

Definition cbind {A B} (c : completion A) (k : A -> completion B) : completion B :=
  match c with
  | Normal a => k a
  | Throw => Throw
  end.

(** [o.prop] where [o] may be [undefined]. *)
Definition defined {A} (o : option A) : completion A :=
  match o with
  | Some a => Normal a
  | None => Throw
  end.

Fixpoint mapC {A B} (f : A -> completion B) (l : list A) : completion (list B) :=
  match l with
  | [] => Normal []
  | x :: l' => cbind (f x) (fun y => cbind (mapC f l') (fun ys => Normal (y :: ys)))
  end.

(** ** Data *)

(** A value of the [files] map. *)
Module FileData.
Record t := mk { filename : jsstring; content : jsstring; mtime : Z }.
End FileData.

(** An element of [filesList]. *)
Module FileInfo.
Record t := mk { path : jsstring; name : jsstring }.
End FileInfo.

(** An element of [matchedFiles] in [search]. *)
Module Matched.
Record t := mk {
  index : nat;
  path : jsstring;
  name : jsstring;
  content : jsstring;
  matches : nat
}.
End Matched.

Module Hit.
Record t := mk { lineNum : nat; content : jsstring }.
End Hit.

(** An element of the [results] array. *)
Module Entry.
Record t := mk { path : jsstring; name : jsstring; hits : list Hit.t }.
End Entry.

(** The object returned by [search]. *)
Module SearchResult.
Record t := mk {
  results : list Entry.t;
  page : Z;
  totalPages : Z;
  total : nat
}.
End SearchResult.

(** The object handed to [JSON.stringify] by [serialize], and returned by
    [JSON.parse] in [deserialize]. Strings and finite numbers survive the
    round trip through JSON text unchanged, so the text itself is not
    modelled. *)
Module Snapshot.
Record t := mk {
  files : list (jsstring * FileData.t);
  filesList : list FileInfo.t
}.
End Snapshot.

Abbreviation WordIndex := (gmap (list Z) (list nat)).
Abbreviation Files := (gmap (list Z) FileData.t).

(** The fields of a [FileIndex] object. *)
Record FileIndex := mkFileIndex {
  files : Files;
  wordIndex : WordIndex;
  filesList : list FileInfo.t
}.

(** [new FileIndex()]. *)
Definition newFileIndex : FileIndex :=
  {| files := ∅; wordIndex := ∅; filesList := [] |}.

(** A computation over a state [S]: from the state to a completion and the
    state afterwards. Writes made before a throw stay. *)
Definition St (S A : Type) : Type := S -> completion A * S.

Definition ret {S A} (a : A) : St S A := fun s => (Normal a, s).

Definition bind {S A B} (m : St S A) (k : A -> St S B) : St S B :=
  fun s =>
    match m s with
    | (Normal a, s') => k a s'
    | (Throw, s') => (Throw, s')
    end.

Definition get {S} : St S S := fun s => (Normal s, s).

Definition put {S} (s' : S) : St S unit := fun _ => (Normal tt, s').

Definition lift {S A} (c : completion A) : St S A := fun s => (c, s).

(** [try { body } catch (e) { console.error(...) }]. *)
Definition tryCatch {S} (body : St S unit) : St S unit :=
  fun s => (Normal tt, snd (body s)).

Notation "'let*' x ':=' m 'in' k" := (bind m (fun x => k))
  (at level 10, x name, m at level 100, k at level 200).
Notation "m ';;' k" := (bind m (fun _ => k))
  (at level 100, k at level 200, right associativity).

(** [for (const x of l) { f(x) }]. *)
Fixpoint forEach {S A} (f : A -> St S unit) (l : list A) : St S unit :=
  match l with
  | [] => ret tt
  | x :: l' => f x ;; forEach f l'
  end.

(** A method body of [FileIndex]: the state is the receiver [this]. *)
Abbreviation M := (St FileIndex).

(** ** The class [FileIndex] *)

Section FileIndexMethods.
Context {rt : JsRuntime}.

(** [tokenize(text)]. *)
Definition tokenize (text : jsstring) : list jsstring :=
  let tokens := [] in
  let cjkMatches := matchCJK text in
  let tokens := JsSet.addAll cjkMatches tokens in
  let words := matchWords (toLowerCase text) in
  let tokens := JsSet.addAll words tokens in
  tokens.

(** [if (!wordIndex.has(word)) wordIndex.set(word, new Set());
     wordIndex.get(word).add(fileIndex)]. *)
Definition addPosting (fileIndex : nat) (wordIndex : WordIndex) (word : jsstring)
  : WordIndex :=
  <[word := JsSet.add fileIndex (default [] (wordIndex !! word))]> wordIndex.

(** [for (const word of words) { ... }] of [addFile] and [_rebuildIndices]. *)
Definition indexWords (words : list jsstring) (fileIndex : nat)
    (wordIndex : WordIndex) : WordIndex :=
  foldl (addPosting fileIndex) wordIndex words.

(** [addFile(filepath, filename, content, mtime)]. *)
Definition addFile (filepath fname text : jsstring) (mt : Z) : M unit :=
  let* this := get in
  let fileIndex := length (filesList this) in
  let words := tokenize text in
  put {| files := <[filepath := FileData.mk fname text mt]> (files this);
         filesList := filesList this ++ [FileInfo.mk filepath fname];
         wordIndex := indexWords words fileIndex (wordIndex this) |}.

(** The loop of [_rebuildIndices] from position [i] on; [fileData.content]
    throws when the path of a list element has no entry in [files]. *)
Fixpoint rebuildFrom (fs : Files) (i : nat) (l : list FileInfo.t)
    (newWordIndex : WordIndex) : completion WordIndex :=
  match l with
  | [] => Normal newWordIndex
  | f :: l' =>
      cbind (defined (fs !! FileInfo.path f)) (fun fileData =>
        let words := tokenize (FileData.content fileData) in
        rebuildFrom fs (S i) l' (indexWords words i newWordIndex))
  end.

(** [_rebuildIndices()]: [this.wordIndex] is assigned last. *)
Definition _rebuildIndices : M unit :=
  let* this := get in
  let* newWordIndex := lift (rebuildFrom (files this) 0 (filesList this) ∅) in
  put {| files := files this;
         filesList := filesList this;
         wordIndex := newWordIndex |}.

(** [wordIndex.get(word)?.delete(fileIndex)]. *)
Definition dropPosting (fileIndex : nat) (wordIndex : WordIndex) (word : jsstring)
  : WordIndex :=
  match wordIndex !! word with
  | Some s => <[word := JsSet.delete fileIndex s]> wordIndex
  | None => wordIndex
  end.

(** [removeFile(filepath)]. *)
Definition removeFile (filepath : jsstring) : M unit :=
  let* this := get in
  match files this !! filepath with
  | None => ret tt
  | Some fileData =>
      match list_find (fun f => FileInfo.path f = filepath) (filesList this) with
      | None => ret tt
      | Some (fileIndex, _) =>
          let words := tokenize (FileData.content fileData) in
          put {| files := delete filepath (files this);
                 filesList := delete fileIndex (filesList this);
                 wordIndex := foldl (dropPosting fileIndex) (wordIndex this) words |} ;;
          _rebuildIndices
      end
  end.

(** *** Search *)

(** [query.match(cjkRegex).length > 1]. *)
Definition isMultiCJK (query : jsstring) : bool :=
  bool_decide (1 < length (matchCJK query))%nat.

(** The loop
    [while ((searchPos = line.indexOf(query, searchPos)) !== -1)
       { count++; searchPos += query.length; }]
    run for at most [fuel] iterations. *)
Fixpoint countFrom (fuel : nat) (query line : jsstring) (searchPos count : nat)
  : nat :=
  match fuel with
  | O => count
  | S fuel' =>
      match indexOf query line searchPos with
      | None => count
      | Some i => countFrom fuel' query line (i + length query) (S count)
      end
  end.

(** The occurrences counted in one line. A query of the phrase branch has at
    least two code units, so that the loop ends within [length line + 1]
    iterations (lemma [countFrom_fuel]). *)
Definition countInLine (query line : jsstring) : nat :=
  countFrom (S (length line)) query line 0 0.

(** [count] after the loop over the lines of [content]. *)
Definition countPhrase (query text : jsstring) : nat :=
  foldl (fun count line => (count + countInLine query line)%nat) 0%nat (lines text).

(** The phrase branch: [for (let idx = 0; idx < filesList.length; idx++)]. *)
Fixpoint phraseScan (query : jsstring) (fs : Files) (idx : nat)
    (l : list FileInfo.t) (matchedFiles : list Matched.t)
  : completion (list Matched.t) :=
  match l with
  | [] => Normal matchedFiles
  | fileInfo :: l' =>
      cbind (defined (fs !! FileInfo.path fileInfo)) (fun fileData =>
        let text := FileData.content fileData in
        let count := countPhrase query text in
        phraseScan query fs (S idx) l'
          (if decide (0 < count)%nat
           then matchedFiles ++
                [Matched.mk idx (FileInfo.path fileInfo) (FileInfo.name fileInfo)
                   text count]
           else matchedFiles))
  end.

(** [matchingFileIndices] after the loop over the query tokens. *)
Definition unionPostings (wordIndex : WordIndex) (queryTokens : list jsstring)
  : list nat :=
  foldl (fun acc token => JsSet.addAll (default [] (wordIndex !! token)) acc)
    [] queryTokens.

(** The number of lines of [text] that include [query]. *)
Definition countLines (query text : jsstring) : nat :=
  length (List.filter (includes query) (lines text)).

(** The token branch: an entry for each ordinal of [matchingFileIndices],
    whose [matches], set to [0] at first, is then raised once for each line
    that includes the query. *)
Definition tokenScan (query : jsstring) (this : FileIndex)
  : completion (list Matched.t) :=
  let queryTokens := tokenize query in
  let matchingFileIndices := unionPostings (wordIndex this) queryTokens in
  mapC (fun idx =>
      cbind (defined (filesList this !! idx)) (fun fileInfo =>
      cbind (defined (files this !! FileInfo.path fileInfo)) (fun fileData =>
        let text := FileData.content fileData in
        Normal (Matched.mk idx (FileInfo.path fileInfo) (FileInfo.name fileInfo)
                  text (countLines query text)))))
    matchingFileIndices.

(** [matchedFiles] just before the sort. *)
Definition candidates (query : jsstring) : M (list Matched.t) :=
  let* this := get in
  if isMultiCJK query
  then lift (phraseScan query (files this) 0 (filesList this) [])
  else lift (tokenScan query this).

(** [matchedFiles.sort((a, b) => b.matches - a.matches)]: a stable sort by
    descending match count. *)
Fixpoint insertByMatches (a : Matched.t) (l : list Matched.t) : list Matched.t :=
  match l with
  | [] => [a]
  | b :: l' =>
      if decide (Matched.matches b <= Matched.matches a)%nat
      then a :: l
      else b :: insertByMatches a l'
  end.

Definition sortByMatches (l : list Matched.t) : list Matched.t :=
  foldr insertByMatches [] l.

(** The hits of one file, capped to three. *)
Definition extractHits (query : jsstring) (file : Matched.t) : Entry.t :=
  let numbered := imap (fun idx line => (idx, line)) (lines (Matched.content file)) in
  let hits :=
    (fun il => Hit.mk (S (fst il)) (trim (snd il)))
      <$> List.filter (fun il => includes query (snd il)) numbered in
  Entry.mk (Matched.path file) (Matched.name file) (take 3 hits).

(** [Math.ceil(n / perPage)] for a list length [n] and a positive integer
    [perPage]; the quotient of the two doubles rounds to no integer that the
    exact quotient does not reach, lengths being below [2^32]. *)
Definition ceilDiv (n : Z) (perPage : positive) : Z :=
  - (Z.div (- n) (Z.pos perPage)).

Definition paginate (results : list Entry.t) (page : Z) (perPage : positive)
  : SearchResult.t :=
  let totalPages := ceilDiv (Z.of_nat (length results)) perPage in
  let pageNum := Z.max 1 (Z.min page totalPages) in
  let start := (pageNum - 1) * Z.pos perPage in
  {| SearchResult.results :=
       take (Pos.to_nat perPage) (drop (Z.to_nat start) results);
     SearchResult.page := pageNum;
     SearchResult.totalPages := totalPages;
     SearchResult.total := length results |}.

(** The array [results] before pagination. *)
Definition ranked (query : jsstring) : M (list Entry.t) :=
  let* matchedFiles := candidates query in
  ret (extractHits query <$> sortByMatches matchedFiles).

(** [search(query, page, perPage)] for an integer [page] and a positive
    integer [perPage]. *)
Definition search (query : jsstring) (page : Z) (perPage : positive)
  : M SearchResult.t :=
  let* results := ranked query in
  ret (paginate results page perPage).

(** [searchFiles(db, query, page)], [db] being the receiver. *)
Definition searchFiles (query : jsstring) (page : Z) : M SearchResult.t :=
  match trim query with
  | [] => ret (SearchResult.mk [] 1 0 0)
  | _ => search (trim query) page 15
  end.

(** *** Snapshot *)

(** [serialize()]. The entries of [files] are listed in the order of their
    keys, where [Array.from(this.files.entries())] lists them in insertion
    order; [new Map] of either list is the same map. *)
Definition serialize : M Snapshot.t :=
  let* this := get in
  ret {| Snapshot.files := map_to_list (files this);
         Snapshot.filesList := filesList this |}.

(** [new Map(entries)]: a later entry for a key replaces an earlier one. *)
Definition mapOfEntries (entries : list (jsstring * FileData.t)) : Files :=
  foldl (fun m kv => <[fst kv := snd kv]> m) ∅ entries.

(** [deserialize(json)], [data] being [JSON.parse(json)]. *)
Definition deserialize (data : Snapshot.t) : M unit :=
  let* this := get in
  put {| files := mapOfEntries (Snapshot.files data);
         filesList := Snapshot.filesList data;
         wordIndex := wordIndex this |} ;;
  _rebuildIndices.

End FileIndexMethods.

(** ** Synchronisation with the data directory *)

(** A table from path to modification time, in insertion order: the [Map]
    filled by [collectFiles], and the object parsed from the time-stamp
    file. Keys are unique. *)
Abbreviation MTimes := (list (list Z * Z)).

(** [table.get(filepath)], [table[filepath]]. *)
Fixpoint lookupMTime (filepath : jsstring) (table : MTimes) : option Z :=
  match table with
  | [] => None
  | (p, mt) :: table' =>
      if decide (p = filepath) then Some mt else lookupMTime filepath table'
  end.

(** The module-level [index], and the paths handed to [fs.readFileSync] by
    the scans, in order. *)
Record Process := mkProcess {
  index : FileIndex;
  reads : list jsstring
}.

Section Synchronisation.
Context {rt : JsRuntime}.

(** The data directory at the time of the scan: the content of a file, or
    [None] when reading it throws. *)
Variable disk : jsstring -> option jsstring.

(** [index.method(...)]. *)
Definition onIndex {A} (m : M A) : St Process A :=
  fun w =>
    let (c, this') := m (index w) in
    (c, {| index := this'; reads := reads w |}).

(** [fs.readFileSync(filepath, 'utf-8')]. *)
Definition readFileSync (filepath : jsstring) : St Process jsstring :=
  fun w =>
    (defined (disk filepath),
     {| index := index w; reads := reads w ++ [filepath] |}).

(** [oldMTimes[filepath] !== mtime]. *)
Definition changed (oldMTimes : MTimes) (filepath : jsstring) (mt : Z) : bool :=
  bool_decide (lookupMTime filepath oldMTimes ≠ Some mt).

(** [if (index.files.has(filepath)) index.removeFile(filepath);
     const content = fs.readFileSync(filepath, 'utf-8');
     index.addFile(filepath, path.basename(filepath), content, mtime);] *)
Definition reindex (filepath : jsstring) (mt : Z) : St Process unit :=
  let* w := get in
  (if decide (is_Some (files (index w) !! filepath))
   then onIndex (removeFile filepath)
   else ret tt) ;;
  let* text := readFileSync filepath in
  onIndex (addFile filepath (basename filepath) text mt).

(** [for (const filepath of Object.keys(oldMTimes))
       if (!currentFiles.has(filepath)) index.removeFile(filepath);] *)
Definition removeDeleted (oldMTimes currentFiles : MTimes) : St Process unit :=
  forEach (fun filepath =>
      if decide (filepath ∈ currentFiles.*1) then ret tt
      else onIndex (removeFile filepath))
    (oldMTimes.*1).

(** The two loops of [initializeIndex] that bring the index, as loaded from
    the cache, up to date with the current files: each changed file is
    indexed inside its own [try]. *)
Definition initializeIndex_sync (oldMTimes currentFiles : MTimes)
  : St Process unit :=
  forEach (fun entry =>
      if changed oldMTimes (fst entry) (snd entry)
      then tryCatch (reindex (fst entry) (snd entry))
      else ret tt)
    currentFiles ;;
  removeDeleted oldMTimes currentFiles.

(** The scan of [rebuildIndexCache]: one [try] around both loops. Writing
    the cache files afterwards is left out. *)
Definition rebuildIndexCache (oldMTimes currentFiles : MTimes)
  : St Process unit :=
  tryCatch (
    forEach (fun entry =>
        if changed oldMTimes (fst entry) (snd entry)
        then reindex (fst entry) (snd entry)
        else ret tt)
      currentFiles ;;
    removeDeleted oldMTimes currentFiles).

End Synchronisation.

(** ** Sequences of index operations *)

Inductive op : Type :=
| AddDocument (filepath fname text : jsstring) (mt : Z)
| RemoveDocument (filepath : jsstring).

Section Operations.
Context {rt : JsRuntime}.

Definition applyOp (o : op) : M unit :=
  match o with
  | AddDocument filepath fname text mt => addFile filepath fname text mt
  | RemoveDocument filepath => removeFile filepath
  end.

Definition runOps (ops : list op) : M unit := forEach applyOp ops.

End Operations.

(** ** The data directory and the cache files *)

(** An entry of [fs.readdirSync(dir, { withFileTypes: true })] together with
    what the calls made on it give: for a directory, its own listing; for
    any other entry, the [mtimeMs] of [fs.statSync]. [None] stands for a call
    that throws. *)
#[local] Unset Elimination Schemes.
Inductive dirent : Type :=
| FileEntry (name : jsstring) (mtimeMs : option Z)
| DirEntry (name : jsstring) (entries : option (list dirent)).
#[local] Set Elimination Schemes.

(** [name.endsWith(suffix)]. *)
Definition endsWith (name suffix : jsstring) : bool :=
  isPrefixOf (reverse suffix) (reverse name).

(** [files.set(filepath, mtime)] on a [Map] in insertion order: the value of
    a present key is replaced in place, a new key goes last. *)
Fixpoint mapSet (filepath : jsstring) (mt : Z) (table : MTimes) : MTimes :=
  match table with
  | [] => [(filepath, mt)]
  | (p, v) :: table' =>
      if decide (p = filepath) then (filepath, mt) :: table'
      else (p, v) :: mapSet filepath mt table'
  end.

Section DataDirectory.

(** [path.join] of the host. *)
Variable join : jsstring -> jsstring -> jsstring.

(** The body of the loop of [collectFiles(dir, files)] for one entry; for a
    directory, the recursive call, whose own [try] catches what its listing
    and its entries throw. *)
Fixpoint collectEntry (dir : jsstring) (entry : dirent) : St MTimes unit :=
  match entry with
  | DirEntry name listing =>
      let fullPath := join dir name in
      match listing with
      | None => ret tt
      | Some entries => tryCatch (forEach (collectEntry fullPath) entries)
      end
  | FileEntry name stat =>
      let fullPath := join dir name in
      if endsWith name (js ".md")
      then let* mtimeMs := lift (defined stat) in
           fun files => (Normal tt, mapSet fullPath mtimeMs files)
      else ret tt
  end.

(** [collectFiles(dir, files)], [listing] being what [fs.readdirSync(dir)]
    gives. *)
Definition collectFiles (dir : jsstring) (listing : option (list dirent))
  : St MTimes unit :=
  match listing with
  | None => ret tt
  | Some entries => tryCatch (forEach (collectEntry dir) entries)
  end.

End DataDirectory.

(** A file of the cache: absent; present, but reading or parsing it throws;
    or present with the object parsed from it. *)
Inductive stored (A : Type) : Type :=
| Absent
| Corrupt
| Parsed (a : A).
Arguments Absent {A}.
Arguments Corrupt {A}.
Arguments Parsed {A} a.

(** [fs.existsSync(file)]. *)
Definition existsSync {A} (file : stored A) : bool :=
  match file with
  | Absent => false
  | _ => true
  end.

(** [JSON.parse(fs.readFileSync(file, 'utf-8'))]. *)
Definition readJSON {A} (file : stored A) : completion A :=
  match file with
  | Parsed a => Normal a
  | _ => Throw
  end.

(** The process at start-up: the module-level [index], the data files read
    so far, and the two cache files that are named after the hash of the
    path of the data directory. *)
Record Host := mkHost {
  process : Process;
  cacheFile : stored Snapshot.t;
  mTimeFile : stored MTimes
}.

(** [try { body } catch (e) { handler }] with a result. *)
Definition tryWith {S A} (body handler : St S A) : St S A :=
  fun s =>
    match body s with
    | (Normal a, s') => (Normal a, s')
    | (Throw, s') => handler s'
    end.

Section StartUp.
Context {rt : JsRuntime}.
Variable disk : jsstring -> option jsstring.

(** What [require('crypto').createHash('md5').update(path.resolve(dataDir))
    .digest('hex').slice(0, 8)] gives: the hash, or [Throw] where the module
    has no [require] in scope. *)
Variable dataDirHash : completion jsstring.

Definition onProcess {A} (m : St Process A) : St Host A :=
  fun h =>
    let (c, w) := m (process h) in
    (c, {| process := w; cacheFile := cacheFile h; mTimeFile := mTimeFile h |}).

(** [index.files.clear(); index.filesList = []; index.wordIndex.clear()]. *)
Definition clearIndex : St Host unit :=
  onProcess (onIndex (put newFileIndex)).

(** [changed] after the comparison of the cached time stamps with the
    current files. *)
Definition tablesDiffer (cachedMTimes currentFiles : MTimes) : bool :=
  if decide (length cachedMTimes ≠ length currentFiles) then true
  else existsb (fun entry => changed cachedMTimes (fst entry) (snd entry))
         currentFiles.

(** [fs.writeFileSync(cacheFile, index.serialize());
     fs.writeFileSync(mTimeFile, JSON.stringify(mTimes))], both writes
    succeeding. *)
Definition saveCache (mTimes : MTimes) : St Host unit :=
  let* data := onProcess (onIndex serialize) in
  fun h =>
    (Normal tt,
     {| process := process h;
        cacheFile := Parsed data;
        mTimeFile := Parsed mTimes |}).

(** [initializeIndex(dataDir, autoRebuildHours)] on its first call, from
    [index = new FileIndex()] on, [currentFiles] being what [collectFiles]
    has gathered. The result tells whether the cache was loaded as it is.
    Scheduling the rebuild is left out. *)
Definition initializeIndex (currentFiles : MTimes) : St Host bool :=
  onProcess (onIndex (put newFileIndex)) ;;
  lift dataDirHash ;;
  let* h := get in
  let* loaded :=
    if existsSync (cacheFile h) && existsSync (mTimeFile h)
    then tryWith
           (let* cachedMTimes := lift (readJSON (mTimeFile h)) in
            if tablesDiffer cachedMTimes currentFiles
            then ret (Some false)
            else let* cached := lift (readJSON (cacheFile h)) in
                 onProcess (onIndex (deserialize cached)) ;;
                 ret None)
           (ret (Some true))
    else ret (Some false) in
  match loaded with
  | None => ret true
  | Some needsRebuild =>
      (if needsRebuild || negb (existsSync (cacheFile h))
       then clearIndex
       else tryWith
              (let* cached := lift (readJSON (cacheFile h)) in
               onProcess (onIndex (deserialize cached)))
              clearIndex) ;;
      let* oldMTimes :=
        if existsSync (mTimeFile h) then lift (readJSON (mTimeFile h))
        else ret [] in
      onProcess (initializeIndex_sync disk oldMTimes currentFiles) ;;
      saveCache currentFiles ;;
      ret false
  end.

End StartUp.

(** ** Vocabulary of the properties *)

(** [q] occurs in [s] as a contiguous run. *)
Definition occursIn (q s : jsstring) : Prop :=
  exists pre post, s = pre ++ q ++ post.

(** The first occurrence of [q] in [pre ++ q ++ post] is the one shown. *)
Definition leftmost (q pre post : jsstring) : Prop :=
  forall pre' post', pre ++ q ++ post = pre' ++ q ++ post' ->
                     (length pre <= length pre')%nat.

(** The number of non-overlapping occurrences of [q] in a line, taken from
    left to right: none when [q] does not occur; otherwise the first
    occurrence, and those of the rest of the line after it. *)
Inductive occurrences (q : jsstring) : jsstring -> nat -> Prop :=
| occurrences_none s :
    ~ occursIn q s -> occurrences q s 0
| occurrences_next pre post n :
    leftmost q pre post -> occurrences q post n ->
    occurrences q (pre ++ q ++ post) (S n).

(** [w] is a maximal run of word characters of [s]: non-empty, made of word
    characters, and with no word character just before or just after it. *)
Definition wordRun (s w : jsstring) : Prop :=
  w ≠ []
  /\ Forall (fun c => isWordChar c = true) w
  /\ exists pre post,
       s = pre ++ w ++ post
       /\ (forall c, last pre = Some c -> isWordChar c = false)
       /\ (forall c, head post = Some c -> isWordChar c = false).

(** The match counts do not increase along the list. *)
Definition descending (ms : list Matched.t) : Prop :=
  forall i j a b,
    (i < j)%nat -> ms !! i = Some a -> ms !! j = Some b ->
    (Matched.matches b <= Matched.matches a)%nat.

(** Line [i] (counted from 0) of [text] includes [query]. *)
Definition hitLine (query text : jsstring) (i : nat) (line : jsstring) : Prop :=
  lines text !! i = Some line /\ occursIn query line.

(** The hits of the lines [ls], the first of which has number [k + 1]:
    what [extractHits] collects before the cap. *)
Definition hitsFrom (query : jsstring) (k : nat) (ls : list jsstring) : list Hit.t :=
  (fun il => Hit.mk (S (fst il)) (trim (snd il)))
    <$> List.filter (fun il => includes query (snd il))
          (imap (fun i line => ((k + i)%nat, line)) ls).

(** The time stamps held by the index are those of the table, for the same
    paths. *)
Definition inStep (this : FileIndex) (table : MTimes) : Prop :=
  forall p, FileData.mtime <$> files this !! p = lookupMTime p table.

(** Every file that the scan finds new or changed can be read. *)
Definition changesReadable (disk : jsstring -> option jsstring)
    (oldMTimes currentFiles : MTimes) : Prop :=
  forall p mt,
    lookupMTime p currentFiles = Some mt ->
    lookupMTime p oldMTimes ≠ Some mt ->
    is_Some (disk p).

(** The object whose JSON text [serialize()] returns. *)
Definition written (this : FileIndex) : Snapshot.t :=
  {| Snapshot.files := map_to_list (files this);
     Snapshot.filesList := filesList this |}.

(** The state in which a start-up leaves the host when it has loaded or
    built [this]: the index, the reads it made, and the cache files. *)
Definition started (h : Host) (this : FileIndex) (newReads : list jsstring)
    (cache : stored Snapshot.t) (mTimes : stored MTimes) : Host :=
  {| process := {| index := this; reads := reads (process h) ++ newReads |};
     cacheFile := cache;
     mTimeFile := mTimes |}.

(** [filepath] is a file of the tree under [dir] whose name ends in ".md" and
    whose [stat] gives [mt], reached through directories that can be
    listed. *)
Inductive markdownFile (join : jsstring -> jsstring -> jsstring)
  : jsstring -> list dirent -> jsstring -> Z -> Prop :=
| markdownFile_here dir entries name mt :
    FileEntry name (Some mt) ∈ entries ->
    endsWith name (js ".md") = true ->
    markdownFile join dir entries (join dir name) mt
| markdownFile_below dir entries name sub filepath mt :
    DirEntry name (Some sub) ∈ entries ->
    markdownFile join (join dir name) sub filepath mt ->
    markdownFile join dir entries filepath mt.

(** In the tree of [entry], [stat] succeeds on every file whose name ends in
    ".md". *)
Fixpoint statable (entry : dirent) : Prop :=
  match entry with
  | FileEntry name stat => endsWith name (js ".md") = true -> is_Some stat
  | DirEntry _ None => True
  | DirEntry _ (Some entries) =>
      (fix all (es : list dirent) : Prop :=
         match es with
         | [] => True
         | e :: es' => statable e /\ all es'
         end) entries
  end.

(** An entry that [collectFiles] passes over without any effect: a directory
    that cannot be listed, or a file whose name does not end in ".md". *)
Definition passedOver (entry : dirent) : Prop :=
  match entry with
  | DirEntry _ listing => listing = None
  | FileEntry name _ => endsWith name (js ".md") = false
  end.

Section Vocabulary.
Context {rt : JsRuntime}.

(** The posting list derived from the document table: what
    [_rebuildIndices] computes. *)
Definition derivedWordIndex (this : FileIndex) : completion WordIndex :=
  rebuildFrom (files this) 0 (filesList this) ∅.

(** The data-model invariant of an index state: paths are unique keys, the
    content map and the document table hold the same paths, and the posting
    list is the derived one. *)
Record valid (this : FileIndex) : Prop := mkValid {
  valid_paths : NoDup (FileInfo.path <$> filesList this);
  valid_dom :
    dom (files this)
    =@{gset (list Z)} list_to_set (FileInfo.path <$> filesList this);
  valid_words : derivedWordIndex this = Normal (wordIndex this)
}.

(** The invariant, as a check that can be run. *)
Definition validb (this : FileIndex) : bool :=
  bool_decide (NoDup (FileInfo.path <$> filesList this))
  && bool_decide (dom (files this)
                  =@{gset (list Z)} list_to_set (FileInfo.path <$> filesList this))
  && match derivedWordIndex this with
     | Normal w => bool_decide (w = wordIndex this)
     | Throw => false
     end.

(** The document at table position [i] holds token [tok]. *)
Definition holdsToken (this : FileIndex) (i : nat) (tok : jsstring) : Prop :=
  exists f fileData,
    filesList this !! i = Some f
    /\ files this !! FileInfo.path f = Some fileData
    /\ tok ∈ tokenize (FileData.content fileData).

(** Ordinal [i] is listed under token [tok]. *)
Definition posted (this : FileIndex) (tok : jsstring) (i : nat) : Prop :=
  exists s, wordIndex this !! tok = Some s /\ i ∈ s.

(** Every posting refers to a table position whose document holds the
    token. *)
Definition postingsSound (this : FileIndex) : Prop :=
  forall tok i, posted this tok i -> holdsToken this i tok.

(** Every token of every document of the table is posted under the
    document's position. *)
Definition postingsComplete (this : FileIndex) : Prop :=
  forall tok i, holdsToken this i tok -> posted this tok i.

(** [addFile] is only applied to a path that the index does not hold, as
    both scans do by calling [removeFile] first. *)
Fixpoint freshAdds (ops : list op) (this : FileIndex) : bool :=
  match ops with
  | [] => true
  | o :: ops' =>
      match o with
      | AddDocument filepath _ _ _ => bool_decide (files this !! filepath = None)
      | RemoveDocument _ => true
      end && freshAdds ops' (snd (applyOp o this))
  end.

(** A text qualifies for a query: in phrase mode its count is positive, in
    token mode it shares a token with the query. *)
Definition qualifies (query text : jsstring) : Prop :=
  if isMultiCJK query then (0 < countPhrase query text)%nat
  else exists tok, tok ∈ tokenize query /\ tok ∈ tokenize text.

(** What the token branch builds for ordinal [i]. *)
Definition matchedAt (query : jsstring) (this : FileIndex) (i : nat)
    (m : Matched.t) : Prop :=
  exists f fileData,
    filesList this !! i = Some f
    /\ files this !! FileInfo.path f = Some fileData
    /\ m = Matched.mk i (FileInfo.path f) (FileInfo.name f)
             (FileData.content fileData)
             (countLines query (FileData.content fileData)).

(** What the phrase branch builds for the document at position [i]. *)
Definition phraseAt (query : jsstring) (fs : Files) (l : list FileInfo.t)
    (i : nat) (m : Matched.t) : Prop :=
  exists f fileData,
    l !! i = Some f
    /\ fs !! FileInfo.path f = Some fileData
    /\ (0 < countPhrase query (FileData.content fileData))%nat
    /\ m = Matched.mk i (FileInfo.path f) (FileInfo.name f)
             (FileData.content fileData)
             (countPhrase query (FileData.content fileData)).

(** The paths among the candidates of a query. *)
Definition candidatePaths (query : jsstring) (this : FileIndex)
  : completion (list jsstring) :=
  cbind (fst (candidates query this)) (fun l => Normal (Matched.path <$> l)).

(** The cache file is missing, cannot be parsed, or holds a snapshot on which
    [deserialize] throws. *)
Definition unusable (cache : stored Snapshot.t) : Prop :=
  match cache with
  | Parsed data => fst (deserialize data newFileIndex) = Throw
  | _ => True
  end.

End Vocabulary.

Section SyncVocabulary.
Context {rt : JsRuntime}.
Variable disk : jsstring -> option jsstring.

(** The content map after the body of the change loop for [filepath]. *)
Definition reindexed (filepath : jsstring) (mt : Z) (fs : Files) : Files :=
  match disk filepath with
  | Some text =>
      <[filepath := FileData.mk (basename filepath) text mt]> (delete filepath fs)
  | None => delete filepath fs
  end.

(** The content map entry of [q] after the change loop. *)
Definition afterChanges (oldMTimes currentFiles : MTimes) (fs : Files)
    (q : jsstring) : option FileData.t :=
  match lookupMTime q currentFiles with
  | Some mt =>
      if changed oldMTimes q mt
      then (fun text => FileData.mk (basename q) text mt) <$> disk q
      else fs !! q
  | None => fs !! q
  end.

End SyncVocabulary.

(** ** Concrete corpora *)

Module Corpus.

Definition aPath : jsstring := js "/data/a.md".
Definition bPath : jsstring := js "/data/b.md".
Definition cPath : jsstring := js "/data/c.md".
Definition xPath : jsstring := js "/data/x.md".
Definition yPath : jsstring := js "/data/y.md".

(** Document A holds only "alpha", document B only "beta". *)
Definition alphaBeta : FileIndex :=
  snd ((addFile (rt := posixHost) aPath (js "a.md") (js "alpha") 1 ;;
        addFile (rt := posixHost) bPath (js "b.md") (js "beta") 2) newFileIndex).

Definition addAddRemove : list op :=
  [AddDocument aPath (js "a.md") (js "alpha") 1;
   AddDocument bPath (js "b.md") (js "beta") 2;
   RemoveDocument aPath].

(** The same path added twice, with different contents. *)
Definition duplicateAdds : list op :=
  [AddDocument aPath (js "a.md") (js "alpha") 1;
   AddDocument aPath (js "a.md") (js "beta") 2].

(** Three Han characters: U+4E2D U+6587 U+5B57. *)
Definition phrase : jsstring := [0x4E2D; 0x6587; 0x5B57].

(** Document X holds the phrase as a run within a line, document Y holds its
    three characters on three lines. *)
Definition contiguousScattered : FileIndex :=
  snd ((addFile (rt := posixHost) xPath (js "x.md")
          (js "see " ++ phrase ++ js " here") 1 ;;
        addFile (rt := posixHost) yPath (js "y.md")
          [0x4E2D; 10; 0x6587; 10; 0x5B57] 2) newFileIndex).

(** Sixteen documents that all hold the word "x". *)
Definition sixteen : FileIndex :=
  snd (forEach (fun i : nat =>
          addFile (rt := posixHost) (js "/data/" ++ [65 + Z.of_nat i] ++ js ".md")
            ([65 + Z.of_nat i] ++ js ".md") (js "x") 0)
        (seq 0 16) newFileIndex).

(** The index loaded from a cache of a.md and b.md. *)
Definition cached : Process :=
  {| index :=
       snd ((addFile (rt := posixHost) aPath (js "a.md") (js "old a") 1 ;;
             addFile (rt := posixHost) bPath (js "b.md") (js "old b") 2)
              newFileIndex);
     reads := [] |}.

Definition cachedMTimes : MTimes := [(aPath, 1); (bPath, 2)].

(** The scan finds a.md unchanged, c.md new, and no b.md. *)
Definition scanned : MTimes := [(aPath, 1); (cPath, 3)].

Definition diskABC (filepath : jsstring) : option jsstring :=
  if decide (filepath = aPath) then Some (js "a on disk")
  else if decide (filepath = cPath) then Some (js "fresh c")
  else None.

(** A directory in which a.md cannot be read and every other file holds
    "text". *)
Definition unreadableA (filepath : jsstring) : option jsstring :=
  if decide (filepath = aPath) then None else Some (js "text").

(** Three documents in which "x" is a line once, three times and twice. *)
Definition onceThriceTwice : FileIndex :=
  snd ((addFile (rt := posixHost) aPath (js "a.md") (js "x") 1 ;;
        addFile (rt := posixHost) bPath (js "b.md")
          (js "x" ++ [10] ++ js "x" ++ [10] ++ js "x") 2 ;;
        addFile (rt := posixHost) cPath (js "c.md")
          (js "x" ++ [10] ++ js "y" ++ [10] ++ js "x") 3) newFileIndex).

(** [path.join] of a directory and a name that need no normalisation. *)
Definition joinPath (dir name : jsstring) : jsstring := dir ++ [47] ++ name.

(** A data directory: two markdown files, a text file, a directory that
    cannot be listed, and a sub-directory in which the second of three
    markdown files cannot be examined. *)
Definition tree : list dirent :=
  [FileEntry (js "a.md") (Some 1);
   FileEntry (js "notes.txt") (Some 9);
   DirEntry (js "sub")
     (Some [FileEntry (js "b.md") (Some 2);
            FileEntry (js "bad.md") None;
            FileEntry (js "c.md") (Some 3)]);
   DirEntry (js "locked") None;
   FileEntry (js "d.md") (Some 4)].

Definition freshScan : MTimes := [(aPath, 1); (bPath, 2)].

(** A snapshot of a.md and b.md, and the same snapshot without the entry
    of b.md. *)
Definition snapshotAB : Snapshot.t :=
  {| Snapshot.files :=
       [(aPath, FileData.mk (js "a.md") (js "old a") 1);
        (bPath, FileData.mk (js "b.md") (js "old b") 2)];
     Snapshot.filesList :=
       [FileInfo.mk aPath (js "a.md"); FileInfo.mk bPath (js "b.md")] |}.

Definition snapshotWithoutB : Snapshot.t :=
  {| Snapshot.files := [(aPath, FileData.mk (js "a.md") (js "old a") 1)];
     Snapshot.filesList :=
       [FileInfo.mk aPath (js "a.md"); FileInfo.mk bPath (js "b.md")] |}.

(** Every file holds "text". *)
Definition diskText (filepath : jsstring) : option jsstring := Some (js "text").

(** A host without cache files. *)
Definition coldHost : Host :=
  {| process := {| index := newFileIndex; reads := [] |};
     cacheFile := Absent;
     mTimeFile := Absent |}.

(** A host with the cache files written for a.md and b.md. *)
Definition warmHost : Host :=
  {| process := {| index := newFileIndex; reads := [] |};
     cacheFile := Parsed (written (index cached));
     mTimeFile := Parsed cachedMTimes |}.

(** The same host after the loss of the cache file. *)
Definition lostCacheHost : Host :=
  {| process := {| index := newFileIndex; reads := [] |};
     cacheFile := Absent;
     mTimeFile := Parsed cachedMTimes |}.

(** The same host with a time-stamp file that cannot be parsed. *)
Definition corruptHost : Host :=
  {| process := {| index := newFileIndex; reads := [] |};
     cacheFile := Parsed (written (index cached));
     mTimeFile := Corrupt |}.

(** The scan finds a.md with a new time stamp and b.md unchanged. *)
Definition touchedA : MTimes := [(aPath, 5); (bPath, 2)].

(** Four Katakana characters: U+30AB U+30BF U+30AB U+30CA. *)
Definition katakana : jsstring := [0x30AB; 0x30BF; 0x30AB; 0x30CA].

Definition katakanaCorpus : FileIndex :=
  snd (addFile (rt := posixHost) aPath (js "a.md") katakana 1 newFileIndex).

(** Two Katakana characters and a Han character: U+30AB U+30BF U+4E2D. *)
Definition katakanaHan : jsstring := [0x30AB; 0x30BF; 0x4E2D].

End Corpus.

(** * Properties *)

(** ** Evaluation of computations *)

Lemma bind_Normal {S A B} (m : St S A) (k : A -> St S B) s a s' :
  m s = (Normal a, s') -> bind m k s = k a s'.
Proof. unfold bind. intros ->. reflexivity. Qed.

Lemma bind_Throw {S A B} (m : St S A) (k : A -> St S B) s s' :
  m s = (Throw, s') -> bind m k s = (Throw, s').
Proof. unfold bind. intros ->. reflexivity. Qed.

Lemma forEach_app {S A} (f : A -> St S unit) l1 l2 s :
  forEach f (l1 ++ l2) s = (forEach f l1 ;; forEach f l2) s.
Proof.
  revert s. induction l1 as [|x l1 IH]; intros s; simpl.
  - reflexivity.
  - unfold bind in *. destruct (f x s) as [[[]|] s1]; [|reflexivity].
    apply IH.
Qed.

(** ** Sets in insertion order *)

Section JsSetFacts.
Context {A : Type} `{EqDecision A}.
Implicit Types (x y : A) (s xs : list A).

Lemma elem_of_add x y s : y ∈ JsSet.add x s <-> y = x \/ y ∈ s.
Proof.
  unfold JsSet.add. destruct (decide (x ∈ s)).
  - split; [auto|]. intros [->|]; assumption.
  - rewrite elem_of_app, list_elem_of_singleton. tauto.
Qed.

Lemma NoDup_add x s : NoDup s -> NoDup (JsSet.add x s).
Proof.
  intros Hs. unfold JsSet.add. destruct (decide (x ∈ s)); [assumption|].
  apply NoDup_app. split; [assumption|]. split.
  - intros y Hy ->%list_elem_of_singleton. contradiction.
  - apply NoDup_singleton.
Qed.

Lemma elem_of_addAll xs s y : y ∈ JsSet.addAll xs s <-> y ∈ xs \/ y ∈ s.
Proof.
  unfold JsSet.addAll. revert s. induction xs as [|x xs IH]; intros s; simpl.
  - rewrite elem_of_nil. tauto.
  - rewrite IH, elem_of_add, elem_of_cons. tauto.
Qed.

Lemma NoDup_addAll xs s : NoDup s -> NoDup (JsSet.addAll xs s).
Proof.
  unfold JsSet.addAll. revert s. induction xs as [|x xs IH]; intros s Hs; simpl.
  - assumption.
  - apply IH, NoDup_add, Hs.
Qed.

Lemma addAll_app xs ys s :
  JsSet.addAll (xs ++ ys) s = JsSet.addAll ys (JsSet.addAll xs s).
Proof. unfold JsSet.addAll. apply foldl_app. Qed.

Lemma elem_of_delete x y s : y ∈ JsSet.delete x s <-> y ≠ x /\ y ∈ s.
Proof.
  unfold JsSet.delete. rewrite list_elem_of_In, filter_In, <- list_elem_of_In.
  rewrite bool_decide_eq_true. tauto.
Qed.

End JsSetFacts.

(** ** Posting lists *)

Section Postings.
Context {rt : JsRuntime}.
Implicit Types (w acc : WordIndex) (fs : Files) (l : list FileInfo.t).

Lemma posted_default this tok i :
  posted this tok i <-> i ∈ default [] (wordIndex this !! tok).
Proof.
  unfold posted. destruct (wordIndex this !! tok) as [s|]; simpl.
  - split; [intros (s' & [= <-] & Hi); exact Hi | eauto].
  - split; [intros (s' & [=] & _) | intros []%elem_of_nil].
Qed.

Lemma addPosting_lookup i w word tok :
  addPosting i w word !! tok
  = if decide (tok = word) then Some (JsSet.add i (default [] (w !! word)))
    else w !! tok.
Proof.
  unfold addPosting. destruct (decide (tok = word)) as [->|Hne].
  - apply lookup_insert_eq.
  - apply lookup_insert_ne. congruence.
Qed.

Lemma elem_of_indexWords words i w tok n :
  n ∈ default [] (indexWords words i w !! tok)
  <-> n ∈ default [] (w !! tok) \/ (n = i /\ tok ∈ words).
Proof.
  unfold indexWords. revert w. induction words as [|word words IH]; intros w; simpl.
  - rewrite elem_of_nil. tauto.
  - rewrite IH, addPosting_lookup, elem_of_cons.
    destruct (decide (tok = word)) as [->|Hne]; simpl.
    + rewrite elem_of_add. tauto.
    + tauto.
Qed.

Lemma rebuildFrom_app fs l1 l2 i acc :
  rebuildFrom fs i (l1 ++ l2) acc
  = cbind (rebuildFrom fs i l1 acc) (rebuildFrom fs (i + length l1) l2).
Proof.
  revert i acc. induction l1 as [|f l1 IH]; intros i acc; simpl.
  - rewrite Nat.add_0_r. reflexivity.
  - destruct (fs !! FileInfo.path f) as [fileData|]; simpl; [|reflexivity].
    rewrite IH. do 2 f_equal. lia.
Qed.

Lemma rebuildFrom_ext fs fs' l i acc :
  (forall f, f ∈ l -> fs !! FileInfo.path f = fs' !! FileInfo.path f) ->
  rebuildFrom fs i l acc = rebuildFrom fs' i l acc.
Proof.
  revert i acc. induction l as [|f l IH]; intros i acc Hagree; simpl.
  - reflexivity.
  - rewrite <- (Hagree f) by apply list_elem_of_here.
    destruct (fs !! FileInfo.path f) as [fileData|]; simpl; [|reflexivity].
    apply IH. intros g Hg. apply Hagree, list_elem_of_further, Hg.
Qed.

Lemma rebuildFrom_Normal fs l i acc :
  (forall f, f ∈ l -> is_Some (fs !! FileInfo.path f)) ->
  exists w, rebuildFrom fs i l acc = Normal w.
Proof.
  revert i acc. induction l as [|f l IH]; intros i acc Hdom; simpl.
  - eauto.
  - destruct (Hdom f) as [fileData ->]; [apply list_elem_of_here|]. simpl.
    apply IH. intros g Hg. apply Hdom, list_elem_of_further, Hg.
Qed.

Lemma rebuildFrom_defined fs l i acc w :
  rebuildFrom fs i l acc = Normal w ->
  forall f, f ∈ l -> is_Some (fs !! FileInfo.path f).
Proof.
  revert i acc. induction l as [|f l IH]; intros i acc Hre g Hg.
  - apply elem_of_nil in Hg as [].
  - simpl in Hre. destruct (fs !! FileInfo.path f) as [fileData|] eqn:Hf;
      simpl in Hre; [|discriminate].
    apply elem_of_cons in Hg as [->|Hg]; [rewrite Hf; eauto|].
    eapply IH; eassumption.
Qed.

(** The postings of a rebuilt index: those of the accumulator, and one for
    each token of each document, under the document's position. *)
Lemma rebuildFrom_postings fs l i acc w :
  rebuildFrom fs i l acc = Normal w ->
  forall tok n,
    n ∈ default [] (w !! tok)
    <-> n ∈ default [] (acc !! tok)
        \/ exists k f fileData,
             l !! k = Some f /\ n = (i + k)%nat
             /\ fs !! FileInfo.path f = Some fileData
             /\ tok ∈ tokenize (FileData.content fileData).
Proof.
  revert i acc. induction l as [|f l IH]; intros i acc Hre tok n; simpl in Hre.
  - injection Hre as <-. split; [auto|].
    intros [H|(k & g & fd & Hk & _)]; [exact H|]. rewrite lookup_nil in Hk. discriminate.
  - destruct (fs !! FileInfo.path f) as [fileData|] eqn:Hf; simpl in Hre; [|discriminate].
    rewrite (IH _ _ Hre), elem_of_indexWords. split.
    + intros [[H|[-> Htok]]|(k & g & fd & Hk & -> & Hg & Htok)].
      * left. exact H.
      * right. exists 0%nat, f, fileData. rewrite Nat.add_0_r. auto.
      * right. exists (S k), g, fd. repeat split; [exact Hk|lia|exact Hg|exact Htok].
    + intros [H|(k & g & fd & Hk & -> & Hg & Htok)]; [auto|].
      destruct k as [|k]; simpl in Hk.
      * injection Hk as <-. rewrite Hf in Hg. injection Hg as <-.
        left. right. split; [lia|exact Htok].
      * right. exists k, g, fd. repeat split; [exact Hk|lia|exact Hg|exact Htok].
Qed.

End Postings.

(** ** The data-model invariant *)

Section Validity.
Context {rt : JsRuntime}.
Implicit Types (this : FileIndex) (l : list FileInfo.t).

Lemma valid_new : valid newFileIndex.
Proof. split; [apply NoDup_nil_2 | reflexivity | reflexivity]. Qed.

Lemma valid_listed this f :
  valid this -> f ∈ filesList this -> is_Some (files this !! FileInfo.path f).
Proof.
  intros Hv Hf. apply elem_of_dom. rewrite (valid_dom _ Hv), elem_of_list_to_set.
  apply list_elem_of_fmap_2, Hf.
Qed.

Lemma valid_stored this filepath :
  valid this -> is_Some (files this !! filepath) ->
  exists i f, filesList this !! i = Some f /\ FileInfo.path f = filepath.
Proof.
  intros Hv Hp. apply elem_of_dom in Hp.
  rewrite (valid_dom _ Hv), elem_of_list_to_set in Hp.
  apply list_elem_of_fmap in Hp as (f & -> & Hf).
  apply list_elem_of_lookup in Hf as (i & Hi). eauto.
Qed.

Lemma addFile_eq filepath fname text mt this :
  addFile filepath fname text mt this
  = (Normal tt,
     {| files := <[filepath := FileData.mk fname text mt]> (files this);
        filesList := filesList this ++ [FileInfo.mk filepath fname];
        wordIndex := indexWords (tokenize text) (length (filesList this))
                       (wordIndex this) |}).
Proof. reflexivity. Qed.

Lemma valid_addFile filepath fname text mt this :
  valid this -> files this !! filepath = None ->
  valid (snd (addFile filepath fname text mt this)).
Proof.
  intros Hv Hfresh. rewrite addFile_eq. simpl.
  assert (Hnot : filepath ∉ FileInfo.path <$> filesList this).
  { rewrite <- (elem_of_list_to_set (C := gset (list Z))), <- (valid_dom _ Hv).
    apply not_elem_of_dom, Hfresh. }
  split; simpl.
  - rewrite fmap_app. apply NoDup_app. split; [apply (valid_paths _ Hv)|]. split.
    + intros p Hp ->%list_elem_of_singleton. contradiction.
    + apply NoDup_singleton.
  - rewrite dom_insert_L, (valid_dom _ Hv), fmap_app, list_to_set_app_L. simpl.
    rewrite (right_id_L ∅ (∪)). apply (comm_L (∪)).
  - unfold derivedWordIndex. simpl. rewrite rebuildFrom_app.
    rewrite (rebuildFrom_ext _ (files this)).
    + pose proof (valid_words _ Hv) as Hw. unfold derivedWordIndex in Hw.
      rewrite Hw. simpl. rewrite lookup_insert_eq. reflexivity.
    + intros f Hf. apply lookup_insert_ne. intros Heq.
      apply Hnot. rewrite Heq. apply list_elem_of_fmap_2, Hf.
Qed.

Lemma removeFile_absent filepath this :
  files this !! filepath = None -> removeFile filepath this = (Normal tt, this).
Proof. intros Hp. unfold removeFile, bind, get. rewrite Hp. reflexivity. Qed.

Lemma NoDup_delete_paths l i f :
  NoDup (FileInfo.path <$> l) -> l !! i = Some f ->
  forall g, g ∈ delete i l <-> g ∈ l /\ FileInfo.path g ≠ FileInfo.path f.
Proof.
  intros Hnd Hi g. rewrite delete_take_drop.
  rewrite <- (take_drop_middle l i f Hi) in Hnd at 1.
  rewrite <- (take_drop_middle l i f Hi) at 3.
  rewrite fmap_app, fmap_cons in Hnd.
  apply NoDup_app in Hnd as (_ & Hdisj & Hnd2).
  apply NoDup_cons in Hnd2 as (Hf & _).
  rewrite !elem_of_app, elem_of_cons. split.
  - intros [Hg|Hg].
    + split; [auto|]. intros Heq. apply (Hdisj (FileInfo.path g)).
      * apply list_elem_of_fmap_2, Hg.
      * rewrite Heq. apply list_elem_of_here.
    + split; [auto|]. intros Heq. apply Hf. rewrite <- Heq.
      apply list_elem_of_fmap_2, Hg.
  - intros [[Hg|[->|Hg]] Hne]; [auto|congruence|auto].
Qed.

(** A successful [removeFile]: the state it leaves. *)
Lemma removeFile_present filepath this fileData :
  valid this -> files this !! filepath = Some fileData ->
  exists i f w,
    filesList this !! i = Some f /\ FileInfo.path f = filepath
    /\ removeFile filepath this
       = (Normal tt,
          {| files := delete filepath (files this);
             filesList := delete i (filesList this);
             wordIndex := w |})
    /\ rebuildFrom (delete filepath (files this)) 0 (delete i (filesList this)) ∅
       = Normal w.
Proof.
  intros Hv Hp.
  destruct (valid_stored this filepath Hv) as (j & g & Hj & Hg); [rewrite Hp; eauto|].
  destruct (list_find (fun f => FileInfo.path f = filepath) (filesList this))
    as [[i f]|] eqn:Hfind.
  2:{ apply list_find_None in Hfind. rewrite Forall_forall in Hfind.
      exfalso. apply (Hfind g); [|exact Hg].
      eapply list_elem_of_lookup_2, Hj. }
  apply list_find_Some in Hfind as (Hi & Hf & _).
  destruct (rebuildFrom_Normal (delete filepath (files this))
              (delete i (filesList this)) 0 ∅) as [w Hw].
  { intros h Hh. apply (NoDup_delete_paths _ _ _ (valid_paths _ Hv) Hi) in Hh as [Hh Hne].
    rewrite lookup_delete_ne by congruence. apply valid_listed; assumption. }
  exists i, f, w. repeat split; [exact Hi|exact Hf| |exact Hw].
  unfold removeFile, bind, get. rewrite Hp.
  destruct (list_find _ _) as [[i' f']|] eqn:Hfind'.
  2:{ apply list_find_None in Hfind'. rewrite Forall_forall in Hfind'.
      exfalso. apply (Hfind' g); [|exact Hg].
      eapply list_elem_of_lookup_2, Hj. }
  apply list_find_Some in Hfind' as (Hi' & Hf' & Hmin').
  assert (i' = i) as ->.
  { pose proof (valid_paths _ Hv) as Hnd.
    eapply NoDup_lookup; [exact Hnd| |].
    - rewrite list_lookup_fmap, Hi'. simpl. rewrite Hf'. reflexivity.
    - rewrite list_lookup_fmap, Hi. simpl. rewrite Hf. reflexivity. }
  unfold put, _rebuildIndices, bind, get, lift. simpl. rewrite Hw. reflexivity.
Qed.

Lemma valid_removeFile filepath this :
  valid this ->
  fst (removeFile filepath this) = Normal tt
  /\ valid (snd (removeFile filepath this)).
Proof.
  intros Hv. destruct (files this !! filepath) as [fileData|] eqn:Hp.
  2:{ rewrite removeFile_absent by exact Hp. auto. }
  destruct (removeFile_present _ _ _ Hv Hp) as (i & f & w & Hi & Hf & -> & Hw).
  simpl. split; [reflexivity|]. split; simpl.
  - rewrite list_fmap_delete.
    eapply sublist_NoDup; [apply (valid_paths _ Hv) | apply sublist_delete].
  - apply set_eq. intros p.
    rewrite dom_delete_L, elem_of_difference, (valid_dom _ Hv), !elem_of_list_to_set.
    rewrite !list_elem_of_fmap, elem_of_singleton. split.
    + intros [(g & -> & Hg) Hne]. exists g. split; [reflexivity|].
      apply (NoDup_delete_paths _ _ _ (valid_paths _ Hv) Hi). split; [exact Hg|congruence].
    + intros (g & -> & Hg).
      apply (NoDup_delete_paths _ _ _ (valid_paths _ Hv) Hi) in Hg as [Hg Hne].
      split; [eauto|congruence].
  - exact Hw.
Qed.

End Validity.

(** ** Candidates *)

Lemma mapC_Normal {A B} (f : A -> completion B) (l : list A) :
  (forall x, x ∈ l -> exists y, f x = Normal y) ->
  exists ys, mapC f l = Normal ys /\ Forall2 (fun x y => f x = Normal y) l ys.
Proof.
  induction l as [|x l IH]; intros Hf; simpl.
  - exists []. split; [reflexivity|constructor].
  - destruct (Hf x) as [y Hy]; [apply list_elem_of_here|].
    destruct IH as (ys & Hys & Hall).
    { intros z Hz. apply Hf, list_elem_of_further, Hz. }
    exists (y :: ys). rewrite Hy, Hys. simpl. split; [reflexivity|].
    constructor; assumption.
Qed.

Section Candidates.
Context {rt : JsRuntime}.
Implicit Types (this : FileIndex) (l : list FileInfo.t) (m : Matched.t).
Implicit Types (query : jsstring) (idx : nat) (acc found ms : list Matched.t).

Lemma valid_sound this : valid this -> postingsSound this.
Proof.
  intros Hv tok i Hp. apply posted_default in Hp.
  apply (rebuildFrom_postings _ _ _ _ _ (valid_words _ Hv)) in Hp
    as [[]%elem_of_nil|(k & f & fd & Hk & -> & Hf & Htok)].
  exists f, fd. auto.
Qed.

Lemma valid_complete this : valid this -> postingsComplete this.
Proof.
  intros Hv tok i (f & fd & Hi & Hf & Htok). apply posted_default.
  apply (rebuildFrom_postings _ _ _ _ _ (valid_words _ Hv)).
  right. exists i, f, fd. auto.
Qed.

Lemma elem_of_unionPostings (w : WordIndex) toks i :
  i ∈ unionPostings w toks
  <-> exists tok, tok ∈ toks /\ i ∈ default [] (w !! tok).
Proof.
  unfold unionPostings.
  enough (H : forall a : list nat,
    i ∈ foldl (fun a token => JsSet.addAll (default [] (w !! token)) a) a toks
    <-> i ∈ a \/ exists tok, tok ∈ toks /\ i ∈ default [] (w !! tok)).
  { rewrite H, elem_of_nil. tauto. }
  induction toks as [|t toks IH]; intros a; simpl.
  - split; [auto|]. intros [H|(tok & []%elem_of_nil & _)]. exact H.
  - rewrite IH, elem_of_addAll. split.
    + intros [[H|H]|(tok & Htok & H)]; [|auto|].
      * right. exists t. split; [apply list_elem_of_here|exact H].
      * right. exists tok. split; [apply list_elem_of_further, Htok|exact H].
    + intros [H|(tok & [->|Htok]%elem_of_cons & H)]; [auto|auto|].
      right. eauto.
Qed.

Lemma tokenScan_valid query this :
  valid this ->
  exists ms,
    tokenScan query this = Normal ms
    /\ Forall2 (matchedAt query this)
         (unionPostings (wordIndex this) (tokenize query)) ms.
Proof.
  intros Hv. unfold tokenScan.
  match goal with |- context [mapC ?f ?l] =>
    destruct (mapC_Normal f l) as (ms & Hms & Hall) end.
  - intros i Hi. apply elem_of_unionPostings in Hi as (tok & _ & Hi).
    apply posted_default, (valid_sound _ Hv) in Hi as (f & fd & Hf & Hfd & _).
    rewrite Hf. simpl. rewrite Hfd. simpl. eauto.
  - exists ms. split; [exact Hms|].
    eapply Forall2_impl; [exact Hall|]. intros i m Hm. simpl in Hm.
    destruct (filesList this !! i) as [f|] eqn:Hf; simpl in Hm; [|discriminate].
    destruct (files this !! FileInfo.path f) as [fd|] eqn:Hfd; simpl in Hm; [|discriminate].
    injection Hm as <-. exists f, fd. auto.
Qed.

Lemma phraseScan_defined query (fs : Files) l idx acc :
  (forall f, f ∈ l -> is_Some (fs !! FileInfo.path f)) ->
  exists found,
    phraseScan query fs idx l acc = Normal (acc ++ found)
    /\ forall m, m ∈ found <->
         exists k f fileData,
           l !! k = Some f /\ fs !! FileInfo.path f = Some fileData
           /\ (0 < countPhrase query (FileData.content fileData))%nat
           /\ m = Matched.mk (idx + k) (FileInfo.path f) (FileInfo.name f)
                    (FileData.content fileData)
                    (countPhrase query (FileData.content fileData)).
Proof.
  revert idx acc. induction l as [|f l IH]; intros idx acc Hdom; simpl.
  - exists []. rewrite app_nil_r. split; [reflexivity|].
    intros m. rewrite elem_of_nil. split; [intros []|].
    intros (k & g & fd & Hk & _). rewrite lookup_nil in Hk. discriminate.
  - destruct (Hdom f) as [fd Hfd]; [apply list_elem_of_here|]. rewrite Hfd. simpl.
    match goal with |- context [phraseScan _ _ _ _ ?a] =>
      destruct (IH (S idx) a) as (found & Hscan & Hfound) end.
    { intros g Hg. apply Hdom, list_elem_of_further, Hg. }
    rewrite Hscan.
    destruct (decide (0 < countPhrase query (FileData.content fd))%nat) as [Hpos|Hzero].
    + eexists (_ :: found). rewrite <- app_assoc. split; [reflexivity|].
      intros m. rewrite elem_of_cons, Hfound. split.
      * intros [->|(k & g & gd & Hk & Hg & Hc & ->)].
        -- exists 0%nat, f, fd. rewrite Nat.add_0_r. auto.
        -- exists (S k), g, gd. rewrite Nat.add_succ_r. auto.
      * intros (k & g & gd & Hk & Hg & Hc & ->). destruct k as [|k]; simpl in Hk.
        -- injection Hk as <-. rewrite Hfd in Hg. injection Hg as <-.
           left. rewrite Nat.add_0_r. reflexivity.
        -- right. exists k, g, gd. rewrite Nat.add_succ_r. auto.
    + exists found. split; [reflexivity|].
      intros m. rewrite Hfound. split.
      * intros (k & g & gd & Hk & Hg & Hc & ->).
        exists (S k), g, gd. rewrite Nat.add_succ_r. auto.
      * intros (k & g & gd & Hk & Hg & Hc & ->). destruct k as [|k]; simpl in Hk.
        -- injection Hk as <-. rewrite Hfd in Hg. injection Hg as <-. contradiction.
        -- exists k, g, gd. rewrite Nat.add_succ_r. auto.
Qed.

Lemma phraseScan_valid query this :
  valid this ->
  exists ms,
    phraseScan query (files this) 0 (filesList this) [] = Normal ms
    /\ forall m, m ∈ ms <-> exists i, phraseAt query (files this) (filesList this) i m.
Proof.
  intros Hv.
  destruct (phraseScan_defined query (files this) (filesList this) 0 [])
    as (found & Hscan & Hfound).
  { intros f Hf. apply valid_listed; assumption. }
  exists found. split; [exact Hscan|].
  intros m. rewrite Hfound. unfold phraseAt. simpl.
  split; intros (k & f & fd & H1 & H2 & H3 & H4); exists k, f, fd; auto.
Qed.

(** On a valid index no search throws, and every candidate is a document of
    the table. *)
Lemma candidates_valid query this :
  valid this ->
  exists ms,
    candidates query this = (Normal ms, this)
    /\ forall m, m ∈ ms ->
         exists f, f ∈ filesList this /\ Matched.path m = FileInfo.path f.
Proof.
  intros Hv. unfold candidates, bind, get, lift.
  destruct (isMultiCJK query).
  - destruct (phraseScan_valid query this Hv) as (ms & -> & Hms).
    exists ms. split; [reflexivity|].
    intros m (i & f & fd & Hi & _ & _ & ->)%Hms.
    exists f. split; [eapply list_elem_of_lookup_2, Hi|reflexivity].
  - destruct (tokenScan_valid query this Hv) as (ms & -> & Hall).
    exists ms. split; [reflexivity|].
    intros m Hm. apply list_elem_of_lookup in Hm as (k & Hk).
    destruct (Forall2_lookup_r _ _ _ _ _ Hall Hk) as (i & _ & f & fd & Hi & _ & ->).
    exists f. split; [eapply list_elem_of_lookup_2, Hi|reflexivity].
Qed.

End Candidates.

(** ** Removal, operation sequences and snapshots *)

Section IndexStates.
Context {rt : JsRuntime}.
Implicit Types (this : FileIndex) (ops : list op) (query filepath : jsstring).

Lemma candidatePaths_valid query this :
  valid this ->
  exists ps,
    candidatePaths query this = Normal ps
    /\ forall p, p ∈ ps -> p ∈ FileInfo.path <$> filesList this.
Proof.
  intros Hv. destruct (candidates_valid query this Hv) as (ms & Hms & Hin).
  unfold candidatePaths. rewrite Hms. simpl. eexists. split; [reflexivity|].
  intros p (m & -> & Hm)%list_elem_of_fmap.
  destruct (Hin m Hm) as (f & Hf & ->). apply list_elem_of_fmap_2, Hf.
Qed.

(** C5. [removeFile] on a path that the index does not hold changes nothing.
    On a valid index that holds the path it completes normally and takes
    exactly the document of that path out of the table: the table is the
    old one without the element at the position of the path, so that its
    length drops by one and the documents after that position move down by
    one; the path is deleted from the content map. The posting list is
    rebuilt for the new positions: ordinal [j] is listed under a token
    exactly when the document now at position [j] holds that token, and
    every listed ordinal is a position of the new table. Afterwards no query
    has the path among its candidates. *)
Theorem removeFile_removes_document this filepath :
  valid this ->
  (files this !! filepath = None ->
   removeFile filepath this = (Normal tt, this))
  /\ (is_Some (files this !! filepath) ->
      let this' := snd (removeFile filepath this) in
      fst (removeFile filepath this) = Normal tt
      /\ S (length (filesList this')) = length (filesList this)
      /\ (forall f, f ∈ filesList this' <->
                    f ∈ filesList this /\ FileInfo.path f ≠ filepath)
      /\ (exists i f,
            filesList this !! i = Some f /\ FileInfo.path f = filepath
            /\ filesList this' = delete i (filesList this)
            /\ forall j,
                 filesList this' !! j
                 = filesList this !! (if decide (j < i)%nat then j else S j))
      /\ files this' = delete filepath (files this)
      /\ derivedWordIndex this' = Normal (wordIndex this')
      /\ (forall tok j, posted this' tok j <-> holdsToken this' j tok)
      /\ (forall tok j, posted this' tok j -> (j < length (filesList this'))%nat)
      /\ forall query, exists ps,
           candidatePaths query this' = Normal ps /\ filepath ∉ ps).
Proof.
  intros Hv. split; [apply removeFile_absent|].
  intros [fileData Hp]. pose proof (valid_removeFile filepath this Hv) as [Hn Hv'].
  destruct (removeFile_present _ _ _ Hv Hp) as (i & f & w & Hi & Hf & Hrun & Hw).
  rewrite Hrun in Hv' |- *. simpl in Hv' |- *.
  pose proof (NoDup_delete_paths _ _ _ (valid_paths _ Hv) Hi) as Hdel.
  rewrite Hf in Hdel.
  assert (Hiff : forall tok j,
            posted {| files := delete filepath (files this);
                      filesList := delete i (filesList this);
                      wordIndex := w |} tok j
            <-> holdsToken {| files := delete filepath (files this);
                              filesList := delete i (filesList this);
                              wordIndex := w |} j tok).
  { intros tok j. split; [apply valid_sound, Hv'|apply valid_complete, Hv']. }
  split; [reflexivity|]. split.
  { rewrite length_delete by eauto. apply lookup_lt_Some in Hi. lia. }
  split; [exact Hdel|]. split.
  { exists i, f. split; [exact Hi|]. split; [exact Hf|]. split; [reflexivity|].
    intros j. destruct (decide (j < i)%nat) as [Hlt|Hge].
    - apply list_lookup_delete_lt, Hlt.
    - apply list_lookup_delete_ge. lia. }
  split; [reflexivity|]. split; [exact Hw|]. split; [exact Hiff|]. split.
  { intros tok j (g & fd & Hj & _)%Hiff. simpl in Hj.
    apply lookup_lt_Some in Hj. exact Hj. }
  intros query. destruct (candidatePaths_valid query _ Hv') as (ps & Hps & Hin).
  exists ps. split; [exact Hps|].
  intros (g & Hg & Hgin%Hdel)%Hin%list_elem_of_fmap. simpl in Hgin.
  destruct Hgin as [_ Hne]. congruence.
Qed.

Lemma runOps_valid ops this :
  valid this -> freshAdds ops this = true ->
  fst (runOps ops this) = Normal tt /\ valid (snd (runOps ops this)).
Proof.
  revert this. induction ops as [|o ops IH]; intros this Hv Hfresh.
  - split; [reflexivity|exact Hv].
  - simpl in Hfresh. apply andb_true_iff in Hfresh as [Ho Hrest].
    assert (Hstep : fst (applyOp o this) = Normal tt /\ valid (snd (applyOp o this))).
    { destruct o as [p n c t|p]; simpl.
      - apply bool_decide_eq_true in Ho. split; [reflexivity|].
        apply valid_addFile; assumption.
      - apply valid_removeFile, Hv. }
    destruct Hstep as [Hn Hv1]. specialize (IH _ Hv1 Hrest).
    unfold runOps in *. simpl. unfold bind.
    destruct (applyOp o this) as [c this1]. simpl in *. subst c. exact IH.
Qed.

(** C6, as amended. After every sequence of [addFile] and [removeFile] calls
    from the empty index in which [addFile] is only applied to a path that
    the index does not hold, all calls have completed normally, the paths of
    the table are pairwise distinct and each has its entry in the content
    map, and the postings are exactly the pairs of a token and a table
    position whose document holds the token: positions [0..N-1], each under
    all of its tokens, and nothing else. *)
Theorem postings_match_table_positions ops :
  freshAdds ops newFileIndex = true ->
  let this := snd (runOps ops newFileIndex) in
  fst (runOps ops newFileIndex) = Normal tt
  /\ NoDup (FileInfo.path <$> filesList this)
  /\ (forall i f, filesList this !! i = Some f ->
                  is_Some (files this !! FileInfo.path f))
  /\ (forall tok i, posted this tok i <-> holdsToken this i tok)
  /\ (forall tok i, posted this tok i -> (i < length (filesList this))%nat).
Proof.
  intros Hfresh. destruct (runOps_valid ops newFileIndex valid_new Hfresh) as [Hn Hv].
  simpl. split; [exact Hn|]. split; [apply (valid_paths _ Hv)|]. split.
  { intros i f Hi. apply valid_listed; [exact Hv|]. eapply list_elem_of_lookup_2, Hi. }
  split.
  - intros tok i. split; [apply valid_sound, Hv | apply valid_complete, Hv].
  - intros tok i (f & fd & Hi & _)%(valid_sound _ Hv).
    eapply lookup_lt_Some, Hi.
Qed.

Lemma validb_valid this : validb this = true -> valid this.
Proof.
  unfold validb. intros [[H1 H2]%andb_true_iff H3]%andb_true_iff.
  apply bool_decide_eq_true in H1, H2. split; [exact H1|exact H2|].
  destruct (derivedWordIndex this) as [w|]; [|discriminate].
  apply bool_decide_eq_true in H3. congruence.
Qed.

Lemma mapOfEntries_reverse (entries : list (jsstring * FileData.t)) :
  mapOfEntries entries = list_to_map (reverse entries).
Proof.
  unfold mapOfEntries. induction entries as [|kv entries IH] using rev_ind.
  - reflexivity.
  - rewrite foldl_app, reverse_snoc. simpl. rewrite IH. reflexivity.
Qed.

Lemma mapOfEntries_map_to_list (fs : Files) : mapOfEntries (map_to_list fs) = fs.
Proof.
  rewrite mapOfEntries_reverse.
  rewrite <- (list_to_map_to_list fs) at 2.
  apply list_to_map_proper.
  - rewrite fmap_reverse, reverse_Permutation. apply NoDup_fst_map_to_list.
  - apply reverse_Permutation.
Qed.

(** C7. The snapshot of a valid index, deserialized into any [FileIndex]
    object, gives back the document table and the content map (paths,
    names, contents, modification times), and a posting list under which
    every query has the same candidates and the same search result. *)
Theorem deserialize_serialize this other :
  valid this ->
  exists data,
    serialize this = (Normal data, this)
    /\ let this' := snd (deserialize data other) in
       fst (deserialize data other) = Normal tt
       /\ filesList this' = filesList this
       /\ files this' = files this
       /\ (forall query, fst (candidates query this') = fst (candidates query this))
       /\ (forall query page perPage,
             fst (search query page perPage this')
             = fst (search query page perPage this)).
Proof.
  intros Hv. eexists. split; [reflexivity|].
  assert (Hrun : deserialize
            {| Snapshot.files := map_to_list (files this);
               Snapshot.filesList := filesList this |} other
          = (Normal tt, this)).
  { unfold deserialize, _rebuildIndices, bind, get, put, lift. simpl.
    rewrite mapOfEntries_map_to_list.
    pose proof (valid_words _ Hv) as Hw. unfold derivedWordIndex in Hw.
    rewrite Hw. destruct this; reflexivity. }
  rewrite Hrun. simpl. auto.
Qed.

End IndexStates.

(** ** Search: frame and pagination *)

Section SearchFacts.
Context {rt : JsRuntime}.
Implicit Types (this : FileIndex) (query : jsstring) (page : Z) (perPage : positive).

Lemma candidates_state query this : snd (candidates query this) = this.
Proof. unfold candidates, bind, get, lift. destruct (isMultiCJK query); reflexivity. Qed.

Lemma ranked_eq query this :
  ranked query this
  = (cbind (fst (candidates query this))
       (fun ms => Normal (extractHits query <$> sortByMatches ms)),
     this).
Proof.
  unfold ranked, bind, ret. pose proof (candidates_state query this) as Hs.
  destruct (candidates query this) as [[ms|] s]; simpl in *; subst s; reflexivity.
Qed.

Lemma search_eq query page perPage this :
  search query page perPage this
  = (cbind (fst (ranked query this))
       (fun results => Normal (paginate results page perPage)),
     this).
Proof.
  unfold search, bind, ret. rewrite ranked_eq. simpl.
  destruct (fst (candidates query this)); reflexivity.
Qed.

(** C10. [search] and [searchFiles] leave the index as it was: the content
    map, the document table and the posting list are the same after the call
    as before, whatever the query, the page and the page size, and whether
    the call returns or throws. *)
Theorem search_read_only this query page perPage :
  snd (search query page perPage this) = this
  /\ snd (searchFiles query page this) = this
  /\ files (snd (search query page perPage this)) = files this
  /\ filesList (snd (search query page perPage this)) = filesList this
  /\ wordIndex (snd (search query page perPage this)) = wordIndex this.
Proof.
  assert (H : forall q pp, snd (search q page pp this) = this).
  { intros q pp. rewrite search_eq. reflexivity. }
  rewrite H. repeat split.
  unfold searchFiles. destruct (trim query); [reflexivity|apply H].
Qed.

Lemma ceilDiv_bounds (n : Z) perPage :
  (ceilDiv n perPage - 1) * Z.pos perPage < n <= ceilDiv n perPage * Z.pos perPage.
Proof.
  unfold ceilDiv.
  pose proof (Z.div_mod (- n) (Z.pos perPage) ltac:(lia)) as Hdm.
  pose proof (Z.mod_pos_bound (- n) (Z.pos perPage) ltac:(lia)) as Hb.
  nia.
Qed.

Lemma ceilDiv_unique (n t : Z) perPage :
  (t - 1) * Z.pos perPage < n <= t * Z.pos perPage -> ceilDiv n perPage = t.
Proof. pose proof (ceilDiv_bounds n perPage). nia. Qed.

(** C8. The result of a [search] call that returns is the pagination of the
    ranked results: [total] is their number; [totalPages] is the least
    integer [t] with [total <= t * perPage], that is
    [ceil(total / perPage)]; the page is the requested one clamped into
    [[1, totalPages]], and [1] when there is no page; the results are the
    corresponding slice. [searchFiles] fixes the page size at 15. With no
    result, [totalPages = 0] and [page = 1] for any requested page; with 16
    results and page size 15, page 2 holds exactly one result and
    [totalPages = 2]. *)
Theorem search_pagination this query page perPage r :
  fst (search query page perPage this) = Normal r ->
  exists results,
    fst (ranked query this) = Normal results
    /\ SearchResult.total r = length results
    /\ (SearchResult.totalPages r - 1) * Z.pos perPage
         < Z.of_nat (SearchResult.total r)
         <= SearchResult.totalPages r * Z.pos perPage
    /\ SearchResult.page r
       = Z.max 1 (Z.min page (SearchResult.totalPages r))
    /\ (1 <= SearchResult.totalPages r ->
        1 <= SearchResult.page r <= SearchResult.totalPages r)
    /\ (1 <= page <= SearchResult.totalPages r -> SearchResult.page r = page)
    /\ SearchResult.results r
       = take (Pos.to_nat perPage)
           (drop (Z.to_nat ((SearchResult.page r - 1) * Z.pos perPage)) results)
    /\ (trim query ≠ [] ->
        searchFiles query page this = search (trim query) page 15 this)
    /\ (SearchResult.total r = 0%nat ->
        SearchResult.totalPages r = 0 /\ SearchResult.page r = 1
        /\ SearchResult.results r = [])
    /\ (SearchResult.total r = 16%nat -> perPage = 15%positive -> page = 2 ->
        SearchResult.totalPages r = 2 /\ length (SearchResult.results r) = 1%nat).
Proof.
  rewrite search_eq. simpl.
  destruct (fst (ranked query this)) as [results|]; simpl; [|discriminate].
  intros [= <-]. exists results. unfold paginate. simpl.
  pose proof (ceilDiv_bounds (Z.of_nat (length results)) perPage) as Hc.
  split; [reflexivity|]. split; [reflexivity|]. split; [exact Hc|].
  split; [reflexivity|]. split; [lia|]. split; [lia|]. split; [reflexivity|].
  split.
  { intros Hq. unfold searchFiles. destruct (trim query); [contradiction|reflexivity]. }
  split.
  - intros Hz. destruct results; [|discriminate].
    change (Z.of_nat (length (@nil Entry.t))) with 0.
    assert (ceilDiv 0 perPage = 0) as -> by (apply ceilDiv_unique; lia).
    split; [reflexivity|]. split; [lia|].
    rewrite drop_nil. destruct (Pos.to_nat perPage); reflexivity.
  - intros H16 -> ->. rewrite H16. change (ceilDiv (Z.of_nat 16) 15) with 2.
    split; [reflexivity|]. simpl.
    rewrite length_take, length_drop, H16. reflexivity.
Qed.

End SearchFacts.

(** ** Token mode *)

Section TokenMode.
Context {rt : JsRuntime}.
Implicit Types (this : FileIndex) (query : jsstring) (ms : list Matched.t).

Lemma insertByMatches_Permutation (a : Matched.t) ms :
  insertByMatches a ms ≡ₚ a :: ms.
Proof.
  induction ms as [|b ms IH]; simpl.
  - reflexivity.
  - destruct (decide (Matched.matches b <= Matched.matches a)%nat).
    + reflexivity.
    + rewrite IH. apply perm_swap.
Qed.

Lemma sortByMatches_Permutation ms : sortByMatches ms ≡ₚ ms.
Proof.
  unfold sortByMatches. induction ms as [|a ms IH]; simpl.
  - reflexivity.
  - rewrite insertByMatches_Permutation, IH. reflexivity.
Qed.

Lemma matchedAt_index query this (ords : list nat) ms :
  Forall2 (matchedAt query this) ords ms -> Matched.index <$> ms = ords.
Proof.
  induction 1 as [|i m ords ms (f & fd & _ & _ & ->) _ IH].
  - reflexivity.
  - rewrite fmap_cons, IH. reflexivity.
Qed.

Lemma isMultiCJK_false query :
  isMultiCJK query = false <-> (length (matchCJK query) <= 1)%nat.
Proof. unfold isMultiCJK. rewrite bool_decide_eq_false. lia. Qed.

(** C2. For a query with at most one CJK character, on a valid index: the
    search does not throw; the candidate ordinals are the union, over the
    tokens of the query, of the postings of the token, so that a document is
    a candidate as soon as it is posted under one token of the query; each
    candidate carries as match count the number of its lines that include
    the query; and every candidate, whatever its match count, has its entry
    in the ranked results, whose number is the [total] of the search. *)
Theorem token_mode_union this query :
  valid this -> (length (matchCJK query) <= 1)%nat ->
  exists ms,
    candidates query this = (Normal ms, this)
    /\ Matched.index <$> ms = unionPostings (wordIndex this) (tokenize query)
    /\ (forall i, i ∈ Matched.index <$> ms <->
                  exists tok, tok ∈ tokenize query /\ posted this tok i)
    /\ Forall (fun m => matchedAt query this (Matched.index m) m) ms
    /\ exists results,
         fst (ranked query this) = Normal results
         /\ length results = length ms
         /\ (forall m, m ∈ ms ->
               exists e, e ∈ results /\ Entry.path e = Matched.path m
                         /\ Entry.name e = Matched.name m)
         /\ forall page perPage r,
              fst (search query page perPage this) = Normal r ->
              SearchResult.total r = length ms.
Proof.
  intros Hv Hcjk%isMultiCJK_false.
  destruct (tokenScan_valid query this Hv) as (ms & Hscan & Hall).
  assert (Hcand : candidates query this = (Normal ms, this)).
  { unfold candidates, bind, get, lift. rewrite Hcjk, Hscan. reflexivity. }
  pose proof (matchedAt_index _ _ _ _ Hall) as Hidx.
  exists ms. split; [exact Hcand|]. split; [exact Hidx|]. split.
  { intros i. rewrite Hidx, elem_of_unionPostings.
    split; intros (tok & Htok & Hi); exists tok; (split; [exact Htok|]);
      apply posted_default, Hi. }
  split.
  { apply Forall_forall. intros m Hm. apply list_elem_of_lookup in Hm as (k & Hk).
    destruct (Forall2_lookup_r _ _ _ _ _ Hall Hk) as (i & _ & Hm).
    pose proof Hm as (f & fd & _ & _ & ->). exact Hm. }
  exists (extractHits query <$> sortByMatches ms).
  assert (Hr : fst (ranked query this)
               = Normal (extractHits query <$> sortByMatches ms)).
  { rewrite ranked_eq, Hcand. reflexivity. }
  split; [exact Hr|]. split.
  { rewrite length_fmap. apply Permutation_length, sortByMatches_Permutation. }
  split.
  - intros m Hm. exists (extractHits query m). split; [|split; reflexivity].
    apply list_elem_of_fmap_2. rewrite sortByMatches_Permutation. exact Hm.
  - intros page perPage r. rewrite search_eq, Hr. simpl. intros [= <-]. simpl.
    rewrite length_fmap. apply Permutation_length, sortByMatches_Permutation.
Qed.

End TokenMode.

(** ** Synchronisation *)

Lemma lookupMTime_None (filepath : jsstring) (table : MTimes) :
  lookupMTime filepath table = None <-> filepath ∉ table.*1.
Proof.
  induction table as [|[p mt] table IH]; simpl.
  - split; [intros _ []%elem_of_nil|reflexivity].
  - rewrite not_elem_of_cons. destruct (decide (p = filepath)) as [->|Hne].
    + split; [discriminate|]. intros [[] _]. reflexivity.
    + rewrite IH. split; [auto|tauto].
Qed.

Lemma lookupMTime_elem (filepath : jsstring) (mt : Z) (table : MTimes) :
  lookupMTime filepath table = Some mt -> (filepath, mt) ∈ table.
Proof.
  induction table as [|[p t] table IH]; simpl; [discriminate|].
  destruct (decide (p = filepath)) as [->|Hne].
  - intros [= ->]. apply list_elem_of_here.
  - intros H. apply list_elem_of_further, IH, H.
Qed.

Lemma lookupMTime_unique (filepath : jsstring) (mt : Z) (table : MTimes) :
  NoDup table.*1 -> (filepath, mt) ∈ table -> lookupMTime filepath table = Some mt.
Proof.
  induction table as [|[p t] table IH]; intros Hnd Hin.
  - apply elem_of_nil in Hin as [].
  - rewrite fmap_cons in Hnd. apply NoDup_cons in Hnd as [Hp Hnd]. simpl in *.
    apply elem_of_cons in Hin as [[= -> ->]|Hin].
    + rewrite decide_True; reflexivity.
    + rewrite decide_False; [apply IH; assumption|].
      intros ->. apply Hp. apply (list_elem_of_fmap_2 fst _ _ Hin).
Qed.

Section SyncFacts.
Context {rt : JsRuntime}.
Variable disk : jsstring -> option jsstring.
Implicit Types (w : Process) (this : FileIndex) (filepath p q : jsstring) (mt : Z).
Implicit Types (oldMTimes currentFiles : MTimes).

Lemma removeFile_files filepath this :
  valid this -> files (snd (removeFile filepath this)) = delete filepath (files this).
Proof.
  intros Hv. destruct (files this !! filepath) as [fileData|] eqn:Hp.
  - destruct (removeFile_present _ _ _ Hv Hp) as (i & f & w & _ & _ & -> & _).
    reflexivity.
  - rewrite removeFile_absent by exact Hp. simpl. symmetry.
    apply delete_id, Hp.
Qed.

Lemma reindex_step filepath mt w :
  valid (index w) ->
  exists w',
    tryCatch (reindex disk filepath mt) w = (Normal tt, w')
    /\ valid (index w')
    /\ reads w' = reads w ++ [filepath]
    /\ files (index w') = reindexed disk filepath mt (files (index w))
    /\ (fst (reindex disk filepath mt w) = Throw <-> disk filepath = None).
Proof.
  intros Hv. unfold tryCatch, reindex, reindexed, bind, get.
  set (m := if decide (is_Some (files (index w) !! filepath))
            then onIndex (removeFile filepath) else ret tt).
  assert (Hm : exists this1,
            m w = (Normal tt, {| index := this1; reads := reads w |})
            /\ valid this1 /\ files this1 = delete filepath (files (index w))).
  { unfold m. destruct (decide (is_Some (files (index w) !! filepath))) as [Hin|Hout].
    - pose proof (valid_removeFile filepath _ Hv) as [Hn Hv1].
      pose proof (removeFile_files filepath _ Hv) as Hfs.
      unfold onIndex. destruct (removeFile filepath (index w)) as [c this1].
      simpl in *. subst c. eauto.
    - exists (index w). split; [destruct w; reflexivity|]. split; [exact Hv|].
      symmetry. apply delete_id. destruct (files (index w) !! filepath); [|reflexivity].
      exfalso. apply Hout. eauto. }
  destruct Hm as (this1 & -> & Hv1 & Hfs1).
  unfold readFileSync. simpl. destruct (disk filepath) as [text|]; simpl.
  - eexists. split; [reflexivity|]. simpl. split; [|split; [reflexivity|]].
    + apply (valid_addFile filepath (basename filepath) text mt this1 Hv1).
      rewrite Hfs1. apply lookup_delete_eq.
    + rewrite Hfs1. split; [reflexivity|]. split; discriminate.
  - eexists. split; [reflexivity|]. simpl. split; [exact Hv1|].
    split; [reflexivity|]. split; [exact Hfs1|]. split; reflexivity.
Qed.

Lemma reindexed_other filepath mt (fs : Files) q :
  q ≠ filepath -> reindexed disk filepath mt fs !! q = fs !! q.
Proof.
  intros Hne. unfold reindexed. destruct (disk filepath).
  - rewrite lookup_insert_ne, lookup_delete_ne by congruence. reflexivity.
  - rewrite lookup_delete_ne by congruence. reflexivity.
Qed.

Lemma reindexed_same filepath mt (fs : Files) :
  reindexed disk filepath mt fs !! filepath
  = (fun text => FileData.mk (basename filepath) text mt) <$> disk filepath.
Proof.
  unfold reindexed. destruct (disk filepath); simpl.
  - apply lookup_insert_eq.
  - apply lookup_delete_eq.
Qed.

Lemma change_loop oldMTimes currentFiles w :
  valid (index w) -> NoDup currentFiles.*1 ->
  exists w',
    forEach (fun entry =>
        if changed oldMTimes (fst entry) (snd entry)
        then tryCatch (reindex disk (fst entry) (snd entry))
        else ret tt) currentFiles w
    = (Normal tt, w')
    /\ valid (index w')
    /\ reads w' = reads w
         ++ (List.filter (fun entry => changed oldMTimes (fst entry) (snd entry))
               currentFiles).*1
    /\ forall q, files (index w') !! q
                 = afterChanges disk oldMTimes currentFiles (files (index w)) q.
Proof.
  revert w. induction currentFiles as [|[p mt] rest IH]; intros w Hv Hnd.
  - exists w. simpl. rewrite app_nil_r. auto.
  - rewrite fmap_cons in Hnd. apply NoDup_cons in Hnd as [Hp Hnd]. simpl in Hp.
    simpl. unfold bind at 1.
    assert (Hstep : exists w1,
      (if changed oldMTimes p mt then tryCatch (reindex disk p mt) else ret tt) w
        = (Normal tt, w1)
      /\ valid (index w1)
      /\ reads w1 = reads w ++ (if changed oldMTimes p mt then [p] else [])
      /\ (forall q, q ≠ p -> files (index w1) !! q = files (index w) !! q)
      /\ files (index w1) !! p
         = if changed oldMTimes p mt
           then (fun text => FileData.mk (basename p) text mt) <$> disk p
           else files (index w) !! p).
    { destruct (changed oldMTimes p mt).
      - destruct (reindex_step p mt w Hv) as (w1 & Hrun & Hv1 & Hr & Hfs & _).
        exists w1. rewrite Hfs. split; [exact Hrun|]. split; [exact Hv1|].
        split; [exact Hr|]. split; [|apply reindexed_same].
        intros q Hq. apply reindexed_other, Hq.
      - exists w. rewrite app_nil_r. auto. }
    destruct Hstep as (w1 & -> & Hv1 & Hr1 & Hother & Hsame).
    destruct (IH w1 Hv1 Hnd) as (w' & Hrun & Hv' & Hr' & Hfs').
    exists w'. split; [exact Hrun|]. split; [exact Hv'|]. split.
    + rewrite Hr', Hr1, <- app_assoc. f_equal.
      destruct (changed oldMTimes p mt); reflexivity.
    + intros q. rewrite Hfs'. unfold afterChanges. simpl.
      destruct (decide (p = q)) as [<-|Hne].
      * apply lookupMTime_None in Hp. rewrite Hp. exact Hsame.
      * rewrite Hother by congruence. reflexivity.
Qed.

Lemma removal_loop currentFiles (ps : list jsstring) w :
  valid (index w) ->
  exists w',
    forEach (fun filepath =>
        if decide (filepath ∈ currentFiles.*1) then ret tt
        else onIndex (removeFile filepath)) ps w
    = (Normal tt, w')
    /\ valid (index w')
    /\ reads w' = reads w
    /\ forall q, files (index w') !! q
                 = if decide (q ∈ ps /\ q ∉ currentFiles.*1) then None
                   else files (index w) !! q.
Proof.
  revert w. induction ps as [|p ps IH]; intros w Hv.
  - exists w. simpl. split; [reflexivity|]. split; [exact Hv|]. split; [reflexivity|].
    intros q. reflexivity.
  - simpl. unfold bind at 1.
    assert (Hstep : exists w1,
      (if decide (p ∈ currentFiles.*1) then ret tt else onIndex (removeFile p)) w
        = (Normal tt, w1)
      /\ valid (index w1) /\ reads w1 = reads w
      /\ files (index w1)
         = if decide (p ∈ currentFiles.*1) then files (index w)
           else delete p (files (index w))).
    { destruct (decide (p ∈ currentFiles.*1)).
      - exists w. auto.
      - pose proof (valid_removeFile p _ Hv) as [Hn Hv1].
        pose proof (removeFile_files p _ Hv) as Hfs.
        unfold onIndex. destruct (removeFile p (index w)) as [c this1].
        simpl in *. subst c. eexists. split; [reflexivity|]. simpl. auto. }
    destruct Hstep as (w1 & -> & Hv1 & Hr1 & Hfs1).
    destruct (IH w1 Hv1) as (w' & Hrun & Hv' & Hr' & Hfs').
    exists w'. split; [exact Hrun|]. split; [exact Hv'|]. split; [congruence|].
    intros q. rewrite Hfs', Hfs1.
    destruct (decide (q ∈ ps /\ q ∉ currentFiles.*1)) as [[Hq Hout]|Hno].
    + rewrite decide_True; [reflexivity|]. split; [apply list_elem_of_further, Hq|exact Hout].
    + destruct (decide (p ∈ currentFiles.*1)) as [Hin|Hout].
      * rewrite decide_False; [reflexivity|].
        intros [[->|Hq]%elem_of_cons Hq']; [contradiction|tauto].
      * destruct (decide (q = p)) as [->|Hne].
        -- rewrite lookup_delete_eq, decide_True; [reflexivity|].
           split; [apply list_elem_of_here|exact Hout].
        -- rewrite lookup_delete_ne by congruence.
           rewrite decide_False; [reflexivity|].
           intros [[->|Hq]%elem_of_cons Hq']; [contradiction|tauto].
Qed.

Lemma valid_table this p :
  valid this ->
  (p ∈ FileInfo.path <$> filesList this <-> is_Some (files this !! p)).
Proof.
  intros Hv. rewrite <- elem_of_dom, (valid_dom _ Hv), elem_of_list_to_set. reflexivity.
Qed.

(** C4. The two synchronisation loops of [initializeIndex], run on a valid
    index with a table of current files, complete normally and leave a valid
    index. A path whose current time stamp equals the persisted one is not
    read, and its entry in the content map and its presence in the document
    table are as before. A path that is new or whose time stamp differs is
    read, and, once read, is in the index with the base name of the path,
    the content just read and the new time stamp. A path of the persisted
    table that the current table lacks is in the index no more. *)
Theorem delta_sync oldMTimes currentFiles w :
  valid (index w) -> NoDup currentFiles.*1 ->
  exists w' rs,
    initializeIndex_sync disk oldMTimes currentFiles w = (Normal tt, w')
    /\ valid (index w')
    /\ reads w' = reads w ++ rs
    /\ (forall p mt,
          lookupMTime p currentFiles = Some mt ->
          lookupMTime p oldMTimes = Some mt ->
          (p ∉ rs)
          /\ files (index w') !! p = files (index w) !! p
          /\ (p ∈ FileInfo.path <$> filesList (index w')
              <-> p ∈ FileInfo.path <$> filesList (index w)))
    /\ (forall p mt,
          lookupMTime p currentFiles = Some mt ->
          lookupMTime p oldMTimes ≠ Some mt ->
          p ∈ rs
          /\ forall text, disk p = Some text ->
                files (index w') !! p = Some (FileData.mk (basename p) text mt)
                /\ p ∈ FileInfo.path <$> filesList (index w'))
    /\ (forall p,
          p ∈ oldMTimes.*1 -> p ∉ currentFiles.*1 ->
          files (index w') !! p = None
          /\ p ∉ FileInfo.path <$> filesList (index w')).
Proof.
  intros Hv Hnd. unfold initializeIndex_sync, removeDeleted, bind.
  destruct (change_loop oldMTimes currentFiles w Hv Hnd) as (w1 & -> & Hv1 & Hr1 & Hfs1).
  destruct (removal_loop currentFiles (oldMTimes.*1) w1 Hv1) as (w' & -> & Hv' & Hr' & Hfs').
  eexists w', _. split; [reflexivity|]. split; [exact Hv'|].
  split; [rewrite Hr'; exact Hr1|].
  assert (Hcur : forall p mt, lookupMTime p currentFiles = Some mt ->
            files (index w') !! p
            = if changed oldMTimes p mt
              then (fun text => FileData.mk (basename p) text mt) <$> disk p
              else files (index w) !! p).
  { intros p mt Hp. rewrite Hfs', decide_False.
    - rewrite Hfs1. unfold afterChanges. rewrite Hp. reflexivity.
    - intros [_ Hout]. apply lookupMTime_None in Hout. congruence. }
  split; [|split].
  - intros p mt Hp Hold. specialize (Hcur p mt Hp).
    assert (Hch : changed oldMTimes p mt = false).
    { apply bool_decide_eq_false. intros Hne. apply Hne, Hold. }
    rewrite Hch in Hcur. split; [|split; [exact Hcur|]].
    + intros ([q t] & -> & Hin)%list_elem_of_fmap. simpl in *.
      apply list_elem_of_In, filter_In in Hin as [Hin Hq]. simpl in Hq.
      apply list_elem_of_In, (lookupMTime_unique _ _ _ Hnd) in Hin.
      assert (t = mt) as -> by congruence. congruence.
    + rewrite !valid_table, Hcur by assumption. reflexivity.
  - intros p mt Hp Hold. specialize (Hcur p mt Hp).
    assert (Hch : changed oldMTimes p mt = true).
    { apply bool_decide_eq_true. exact Hold. }
    rewrite Hch in Hcur. split.
    + apply list_elem_of_fmap. exists (p, mt). split; [reflexivity|].
      apply list_elem_of_In, filter_In. split; [|exact Hch].
      apply list_elem_of_In, lookupMTime_elem, Hp.
    + intros text Htext. rewrite Htext in Hcur. simpl in Hcur.
      split; [exact Hcur|]. apply valid_table; [exact Hv'|]. rewrite Hcur. eauto.
  - intros p Hold Hout.
    assert (Hnone : files (index w') !! p = None).
    { rewrite Hfs', decide_True; [reflexivity|]. split; assumption. }
    split; [exact Hnone|]. rewrite valid_table, Hnone by exact Hv'.
    intros [? [=]].
Qed.

End SyncFacts.

(** ** Phrase mode *)

Section Substrings.
Implicit Types (q s line pre post : jsstring) (i j pos fuel count : nat).

Lemma isPrefixOf_spec q s : isPrefixOf q s = true <-> exists post, s = q ++ post.
Proof.
  revert s. induction q as [|a q IH]; intros s; simpl.
  - split; [eauto|reflexivity].
  - destruct s as [|b s].
    + split; [discriminate|]. intros (post & [=]).
    + rewrite andb_true_iff, bool_decide_eq_true, IH. split.
      * intros [-> (post & ->)]. eauto.
      * intros (post & [= -> ->]). eauto.
Qed.

Lemma indexOfFrom_unfold q s i :
  indexOfFrom q s i
  = if isPrefixOf q s then Some i
    else match s with
         | [] => None
         | _ :: s' => indexOfFrom q s' (S i)
         end.
Proof. destruct s; reflexivity. Qed.

Lemma indexOfFrom_Some q s i j :
  indexOfFrom q s i = Some j ->
  exists pre post,
    s = pre ++ q ++ post /\ j = (i + length pre)%nat /\ leftmost q pre post.
Proof.
  revert i. induction s as [|c s IH]; intros i; rewrite indexOfFrom_unfold.
  - destruct (isPrefixOf q []) eqn:Hpre; [|discriminate].
    intros [= <-]. apply isPrefixOf_spec in Hpre as (post & Hs).
    exists [], post. split; [exact Hs|]. split; [simpl; lia|].
    intros pre' post' _. simpl. lia.
  - destruct (isPrefixOf q (c :: s)) eqn:Hpre.
    + intros [= <-]. apply isPrefixOf_spec in Hpre as (post & Hs).
      exists [], post. split; [exact Hs|]. split; [simpl; lia|].
      intros pre' post' _. simpl. lia.
    + intros (pre & post & -> & -> & Hleft)%IH.
      exists (c :: pre), post. split; [reflexivity|]. split; [simpl; lia|].
      intros pre' post' Heq. destruct pre' as [|c' pre'].
      * exfalso. assert (isPrefixOf q (c :: pre ++ q ++ post) = true) as Hyes.
        { apply isPrefixOf_spec. exists post'. exact Heq. }
        congruence.
      * injection Heq as _ Heq. apply Hleft in Heq. simpl. lia.
Qed.

Lemma indexOfFrom_None q s i : indexOfFrom q s i = None -> ~ occursIn q s.
Proof.
  revert i. induction s as [|c s IH]; intros i; rewrite indexOfFrom_unfold.
  - destruct (isPrefixOf q []) eqn:Hpre; [discriminate|]. intros _ (pre & post & Heq).
    destruct pre; [|discriminate].
    assert (isPrefixOf q [] = true) by (apply isPrefixOf_spec; eauto). congruence.
  - destruct (isPrefixOf q (c :: s)) eqn:Hpre; [discriminate|].
    intros Hnone%IH (pre & post & Heq). destruct pre as [|c' pre].
    + assert (isPrefixOf q (c :: s) = true) by (apply isPrefixOf_spec; eauto).
      congruence.
    + injection Heq as _ Heq. apply Hnone. exists pre, post. exact Heq.
Qed.

Lemma indexOf_drop q line pos :
  (pos <= length line)%nat ->
  indexOf q line pos = indexOfFrom q (drop pos line) pos.
Proof. intros Hle. unfold indexOf. rewrite Nat.min_l by exact Hle. reflexivity. Qed.

(** [includes] decides [occursIn]. *)
Lemma includes_spec q line : includes q line = true <-> occursIn q line.
Proof.
  unfold includes. rewrite bool_decide_eq_true, indexOf_drop by lia.
  rewrite drop_0. split.
  - intros [j (pre & post & -> & _)%indexOfFrom_Some]. exists pre, post. reflexivity.
  - intros Hocc. destruct (indexOfFrom q line 0) eqn:Hi; [eauto|].
    apply indexOfFrom_None in Hi. contradiction.
Qed.

(** The counting loop ends within the fuel it is given: more fuel changes
    nothing. *)
Lemma countFrom_fuel q line fuel fuel' pos count :
  q ≠ [] -> (pos <= length line)%nat ->
  (length line - pos < fuel)%nat -> (length line - pos < fuel')%nat ->
  countFrom fuel q line pos count = countFrom fuel' q line pos count.
Proof.
  intros Hq. revert fuel' pos count.
  induction fuel as [|fuel IH]; intros fuel' pos count Hpos Hf Hf'; [lia|].
  destruct fuel' as [|fuel']; [lia|]. simpl.
  rewrite indexOf_drop by exact Hpos.
  destruct (indexOfFrom q (drop pos line) pos) as [j|] eqn:Hj; [|reflexivity].
  apply indexOfFrom_Some in Hj as (pre & post & Hdrop & -> & _).
  assert (Hlen : (length line - pos = length pre + length q + length post)%nat).
  { rewrite <- length_drop, Hdrop, !length_app. lia. }
  assert (0 < length q)%nat by (destruct q; [congruence|simpl; lia]).
  apply IH; lia.
Qed.

Lemma countFrom_occurrences q line fuel pos count :
  q ≠ [] -> (pos <= length line)%nat -> (length line - pos < fuel)%nat ->
  exists n,
    countFrom fuel q line pos count = (count + n)%nat
    /\ occurrences q (drop pos line) n.
Proof.
  intros Hq. revert pos count.
  induction fuel as [|fuel IH]; intros pos count Hpos Hf; [lia|]. simpl.
  rewrite indexOf_drop by exact Hpos.
  destruct (indexOfFrom q (drop pos line) pos) as [j|] eqn:Hj.
  - apply indexOfFrom_Some in Hj as (pre & post & Hdrop & -> & Hleft).
    assert (Hlen : (length line - pos = length pre + length q + length post)%nat).
    { rewrite <- length_drop, Hdrop, !length_app. lia. }
    assert (0 < length q)%nat by (destruct q; [congruence|simpl; lia]).
    assert (Hpos' : (pos + length pre + length q <= length line)%nat) by lia.
    assert (Hf' : (length line - (pos + length pre + length q) < fuel)%nat) by lia.
    destruct (IH _ (S count) Hpos' Hf') as (n & Hn & Hocc).
    exists (S n). split; [rewrite Hn; lia|]. rewrite Hdrop.
    apply occurrences_next; [exact Hleft|].
    replace post with (drop (pos + length pre + length q) line); [exact Hocc|].
    rewrite <- Nat.add_assoc, <- drop_drop, Hdrop, app_assoc.
    rewrite <- length_app. apply drop_app_length.
  - exists 0%nat. split; [lia|]. apply occurrences_none.
    eapply indexOfFrom_None, Hj.
Qed.

Lemma countInLine_occurrences q line :
  q ≠ [] -> occurrences q line (countInLine q line).
Proof.
  intros Hq. unfold countInLine.
  destruct (countFrom_occurrences q line (S (length line)) 0 0 Hq) as (n & -> & Hocc);
    [lia..|].
  rewrite drop_0 in Hocc. exact Hocc.
Qed.

Lemma countInLine_pos q line :
  q ≠ [] -> (0 < countInLine q line)%nat <-> occursIn q line.
Proof.
  intros Hq. pose proof (countInLine_occurrences q line Hq) as Hocc.
  inversion Hocc as [s Hno Hs Hn|pre post n Hleft Hrest Hs Hn].
  - split; [lia|contradiction].
  - split; [|lia]. intros _. exists pre, post. reflexivity.
Qed.

Lemma countPhrase_sum q (text : jsstring) :
  countPhrase q text = sum_list (countInLine q <$> lines text).
Proof.
  unfold countPhrase.
  enough (H : forall (ls : list jsstring) a,
            foldl (fun count line => (count + countInLine q line)%nat) a ls
            = (a + sum_list (countInLine q <$> ls))%nat) by apply H.
  induction ls as [|l ls IH]; intros a.
  - simpl. lia.
  - rewrite fmap_cons.
    change (sum_list (countInLine q l :: (countInLine q <$> ls)))
      with (countInLine q l + sum_list (countInLine q <$> ls))%nat.
    simpl foldl. rewrite IH. lia.
Qed.

Lemma sum_list_fmap_pos {A} (f : A -> nat) (ls : list A) :
  (0 < sum_list (f <$> ls))%nat <-> exists x, x ∈ ls /\ (0 < f x)%nat.
Proof.
  induction ls as [|l ls IH].
  - simpl. split; [lia|]. intros (x & []%elem_of_nil & _).
  - rewrite fmap_cons.
    change (sum_list (f l :: (f <$> ls))) with (f l + sum_list (f <$> ls))%nat.
    split.
    + intros Hpos. destruct (decide (0 < f l)%nat) as [Hl|Hl].
      * exists l. split; [apply list_elem_of_here|exact Hl].
      * destruct IH as [IH _]. destruct IH as (x & Hin & Hx); [lia|].
        exists x. split; [apply list_elem_of_further, Hin|exact Hx].
    + intros (x & [->|Hin]%elem_of_cons & Hx); [lia|].
      destruct IH as [_ IH]. pose proof (IH (ex_intro _ x (conj Hin Hx))). lia.
Qed.

Lemma countPhrase_pos q (text : jsstring) :
  q ≠ [] ->
  (0 < countPhrase q text)%nat
  <-> exists line, line ∈ lines text /\ occursIn q line.
Proof.
  intros Hq. rewrite countPhrase_sum, sum_list_fmap_pos.
  split; intros (line & Hin & H); exists line; (split; [exact Hin|]);
    apply (countInLine_pos q line Hq), H.
Qed.

End Substrings.

Section PhraseMode.
Context {rt : JsRuntime}.
Implicit Types (this : FileIndex) (query : jsstring) (ms : list Matched.t).

Lemma multiCJK_nonempty query : (2 <= length (matchCJK query))%nat -> query ≠ [].
Proof. intros Hlen ->. simpl in Hlen. lia. Qed.

(** Phrase mode, for a query with two or more code units of the character
    class of [cjkRegex] (Han, Hiragana, Hangul), on a valid index: the
    search does not throw and looks at every document of the table; the
    candidates are exactly the documents whose count is positive, each with
    that count as its match count; the count of a document is the sum over
    the lines of its content of the number of non-overlapping occurrences of
    the query in the line, taken from left to right; and the count is
    positive exactly when the query occurs as a contiguous run within one
    line. *)
Theorem phrase_mode_exact this query :
  valid this -> (2 <= length (matchCJK query))%nat ->
  exists ms,
    candidates query this = (Normal ms, this)
    /\ (forall m, m ∈ ms <->
                  exists i, phraseAt query (files this) (filesList this) i m)
    /\ (forall i f fileData,
          filesList this !! i = Some f ->
          files this !! FileInfo.path f = Some fileData ->
          (FileInfo.path f ∈ Matched.path <$> ms
           <-> (0 < countPhrase query (FileData.content fileData))%nat))
    /\ (forall text : jsstring,
          countPhrase query text = sum_list (countInLine query <$> lines text))
    /\ (forall line, occurrences query line (countInLine query line))
    /\ (forall text : jsstring,
          (0 < countPhrase query text)%nat
          <-> exists line, line ∈ lines text /\ occursIn query line).
Proof.
  intros Hv Hcjk. pose proof (multiCJK_nonempty query Hcjk) as Hq.
  destruct (phraseScan_valid query this Hv) as (ms & Hscan & Hms).
  exists ms. split.
  { unfold candidates, bind, get, lift, isMultiCJK.
    rewrite bool_decide_true by lia. rewrite Hscan. reflexivity. }
  split; [exact Hms|]. split.
  { intros i f fd Hi Hfd. split.
    - intros (m & Hpath & (i' & f' & fd' & Hi' & Hfd' & Hpos & ->)%Hms)%list_elem_of_fmap.
      simpl in Hpath.
      assert (i' = i) as ->.
      { eapply NoDup_lookup; [apply (valid_paths _ Hv)| |].
        - rewrite list_lookup_fmap, Hi'. simpl. rewrite <- Hpath. reflexivity.
        - rewrite list_lookup_fmap, Hi. reflexivity. }
      assert (f' = f) as -> by congruence.
      assert (fd' = fd) as -> by congruence. exact Hpos.
    - intros Hpos. apply list_elem_of_fmap.
      exists (Matched.mk i (FileInfo.path f) (FileInfo.name f)
                (FileData.content fd) (countPhrase query (FileData.content fd))).
      split; [reflexivity|]. apply Hms. exists i, f, fd. auto. }
  split; [intros text; apply countPhrase_sum|].
  split; [intros line; apply countInLine_occurrences, Hq|].
  intros text. apply countPhrase_pos, Hq.
Qed.

End PhraseMode.

(** ** The tokenizer *)

Section TokenizerFacts.
Context {rt : JsRuntime}.

Lemma elem_of_matchCJK (text tok : jsstring) :
  tok ∈ matchCJK text <-> exists c, c ∈ text /\ isCJK c = true /\ tok = [c].
Proof.
  unfold matchCJK. rewrite list_elem_of_fmap. split.
  - intros (c & -> & Hc). apply list_elem_of_In, filter_In in Hc as [Hc Hcjk].
    exists c. rewrite list_elem_of_In. auto.
  - intros (c & Hc & Hcjk & ->). exists c. split; [reflexivity|].
    apply list_elem_of_In, filter_In. rewrite <- list_elem_of_In. auto.
Qed.

(** The tokens of a text: its code units of the three CJK ranges, one by
    one, and the runs of word characters of its lower-cased form; without
    duplicates. *)
Lemma tokenize_tokens (text : jsstring) :
  NoDup (tokenize text)
  /\ forall tok,
       tok ∈ tokenize text
       <-> (exists c, c ∈ text /\ isCJK c = true /\ tok = [c])
           \/ tok ∈ matchWords (toLowerCase text).
Proof.
  unfold tokenize. split.
  - apply NoDup_addAll, NoDup_addAll, NoDup_nil_2.
  - intros tok. rewrite !elem_of_addAll, elem_of_matchCJK, elem_of_nil. tauto.
Qed.

End TokenizerFacts.

(** * Concrete instances *)

(** C3. A Katakana character is outside the character class of the
    tokenizer: [tokenize] gives no token for it, a document made of Katakana
    is posted under no token, and a Katakana query, which is handled in token
    mode, has no candidate in a corpus that holds the query verbatim. *)
Theorem katakana_not_tokenized :
  isCJK 0x30A2 = false
  /\ tokenize (rt := posixHost) [0x30A2] = []
  /\ tokenize (rt := posixHost) Corpus.katakana = []
  /\ wordIndex Corpus.katakanaCorpus = ∅
  /\ isMultiCJK Corpus.katakana = false
  /\ fst (candidates (rt := posixHost) Corpus.katakana Corpus.katakanaCorpus)
     = Normal [].
Proof. repeat split. Qed.

(** C1. A query of CJK characters that are Katakana is not run in phrase
    mode. The query of four Katakana characters is handled in token mode
    and has no candidate in the corpus whose only document is that very
    run on one line, whose phrase count is 1. The query of two Katakana
    characters followed by a Han character is handled in token mode as well
    and has both documents of a corpus as candidates, although neither
    holds the query: their phrase count is 0. *)
Theorem katakana_query_not_in_phrase_mode :
  Forall (fun c => 0x30A0 <= c <= 0x30FF) Corpus.katakana
  /\ isMultiCJK Corpus.katakana = false
  /\ (FileData.content <$> files Corpus.katakanaCorpus !! Corpus.aPath)
     = Some Corpus.katakana
  /\ lines Corpus.katakana = [Corpus.katakana]
  /\ countPhrase Corpus.katakana Corpus.katakana = 1%nat
  /\ candidatePaths (rt := posixHost) Corpus.katakana Corpus.katakanaCorpus
     = Normal []
  /\ isMultiCJK Corpus.katakanaHan = false
  /\ candidatePaths (rt := posixHost) Corpus.katakanaHan Corpus.contiguousScattered
     = Normal [Corpus.xPath; Corpus.yPath]
  /\ map_Forall (fun _ fileData =>
                   countPhrase Corpus.katakanaHan (FileData.content fileData) = 0%nat)
       (files Corpus.contiguousScattered).
Proof.
  split.
  { repeat constructor; vm_compute; discriminate. }
  split; [reflexivity|]. split; [reflexivity|]. split; [reflexivity|].
  split; [reflexivity|]. split; [reflexivity|]. split; [reflexivity|].
  split; [reflexivity|].
  apply (bool_decide_unpack _). vm_compute. exact I.
Qed.

(** C9. With a.md unreadable and b.md readable, both new, the scan of
    [rebuildIndexCache] stops at a.md: b.md is never read and never indexed.
    The loop of [initializeIndex] on the same input goes on and indexes
    b.md. In either scan a held file whose time stamp has changed and that
    cannot be read any more is taken out of the index. *)
Theorem rebuild_scan_stops_at_unreadable_file :
  let start := {| index := newFileIndex; reads := [] |} in
  let scheduled :=
    snd (rebuildIndexCache (rt := posixHost) Corpus.unreadableA []
           Corpus.freshScan start) in
  let startup :=
    snd (initializeIndex_sync (rt := posixHost) Corpus.unreadableA []
           Corpus.freshScan start) in
  let touched :=
    snd (initializeIndex_sync (rt := posixHost) Corpus.unreadableA
           Corpus.cachedMTimes Corpus.touchedA Corpus.cached) in
  reads scheduled = [Corpus.aPath]
  /\ files (index scheduled) !! Corpus.bPath = None
  /\ filesList (index scheduled) = []
  /\ reads startup = [Corpus.aPath; Corpus.bPath]
  /\ files (index startup) !! Corpus.bPath
     = Some (FileData.mk (js "b.md") (js "text") 2)
  /\ FileInfo.path <$> filesList (index startup) = [Corpus.bPath]
  /\ is_Some (files (index Corpus.cached) !! Corpus.aPath)
  /\ files (index touched) !! Corpus.aPath = None
  /\ FileInfo.path <$> filesList (index touched) = [Corpus.bPath].
Proof. vm_compute. repeat split. eauto. Qed.

Lemma valid_alphaBeta : valid (rt := posixHost) Corpus.alphaBeta.
Proof. apply validb_valid. vm_compute. reflexivity. Defined.

Lemma phrase_mode_exact_witness :
  valid (rt := posixHost) Corpus.contiguousScattered
  /\ (2 <= length (matchCJK Corpus.phrase))%nat
  /\ exists ms,
       candidates (rt := posixHost) Corpus.phrase Corpus.contiguousScattered
       = (Normal ms, Corpus.contiguousScattered)
       /\ Matched.path <$> ms = [Corpus.xPath]
       /\ Corpus.yPath ∉ Matched.path <$> ms.
Proof.
  assert (Hv : valid (rt := posixHost) Corpus.contiguousScattered).
  { apply validb_valid. vm_compute. reflexivity. }
  assert (Hlen : (2 <= length (matchCJK Corpus.phrase))%nat).
  { vm_compute. lia. }
  split; [exact Hv|]. split; [exact Hlen|].
  destruct (phrase_mode_exact (rt := posixHost) _ _ Hv Hlen) as (ms & Hc & _).
  exists ms. split; [exact Hc|].
  vm_compute in Hc. injection Hc as <-. split; [reflexivity|].
  vm_compute. intros H. inversion H as [|? ? ? H']; subst. inversion H'.
Defined.

Lemma token_mode_union_witness :
  valid (rt := posixHost) Corpus.alphaBeta
  /\ (length (matchCJK (js "alpha beta")) <= 1)%nat
  /\ exists ms,
       candidates (rt := posixHost) (js "alpha beta") Corpus.alphaBeta
       = (Normal ms, Corpus.alphaBeta)
       /\ Matched.path <$> ms = [Corpus.aPath; Corpus.bPath]
       /\ Matched.matches <$> ms = [0%nat; 0%nat]
       /\ exists results,
            fst (ranked (rt := posixHost) (js "alpha beta") Corpus.alphaBeta)
            = Normal results
            /\ Entry.path <$> results = [Corpus.aPath; Corpus.bPath].
Proof.
  assert (Hlen : (length (matchCJK (js "alpha beta")) <= 1)%nat).
  { vm_compute. lia. }
  split; [exact valid_alphaBeta|]. split; [exact Hlen|].
  destruct (token_mode_union (rt := posixHost) _ _ valid_alphaBeta Hlen)
    as (ms & Hc & _ & _ & _ & results & Hr & _).
  exists ms. split; [exact Hc|].
  vm_compute in Hc. injection Hc as <-.
  split; [reflexivity|]. split; [reflexivity|].
  exists results. split; [exact Hr|].
  vm_compute in Hr. injection Hr as <-. reflexivity.
Defined.

Lemma removeFile_removes_document_witness :
  valid (rt := posixHost) Corpus.alphaBeta
  /\ is_Some (files Corpus.alphaBeta !! Corpus.aPath)
  /\ fst (removeFile (rt := posixHost) Corpus.aPath Corpus.alphaBeta) = Normal tt
  /\ FileInfo.path
       <$> filesList (snd (removeFile (rt := posixHost) Corpus.aPath Corpus.alphaBeta))
     = [Corpus.bPath]
  /\ posted (snd (removeFile (rt := posixHost) Corpus.aPath Corpus.alphaBeta))
       (js "beta") 0
  /\ candidatePaths (rt := posixHost) (js "beta")
       (snd (removeFile (rt := posixHost) Corpus.aPath Corpus.alphaBeta))
     = Normal [Corpus.bPath]
  /\ forall query, exists ps,
       candidatePaths (rt := posixHost) query
         (snd (removeFile (rt := posixHost) Corpus.aPath Corpus.alphaBeta))
       = Normal ps
       /\ Corpus.aPath ∉ ps.
Proof.
  assert (Hin : is_Some (files Corpus.alphaBeta !! Corpus.aPath)).
  { vm_compute. eauto. }
  split; [exact valid_alphaBeta|]. split; [exact Hin|].
  destruct (removeFile_removes_document (rt := posixHost) Corpus.alphaBeta
              Corpus.aPath valid_alphaBeta) as [_ Hpresent].
  destruct (Hpresent Hin) as (Hn & _ & _ & _ & _ & _ & Hiff & _ & Hq).
  split; [exact Hn|]. split; [reflexivity|]. split.
  { apply Hiff.
    exists (FileInfo.mk Corpus.bPath (js "b.md")),
           (FileData.mk (js "b.md") (js "beta") 2).
    split; [reflexivity|]. split; [reflexivity|].
    apply (bool_decide_unpack _). vm_compute. exact I. }
  split; [reflexivity|]. exact Hq.
Defined.

Lemma postings_match_table_positions_witness :
  freshAdds (rt := posixHost) Corpus.addAddRemove newFileIndex = true
  /\ fst (runOps (rt := posixHost) Corpus.addAddRemove newFileIndex) = Normal tt
  /\ FileInfo.path
       <$> filesList (snd (runOps (rt := posixHost) Corpus.addAddRemove newFileIndex))
     = [Corpus.bPath]
  /\ postingsSound (rt := posixHost)
       (snd (runOps (rt := posixHost) Corpus.addAddRemove newFileIndex)).
Proof.
  assert (Hfresh : freshAdds (rt := posixHost) Corpus.addAddRemove newFileIndex = true).
  { vm_compute. reflexivity. }
  split; [exact Hfresh|].
  destruct (postings_match_table_positions (rt := posixHost) _ Hfresh)
    as (Hn & _ & _ & Hiff & _).
  split; [exact Hn|]. split; [reflexivity|].
  intros tok i Hp. apply Hiff, Hp.
Defined.

(** C6, as stated, fails: after [addFile] of one path twice, with contents
    "alpha" and then "beta", ordinal 0 is posted under "alpha", while the
    document at table position 0 is the one of that path, whose content is
    now "beta". *)
Lemma duplicate_adds_break_postings :
  ~ postingsSound (rt := posixHost)
      (snd (runOps (rt := posixHost) Corpus.duplicateAdds newFileIndex)).
Proof.
  intros Hsound.
  destruct (Hsound (js "alpha") 0%nat) as (f & fd & Hf & Hfd & Htok).
  { exists [0%nat]. split; [reflexivity|apply list_elem_of_here]. }
  vm_compute in Hf. injection Hf as <-.
  vm_compute in Hfd. injection Hfd as <-.
  vm_compute in Htok.
  inversion Htok as [|? ? ? H']; subst. inversion H'.
Qed.

Lemma deserialize_serialize_witness :
  valid (rt := posixHost) Corpus.alphaBeta
  /\ exists data,
       serialize Corpus.alphaBeta = (Normal data, Corpus.alphaBeta)
       /\ fst (deserialize (rt := posixHost) data newFileIndex) = Normal tt
       /\ files (snd (deserialize (rt := posixHost) data newFileIndex))
          = files Corpus.alphaBeta
       /\ filesList (snd (deserialize (rt := posixHost) data newFileIndex))
          = filesList Corpus.alphaBeta.
Proof.
  split; [exact valid_alphaBeta|].
  destruct (deserialize_serialize (rt := posixHost) Corpus.alphaBeta newFileIndex
              valid_alphaBeta) as (data & Hs & Hn & Hl & Hf & _).
  exists data. auto.
Defined.

Lemma search_pagination_witness :
  exists r,
    fst (search (rt := posixHost) (js "x") 2 15 Corpus.sixteen) = Normal r
    /\ SearchResult.total r = 16%nat
    /\ SearchResult.totalPages r = 2
    /\ SearchResult.page r = 2
    /\ length (SearchResult.results r) = 1%nat.
Proof.
  destruct (fst (search (rt := posixHost) (js "x") 2 15 Corpus.sixteen))
    as [r|] eqn:Hs.
  - exists r. split; [reflexivity|].
    destruct (search_pagination (rt := posixHost) _ _ _ _ _ Hs)
      as (results & _ & _ & _ & _ & _ & Hp & _ & _ & _ & H16).
    assert (Ht : SearchResult.total r = 16%nat).
    { vm_compute in Hs. injection Hs as <-. reflexivity. }
    destruct (H16 Ht eq_refl eq_refl) as [Htp Hlen].
    split; [exact Ht|]. split; [exact Htp|]. split; [|exact Hlen].
    apply Hp. lia.
  - vm_compute in Hs. discriminate.
Defined.

Lemma delta_sync_witness :
  valid (rt := posixHost) (index Corpus.cached)
  /\ NoDup Corpus.scanned.*1
  /\ exists w',
       initializeIndex_sync (rt := posixHost) Corpus.diskABC
         Corpus.cachedMTimes Corpus.scanned Corpus.cached
       = (Normal tt, w')
       /\ FileInfo.path <$> filesList (index w') = [Corpus.aPath; Corpus.cPath]
       /\ files (index w') !! Corpus.aPath
          = Some (FileData.mk (js "a.md") (js "old a") 1)
       /\ files (index w') !! Corpus.bPath = None
       /\ files (index w') !! Corpus.cPath
          = Some (FileData.mk (js "c.md") (js "fresh c") 3)
       /\ reads w' = [Corpus.cPath].
Proof.
  assert (Hv : valid (rt := posixHost) (index Corpus.cached)).
  { apply validb_valid. vm_compute. reflexivity. }
  assert (Hnd : NoDup Corpus.scanned.*1).
  { apply (bool_decide_unpack _). vm_compute. exact I. }
  split; [exact Hv|]. split; [exact Hnd|].
  destruct (delta_sync (rt := posixHost) Corpus.diskABC Corpus.cachedMTimes
              Corpus.scanned Corpus.cached Hv Hnd) as (w' & rs & Hrun & _).
  exists w'. split; [exact Hrun|].
  vm_compute in Hrun. injection Hrun as <-. repeat split.
Defined.

(** * Further properties of the code *)

(** ** Word tokens *)

Section WordRuns.
Implicit Types (s w cur r pre post : jsstring) (c : Z).

Lemma last_cons_cons {A} (x y : A) (l : list A) : last (x :: y :: l) = last (y :: l).
Proof. reflexivity. Qed.

Lemma elem_of_flushRun cur w : w ∈ flushRun cur <-> cur ≠ [] /\ w = reverse cur.
Proof.
  destruct cur as [|c cur]; simpl.
  - rewrite elem_of_nil. split; [intros []|intros [H _]; congruence].
  - rewrite list_elem_of_singleton. split; [intros ->; split; [discriminate|reflexivity]|].
    intros [_ ->]. reflexivity.
Qed.

(** The runs found from a state of the scanner: the run in progress,
    extended as far as word characters go, and the runs that start later. *)
Lemma elem_of_scanWords s cur w :
  w ∈ scanWords cur s
  <-> (exists x post,
         s = x ++ post /\ w = reverse cur ++ x /\ w ≠ []
         /\ Forall (fun c => isWordChar c = true) x
         /\ (forall c, head post = Some c -> isWordChar c = false))
      \/ (exists pre post,
            s = pre ++ w ++ post /\ pre ≠ [] /\ w ≠ []
            /\ Forall (fun c => isWordChar c = true) w
            /\ (forall c, last pre = Some c -> isWordChar c = false)
            /\ (forall c, head post = Some c -> isWordChar c = false)).
Proof.
  assert (Hrev : forall cur, reverse cur = [] -> cur = []).
  { intros cur0 H. apply (f_equal reverse) in H.
    rewrite reverse_involutive in H. exact H. }
  revert cur. induction s as [|c s IH]; intros cur; simpl.
  - rewrite elem_of_flushRun. split.
    + intros [Hcur ->]. left. exists [], []. rewrite !app_nil_r.
      split_and!; [reflexivity|reflexivity|auto|constructor|discriminate].
    + intros [(x & post & Hs & -> & Hne & _)|(pre & post & Hs & Hpre & _)].
      * symmetry in Hs. apply app_eq_nil in Hs as [-> ->]. rewrite ?app_nil_r in *.
        split; [|reflexivity]. intros ->. apply Hne. reflexivity.
      * destruct pre; [congruence|discriminate].
  - destruct (isWordChar c) eqn:Hc.
    + rewrite IH. rewrite reverse_cons. split.
      * intros [(x & post & -> & -> & Hne & Hx & Hpost)
               |(pre & post & -> & Hpre & Hne & Hw & Hl & Hpost)].
        -- left. exists (c :: x), post. rewrite <- app_assoc in *.
           split_and!; [reflexivity|reflexivity|exact Hne
                       |constructor; assumption|exact Hpost].
        -- right. exists (c :: pre), post.
           split_and!; [reflexivity|discriminate|exact Hne|exact Hw| |exact Hpost].
           destruct pre as [|p pre]; [congruence|]. rewrite last_cons_cons. exact Hl.
      * intros [(x & post & Hs & -> & Hne & Hx & Hpost)
               |(pre & post & Hs & Hpre & Hne & Hw & Hl & Hpost)].
        -- destruct x as [|c' x].
           { simpl in Hs. subst post. specialize (Hpost c eq_refl). congruence. }
           injection Hs as -> ->. apply Forall_cons in Hx as [_ Hx].
           left. exists x, post. rewrite <- !app_assoc.
           split_and!; [reflexivity|reflexivity|exact Hne|exact Hx|exact Hpost].
        -- destruct pre as [|c' pre]; [congruence|]. injection Hs as -> ->.
           destruct pre as [|p pre].
           { specialize (Hl c' eq_refl). congruence. }
           right. exists (p :: pre), post.
           split_and!; [reflexivity|discriminate|exact Hne|exact Hw|exact Hl|exact Hpost].
    + rewrite elem_of_app, elem_of_flushRun, IH. split.
      * intros [[Hcur ->]
               |[(x & post & -> & -> & Hne & Hx & Hpost)
                |(pre & post & -> & Hpre & Hne & Hw & Hl & Hpost)]].
        -- left. exists [], (c :: s). rewrite !app_nil_r.
           split_and!; [reflexivity|reflexivity|auto|constructor|].
           intros c' [= <-]. exact Hc.
        -- right. exists [c], post. simpl in *.
           split_and!; [reflexivity|discriminate|exact Hne|exact Hx| |exact Hpost].
           intros c' [= <-]. exact Hc.
        -- right. exists (c :: pre), post.
           split_and!; [reflexivity|discriminate|exact Hne|exact Hw| |exact Hpost].
           destruct pre as [|p pre]; [congruence|]. rewrite last_cons_cons. exact Hl.
      * intros [(x & post & Hs & -> & Hne & Hx & Hpost)
               |(pre & post & Hs & Hpre & Hne & Hw & Hl & Hpost)].
        -- destruct x as [|c' x].
           ++ left. rewrite ?app_nil_r in *. split; [|reflexivity].
              intros ->. apply Hne. reflexivity.
           ++ injection Hs as -> ->. apply Forall_cons in Hx as [Hx _]. congruence.
        -- destruct pre as [|c' pre]; [congruence|]. injection Hs as -> ->.
           right. destruct pre as [|p pre].
           ++ left. exists w, post.
              split_and!; [reflexivity|reflexivity|exact Hne|exact Hw|exact Hpost].
           ++ right. exists (p :: pre), post.
              split_and!; [reflexivity|discriminate|exact Hne|exact Hw|exact Hl|exact Hpost].
Qed.

Lemma elem_of_matchWords s w : w ∈ matchWords s <-> wordRun s w.
Proof.
  unfold matchWords, wordRun. rewrite elem_of_scanWords. simpl. split.
  - intros [(x & post & -> & -> & Hne & Hx & Hpost)|(pre & post & -> & Hpre & Hne & Hw & Hl & Hpost)].
    + split; [exact Hne|]. split; [exact Hx|]. exists [], post.
      split_and!; [reflexivity|discriminate|exact Hpost].
    + split; [exact Hne|]. split; [exact Hw|]. exists pre, post. auto.
  - intros (Hne & Hw & pre & post & -> & Hl & Hpost). destruct pre as [|p pre].
    + left. exists w, post. auto.
    + right. exists (p :: pre), post.
      split_and!; [reflexivity|discriminate|exact Hne|exact Hw|exact Hl|exact Hpost].
Qed.

End WordRuns.

Section TokenizerCharacterisation.
Context {rt : JsRuntime}.

(** X1. [tokenize] returns a duplicate-free list whose elements are exactly
    the one-unit strings of the code units of the text that lie in
    U+4E00..U+9FFF, U+3040..U+309F or U+AC00..U+D7AF, and the maximal runs
    of [[A-Za-z0-9_]] of the lower-cased text. *)
Theorem tokenize_characterisation (text : jsstring) :
  NoDup (tokenize text)
  /\ forall tok,
       tok ∈ tokenize text
       <-> (exists c, c ∈ text /\ tok = [c]
                      /\ (0x4E00 <= c <= 0x9FFF \/ 0x3040 <= c <= 0x309F
                          \/ 0xAC00 <= c <= 0xD7AF))
           \/ wordRun (toLowerCase text) tok.
Proof.
  destruct (tokenize_tokens text) as [Hnd Hin]. split; [exact Hnd|].
  intros tok. rewrite Hin, elem_of_matchWords.
  assert (Hcjk : forall c, isCJK c = true
            <-> (0x4E00 <= c <= 0x9FFF \/ 0x3040 <= c <= 0x309F
                 \/ 0xAC00 <= c <= 0xD7AF)).
  { intros c. unfold isCJK.
    rewrite !orb_true_iff, !andb_true_iff, !Z.leb_le. tauto. }
  split; (intros [(c & Hc & H)|H]; [left; exists c|right; exact H]).
  - destruct H as [H ->]. apply Hcjk in H. auto.
  - destruct H as [-> H]. apply Hcjk in H. auto.
Qed.

End TokenizerCharacterisation.

(** ** Adding and removing documents *)

Lemma filter_all {A} (P : A -> bool) (l : list A) :
  (forall x, x ∈ l -> P x = true) -> List.filter P l = l.
Proof.
  induction l as [|x l IH]; intros Hall; simpl; [reflexivity|].
  rewrite (Hall x) by apply list_elem_of_here. f_equal.
  apply IH. intros y Hy. apply Hall, list_elem_of_further, Hy.
Qed.

Lemma filter_comm {A} (P Q : A -> bool) (l : list A) :
  List.filter P (List.filter Q l) = List.filter Q (List.filter P l).
Proof.
  induction l as [|x l IH]; simpl; [reflexivity|].
  destruct (P x) eqn:HP, (Q x) eqn:HQ; simpl; rewrite ?HP, ?HQ, IH; reflexivity.
Qed.

Section AddRemove.
Context {rt : JsRuntime}.
Implicit Types (this : FileIndex) (l : list FileInfo.t) (p q filepath : jsstring).

Lemma delete_filter_paths l i f :
  NoDup (FileInfo.path <$> l) -> l !! i = Some f ->
  delete i l
  = List.filter (fun g => bool_decide (FileInfo.path g ≠ FileInfo.path f)) l.
Proof.
  revert i. induction l as [|g l IH]; intros i Hnd Hi; [discriminate|].
  rewrite fmap_cons in Hnd. apply NoDup_cons in Hnd as [Hg Hnd].
  destruct i as [|i]; simpl in Hi |- *.
  - injection Hi as ->. rewrite bool_decide_false by (intros H; apply H; reflexivity).
    symmetry. apply filter_all. intros h Hh. apply bool_decide_eq_true.
    intros Heq. apply Hg. rewrite <- Heq. apply list_elem_of_fmap_2, Hh.
  - rewrite bool_decide_true.
    + f_equal. apply IH; assumption.
    + intros Heq. apply Hg. rewrite Heq.
      apply list_elem_of_fmap_2. eapply list_elem_of_lookup_2, Hi.
Qed.

(** On a valid index [removeFile] returns, and leaves the content map
    without the path, the table without the entry of the path, and the
    posting list derived from them. *)
Lemma removeFile_valid_eq filepath this :
  valid this ->
  exists w,
    removeFile filepath this
    = (Normal tt,
       {| files := delete filepath (files this);
          wordIndex := w;
          filesList :=
            List.filter (fun g => bool_decide (FileInfo.path g ≠ filepath))
              (filesList this) |})
    /\ rebuildFrom (delete filepath (files this)) 0
         (List.filter (fun g => bool_decide (FileInfo.path g ≠ filepath))
            (filesList this)) ∅
       = Normal w.
Proof.
  intros Hv. destruct (files this !! filepath) as [fileData|] eqn:Hp.
  - destruct (removeFile_present _ _ _ Hv Hp) as (i & f & w & Hi & Hf & Hrun & Hw).
    rewrite (delete_filter_paths _ _ _ (valid_paths _ Hv) Hi), Hf in Hrun, Hw.
    exists w. split; [exact Hrun|exact Hw].
  - exists (wordIndex this).
    assert (Hl : List.filter (fun g => bool_decide (FileInfo.path g ≠ filepath))
                   (filesList this) = filesList this).
    { apply filter_all. intros g Hg. apply bool_decide_eq_true. intros Heq.
      destruct (valid_listed this g Hv Hg) as [fd Hfd]. congruence. }
    rewrite Hl, (delete_id _ _ Hp), (removeFile_absent _ _ Hp).
    split; [destruct this; reflexivity|apply (valid_words _ Hv)].
Qed.

(** X2. On a valid index, [addFile] for a path that the index does not hold
    followed by [removeFile] of that path gives back the index exactly as it
    was: content map, document table and posting list. *)
Theorem addFile_removeFile_round_trip this filepath fname text mt :
  valid this -> files this !! filepath = None ->
  (addFile filepath fname text mt ;; removeFile filepath) this = (Normal tt, this).
Proof.
  intros Hv Hfresh. unfold bind at 1. rewrite addFile_eq.
  pose proof (valid_addFile filepath fname text mt this Hv Hfresh) as Hv1.
  rewrite addFile_eq in Hv1. simpl in Hv1.
  destruct (removeFile_valid_eq filepath _ Hv1) as (w & -> & Hw). simpl in *.
  rewrite delete_insert_id in Hw |- * by exact Hfresh.
  assert (Hl : List.filter (fun g => bool_decide (FileInfo.path g ≠ filepath))
                 (filesList this ++ [FileInfo.mk filepath fname])
               = filesList this).
  { rewrite List.filter_app. simpl.
    rewrite bool_decide_false by (intros H; apply H; reflexivity).
    rewrite app_nil_r. apply filter_all. intros g Hg. apply bool_decide_eq_true.
    intros Heq. destruct (valid_listed this g Hv Hg) as [fd Hfd]. congruence. }
  rewrite Hl in Hw |- *.
  pose proof (valid_words _ Hv) as Hd. unfold derivedWordIndex in Hd.
  assert (w = wordIndex this) as -> by congruence.
  destruct this; reflexivity.
Qed.

(** X4. On a valid index two [removeFile] calls can be made in either order
    with the same outcome, and a second [removeFile] of the same path changes
    nothing. *)
Theorem removeFile_commutes this p q :
  valid this ->
  (removeFile p ;; removeFile q) this = (removeFile q ;; removeFile p) this
  /\ (removeFile p ;; removeFile p) this = removeFile p this.
Proof.
  intros Hv.
  pose proof (valid_removeFile p this Hv) as [_ Hvp].
  pose proof (valid_removeFile q this Hv) as [_ Hvq].
  destruct (removeFile_valid_eq p this Hv) as (wp & Hp & Hwp).
  destruct (removeFile_valid_eq q this Hv) as (wq & Hq & Hwq).
  rewrite Hp in Hvp. rewrite Hq in Hvq. simpl in Hvp, Hvq.
  destruct (removeFile_valid_eq q _ Hvp) as (wpq & Hpq & Hwpq).
  destruct (removeFile_valid_eq p _ Hvq) as (wqp & Hqp & Hwqp).
  destruct (removeFile_valid_eq p _ Hvp) as (wpp & Hpp & Hwpp).
  simpl in *. unfold bind. rewrite Hp, Hq, Hpq, Hqp, Hpp. split.
  - rewrite (delete_delete (files this) p q) in Hwqp |- *.
    rewrite (filter_comm (fun g => bool_decide (FileInfo.path g ≠ p))) in Hwqp |- *.
    assert (wpq = wqp) as -> by congruence. reflexivity.
  - rewrite delete_delete_eq in Hwpp |- *.
    assert (Hl : forall l,
              List.filter (fun g => bool_decide (FileInfo.path g ≠ p))
                (List.filter (fun g => bool_decide (FileInfo.path g ≠ p)) l)
              = List.filter (fun g => bool_decide (FileInfo.path g ≠ p)) l).
    { intros l. apply filter_all. intros g Hg.
      apply list_elem_of_In, filter_In in Hg as [_ Hg]. exact Hg. }
    rewrite Hl in Hwpp |- *.
    assert (wpp = wp) as -> by congruence. reflexivity.
Qed.

End AddRemove.

Lemma addFile_removeFile_round_trip_witness :
  valid (rt := posixHost) Corpus.alphaBeta
  /\ files Corpus.alphaBeta !! Corpus.cPath = None
  /\ (addFile (rt := posixHost) Corpus.cPath (js "c.md") (js "gamma alpha") 3 ;;
      removeFile (rt := posixHost) Corpus.cPath) Corpus.alphaBeta
     = (Normal tt, Corpus.alphaBeta).
Proof.
  assert (Hfresh : files Corpus.alphaBeta !! Corpus.cPath = None) by reflexivity.
  split; [exact valid_alphaBeta|]. split; [exact Hfresh|].
  exact (addFile_removeFile_round_trip (rt := posixHost) Corpus.alphaBeta Corpus.cPath
           (js "c.md") (js "gamma alpha") 3 valid_alphaBeta Hfresh).
Defined.

Lemma removeFile_commutes_witness :
  valid (rt := posixHost) Corpus.alphaBeta
  /\ (removeFile (rt := posixHost) Corpus.aPath ;;
      removeFile (rt := posixHost) Corpus.bPath) Corpus.alphaBeta
     = (removeFile (rt := posixHost) Corpus.bPath ;;
        removeFile (rt := posixHost) Corpus.aPath) Corpus.alphaBeta.
Proof.
  split; [exact valid_alphaBeta|].
  exact (proj1 (removeFile_commutes (rt := posixHost) Corpus.alphaBeta Corpus.aPath
                  Corpus.bPath valid_alphaBeta)).
Defined.

(** ** Which documents a search lists *)

Section Listing.
Context {rt : JsRuntime}.
Implicit Types (this : FileIndex) (l : list FileInfo.t) (m : Matched.t).
Implicit Types (query p q : jsstring) (idx : nat) (acc found ms : list Matched.t).

(** On a valid index the candidates of a query are the documents whose
    content qualifies. *)
Lemma candidatePaths_qualifies query this :
  valid this ->
  exists ps,
    candidatePaths query this = Normal ps
    /\ forall p, p ∈ ps <->
         exists fileData,
           files this !! p = Some fileData
           /\ qualifies query (FileData.content fileData).
Proof.
  intros Hv. unfold candidatePaths, candidates, bind, get, lift, qualifies.
  destruct (isMultiCJK query) eqn:Hmode; simpl.
  - destruct (phraseScan_valid query this Hv) as (ms & -> & Hms). simpl.
    eexists. split; [reflexivity|]. intros p. rewrite list_elem_of_fmap. split.
    + intros (m & -> & (i & f & fd & Hi & Hfd & Hpos & ->)%Hms). simpl. eauto.
    + intros (fd & Hfd & Hpos).
      destruct (valid_stored this p Hv) as (i & f & Hi & Hf); [rewrite Hfd; eauto|].
      subst p. eexists. split; [|apply Hms; exists i, f, fd; eauto]. reflexivity.
  - destruct (tokenScan_valid query this Hv) as (ms & -> & Hall). simpl.
    eexists. split; [reflexivity|]. intros p. rewrite list_elem_of_fmap. split.
    + intros (m & -> & Hm). apply list_elem_of_lookup in Hm as (k & Hk).
      destruct (Forall2_lookup_r _ _ _ _ _ Hall Hk) as (i & Hik & f & fd & Hi & Hfd & ->).
      simpl. exists fd. split; [exact Hfd|].
      apply list_elem_of_lookup_2, elem_of_unionPostings in Hik as (tok & Htok & Hpost).
      exists tok. split; [exact Htok|].
      apply posted_default, (valid_sound _ Hv) in Hpost as (f' & fd' & Hi' & Hfd' & Hin).
      assert (f' = f) as -> by congruence.
      assert (fd' = fd) as -> by congruence. exact Hin.
    + intros (fd & Hfd & tok & Htok & Hin).
      destruct (valid_stored this p Hv) as (i & f & Hi & Hf); [rewrite Hfd; eauto|].
      subst p.
      assert (Hord : i ∈ unionPostings (wordIndex this) (tokenize query)).
      { apply elem_of_unionPostings. exists tok. split; [exact Htok|].
        apply posted_default, (valid_complete _ Hv). exists f, fd. auto. }
      apply list_elem_of_lookup in Hord as (k & Hk).
      destruct (Forall2_lookup_l _ _ _ _ _ Hall Hk) as (m & Hm & f' & fd' & Hi' & _ & ->).
      exists (Matched.mk i (FileInfo.path f') (FileInfo.name f')
                (FileData.content fd') (countLines query (FileData.content fd'))).
      split; [simpl; congruence|eapply list_elem_of_lookup_2, Hm].
Qed.

(** X3. On a valid index, after [addFile] for a path that the index does not
    hold, the candidates of any query are those it had before, and the new
    document exactly when its content qualifies: in token mode when it shares
    a token with the query, in phrase mode when its count is positive. *)
Theorem addFile_makes_document_searchable this filepath fname text mt :
  valid this -> files this !! filepath = None ->
  forall query, exists ps ps',
    candidatePaths query this = Normal ps
    /\ candidatePaths query (snd (addFile filepath fname text mt this)) = Normal ps'
    /\ forall p, p ∈ ps' <-> p ∈ ps \/ (p = filepath /\ qualifies query text).
Proof.
  intros Hv Hfresh query.
  pose proof (valid_addFile filepath fname text mt this Hv Hfresh) as Hv'.
  destruct (candidatePaths_qualifies query this Hv) as (ps & Hps & Hin).
  destruct (candidatePaths_qualifies query _ Hv') as (ps' & Hps' & Hin').
  exists ps, ps'. split; [exact Hps|]. split; [exact Hps'|].
  intros p. rewrite Hin', Hin. rewrite addFile_eq. simpl. split.
  - intros (fd & Hfd & Hq). destruct (decide (p = filepath)) as [->|Hne].
    + rewrite lookup_insert_eq in Hfd. injection Hfd as <-. right. auto.
    + rewrite lookup_insert_ne in Hfd by congruence. left. eauto.
  - intros [(fd & Hfd & Hq)|[-> Hq]].
    + exists fd. split; [|exact Hq]. rewrite lookup_insert_ne; [exact Hfd|].
      intros <-. congruence.
    + eexists. split; [apply lookup_insert_eq|exact Hq].
Qed.

End Listing.

Lemma addFile_makes_document_searchable_witness :
  valid (rt := posixHost) Corpus.alphaBeta
  /\ files Corpus.alphaBeta !! Corpus.cPath = None
  /\ exists ps ps',
       candidatePaths (rt := posixHost) (js "alpha") Corpus.alphaBeta = Normal ps
       /\ candidatePaths (rt := posixHost) (js "alpha")
            (snd (addFile (rt := posixHost) Corpus.cPath (js "c.md")
                    (js "Gamma ALPHA") 3 Corpus.alphaBeta))
          = Normal ps'
       /\ ps = [Corpus.aPath]
       /\ ps' = [Corpus.aPath; Corpus.cPath].
Proof.
  assert (Hfresh : files Corpus.alphaBeta !! Corpus.cPath = None) by reflexivity.
  split; [exact valid_alphaBeta|]. split; [exact Hfresh|].
  destruct (addFile_makes_document_searchable (rt := posixHost) Corpus.alphaBeta
              Corpus.cPath (js "c.md") (js "Gamma ALPHA") 3 valid_alphaBeta Hfresh
              (js "alpha")) as (ps & ps' & Hps & Hps' & _).
  exists ps, ps'. split; [exact Hps|]. split; [exact Hps'|].
  vm_compute in Hps. vm_compute in Hps'.
  injection Hps as <-. injection Hps' as <-. split; reflexivity.
Defined.

(** ** Ranking and hits *)

Section Ranking.
Context {rt : JsRuntime}.
Implicit Types (this : FileIndex) (query : jsstring) (ms : list Matched.t).

Lemma insertByMatches_sorted (a : Matched.t) ms :
  StronglySorted (fun x y => Matched.matches y <= Matched.matches x)%nat ms ->
  StronglySorted (fun x y => Matched.matches y <= Matched.matches x)%nat
    (insertByMatches a ms).
Proof.
  induction 1 as [|b ms Hs IH Hb]; simpl.
  - repeat constructor.
  - destruct (decide (Matched.matches b <= Matched.matches a)%nat) as [Hle|Hgt].
    + constructor; [constructor; assumption|]. constructor; [exact Hle|].
      eapply Forall_impl; [exact Hb|]. simpl. intros c Hc. lia.
    + constructor; [exact IH|].
      rewrite (insertByMatches_Permutation a ms). constructor; [lia|exact Hb].
Qed.

Lemma sortByMatches_sorted ms :
  StronglySorted (fun x y => Matched.matches y <= Matched.matches x)%nat
    (sortByMatches ms).
Proof.
  unfold sortByMatches. induction ms as [|a ms IH]; simpl.
  - constructor.
  - apply insertByMatches_sorted, IH.
Qed.

Lemma StronglySorted_lookup {A} (R : A -> A -> Prop) (l : list A) i j a b :
  StronglySorted R l -> (i < j)%nat -> l !! i = Some a -> l !! j = Some b -> R a b.
Proof.
  intros Hs. revert i j. induction Hs as [|x l Hs IH Hx]; intros i j Hij Hi Hj.
  - discriminate.
  - destruct j as [|j]; [lia|]. destruct i as [|i]; simpl in *.
    + injection Hi as <-. rewrite Forall_forall in Hx.
      apply Hx. eapply list_elem_of_lookup_2, Hj.
    + apply (IH i j); [lia|assumption..].
Qed.

Lemma insertByMatches_stable (a : Matched.t) ms (k : nat) :
  List.filter (fun m => bool_decide (Matched.matches m = k)) (insertByMatches a ms)
  = List.filter (fun m => bool_decide (Matched.matches m = k)) (a :: ms).
Proof.
  induction ms as [|b ms IH]; simpl; [reflexivity|].
  destruct (decide (Matched.matches b <= Matched.matches a)%nat) as [Hle|Hgt];
    [reflexivity|].
  simpl in *. rewrite IH.
  destruct (bool_decide (Matched.matches a = k)) eqn:Ha; [|reflexivity].
  apply bool_decide_eq_true in Ha.
  rewrite bool_decide_false by lia. reflexivity.
Qed.

Lemma sortByMatches_stable ms (k : nat) :
  List.filter (fun m => bool_decide (Matched.matches m = k)) (sortByMatches ms)
  = List.filter (fun m => bool_decide (Matched.matches m = k)) ms.
Proof.
  unfold sortByMatches. induction ms as [|a ms IH]; [reflexivity|].
  simpl foldr. rewrite insertByMatches_stable. simpl. rewrite IH. reflexivity.
Qed.

(** X5. The results of a search that returns are its candidates, each
    exactly once, in an order in which the match counts do not increase, and
    candidates with the same match count keep the order in which they were
    found. *)
Theorem ranking_sorted_and_stable this query ms :
  fst (candidates query this) = Normal ms ->
  exists sorted,
    fst (ranked query this) = Normal (extractHits query <$> sorted)
    /\ sorted ≡ₚ ms
    /\ descending sorted
    /\ forall k : nat,
         List.filter (fun m => bool_decide (Matched.matches m = k)) sorted
         = List.filter (fun m => bool_decide (Matched.matches m = k)) ms.
Proof.
  intros Hc. exists (sortByMatches ms). rewrite ranked_eq, Hc. simpl.
  split; [reflexivity|]. split; [apply sortByMatches_Permutation|]. split.
  - intros i j a b Hij Hi Hj.
    apply (StronglySorted_lookup _ _ i j a b (sortByMatches_sorted ms) Hij Hi Hj).
  - apply sortByMatches_stable.
Qed.

End Ranking.

Lemma ranking_sorted_and_stable_witness :
  exists ms sorted results,
    fst (candidates (rt := posixHost) (js "x") Corpus.onceThriceTwice) = Normal ms
    /\ fst (ranked (rt := posixHost) (js "x") Corpus.onceThriceTwice)
       = Normal results
    /\ results = extractHits (js "x") <$> sorted
    /\ sorted ≡ₚ ms
    /\ descending sorted
    /\ Matched.path <$> ms = [Corpus.aPath; Corpus.bPath; Corpus.cPath]
    /\ Entry.path <$> results = [Corpus.bPath; Corpus.cPath; Corpus.aPath].
Proof.
  destruct (fst (candidates (rt := posixHost) (js "x") Corpus.onceThriceTwice))
    as [ms|] eqn:Hc.
  - destruct (ranking_sorted_and_stable (rt := posixHost) _ _ _ Hc)
      as (sorted & Hr & Hperm & Hdesc & _).
    remember (extractHits (js "x") <$> sorted) as results eqn:Hres.
    exists ms, sorted, results.
    split; [reflexivity|]. split; [exact Hr|]. split; [exact Hres|].
    split; [exact Hperm|]. split; [exact Hdesc|].
    vm_compute in Hc. injection Hc as <-. split; [reflexivity|].
    vm_compute in Hr. injection Hr as <-. reflexivity.
  - vm_compute in Hc. discriminate.
Defined.

Section Hits.
Implicit Types (query text line : jsstring) (ls : list jsstring) (h : Hit.t).
Implicit Types (i j k n : nat).

Lemma hitsFrom_cons query k line ls :
  hitsFrom query k (line :: ls)
  = (if includes query line then [Hit.mk (S k) (trim line)] else [])
    ++ hitsFrom query (S k) ls.
Proof.
  unfold hitsFrom. rewrite imap_cons. simpl. rewrite Nat.add_0_r.
  rewrite (imap_ext _ (fun i l => ((S k + i)%nat, l))).
  - destruct (includes query line); reflexivity.
  - intros i l _. simpl. f_equal. lia.
Qed.

Lemma extractHits_hits query (file : Matched.t) :
  Entry.hits (extractHits query file)
  = take 3 (hitsFrom query 0 (lines (Matched.content file))).
Proof. reflexivity. Qed.

Lemma length_hitsFrom query k ls :
  length (hitsFrom query k ls) = length (List.filter (includes query) ls).
Proof.
  revert k. induction ls as [|line ls IH]; intros k; [reflexivity|].
  rewrite hitsFrom_cons, length_app, IH. simpl.
  destruct (includes query line); reflexivity.
Qed.

Lemma elem_of_hitsFrom query k ls h :
  h ∈ hitsFrom query k ls
  <-> exists i line,
        ls !! i = Some line /\ includes query line = true
        /\ h = Hit.mk (S (k + i)) (trim line).
Proof.
  revert k. induction ls as [|l ls IH]; intros k.
  - unfold hitsFrom. simpl. rewrite elem_of_nil. split; [intros []|].
    intros (i & line & Hi & _). rewrite lookup_nil in Hi. discriminate.
  - rewrite hitsFrom_cons, elem_of_app, IH. split.
    + intros [Hh|(i & line & Hi & Hinc & ->)].
      * destruct (includes query l) eqn:Hl; [|apply elem_of_nil in Hh as []].
        apply list_elem_of_singleton in Hh as ->.
        exists 0%nat, l. rewrite Nat.add_0_r. auto.
      * exists (S i), line. rewrite Nat.add_succ_r. auto.
    + intros (i & line & Hi & Hinc & ->). destruct i as [|i]; simpl in Hi.
      * injection Hi as ->. left. rewrite Hinc, Nat.add_0_r. apply list_elem_of_here.
      * right. exists i, line. rewrite Nat.add_succ_r. auto.
Qed.

Lemma hitsFrom_sorted query k ls :
  StronglySorted lt (Hit.lineNum <$> hitsFrom query k ls).
Proof.
  revert k. induction ls as [|l ls IH]; intros k.
  - constructor.
  - rewrite hitsFrom_cons. destruct (includes query l); simpl; [|apply IH].
    constructor; [apply IH|]. apply Forall_forall.
    intros n (h & -> & (i & line & _ & _ & ->)%elem_of_hitsFrom)%list_elem_of_fmap.
    simpl. lia.
Qed.

Lemma StronglySorted_take {A} (R : A -> A -> Prop) (l : list A) n :
  StronglySorted R l -> StronglySorted R (take n l).
Proof.
  intros Hs. revert n. induction Hs as [|x l Hs IH Hx]; intros [|n]; simpl;
    try constructor.
  - apply IH.
  - apply Forall_forall. intros y Hy. rewrite Forall_forall in Hx.
    apply Hx. eapply subseteq_take, Hy.
Qed.

(** Among the first [n] hits, every earlier line that includes the query is
    present too. *)
Lemma take_hitsFrom_closed query n k ls h i j line :
  h ∈ take n (hitsFrom query k ls) -> Hit.lineNum h = S (k + i) -> (j < i)%nat ->
  ls !! j = Some line -> includes query line = true ->
  Hit.mk (S (k + j)) (trim line) ∈ take n (hitsFrom query k ls).
Proof.
  revert n k i j. induction ls as [|l ls IH]; intros n k i j Hh Hnum Hji Hj Hinc.
  - discriminate.
  - rewrite hitsFrom_cons in Hh |- *. destruct i as [|i]; [lia|].
    destruct (includes query l) eqn:Hl; simpl in Hh |- *.
    + destruct n as [|n]; simpl in Hh |- *; [apply elem_of_nil in Hh as []|].
      destruct j as [|j]; simpl in Hj.
      * injection Hj as ->. rewrite Nat.add_0_r. apply list_elem_of_here.
      * apply list_elem_of_further. apply elem_of_cons in Hh as [->|Hh].
        { simpl in Hnum. lia. }
        rewrite Nat.add_succ_r.
        apply (IH n (S k) i j); [exact Hh|lia|lia|exact Hj|exact Hinc].
    + destruct j as [|j]; simpl in Hj.
      * injection Hj as ->. congruence.
      * rewrite Nat.add_succ_r.
        apply (IH n (S k) i j); [exact Hh|lia|lia|exact Hj|exact Hinc].
Qed.

(** X6. The entry of a result carries the path and name of the document and
    at most three hits: as many as there are lines that include the query,
    up to three. Each hit gives the number, counted from 1, of a line that
    includes the query, and that line trimmed; the hits are in the order of
    the lines; and every line before a hit that includes the query is a hit
    as well, so that the hits are the first three such lines. *)
Theorem hits_are_the_first_three query (file : Matched.t) :
  let text := Matched.content file in
  let hs := Entry.hits (extractHits query file) in
  Entry.path (extractHits query file) = Matched.path file
  /\ Entry.name (extractHits query file) = Matched.name file
  /\ length hs = Nat.min 3 (countLines query text)
  /\ (forall h, h ∈ hs ->
        exists i line,
          hitLine query text i line
          /\ Hit.lineNum h = S i /\ Hit.content h = trim line)
  /\ (forall h i j line,
        h ∈ hs -> Hit.lineNum h = S i -> (j < i)%nat ->
        hitLine query text j line ->
        Hit.mk (S j) (trim line) ∈ hs)
  /\ StronglySorted lt (Hit.lineNum <$> hs).
Proof.
  intros text hs. subst hs. rewrite extractHits_hits. fold text.
  split; [reflexivity|]. split; [reflexivity|]. split.
  { rewrite length_take, length_hitsFrom. reflexivity. }
  split.
  { intros h Hh. apply subseteq_take, elem_of_hitsFrom in Hh
      as (i & line & Hi & Hinc & ->).
    exists i, line. split; [|split; reflexivity].
    split; [exact Hi|apply includes_spec, Hinc]. }
  split.
  - intros h i j line Hh Hnum Hji [Hj Hocc].
    apply (take_hitsFrom_closed query 3 0 (lines text) h i j line Hh Hnum Hji Hj).
    apply includes_spec, Hocc.
  - rewrite fmap_take. apply StronglySorted_take, hitsFrom_sorted.
Qed.

End Hits.

(** ** Counts *)

Section Counts.
Implicit Types (query text line q s : jsstring) (n : nat).

Lemma occurrences_fit q s n :
  occurrences q s n -> (n * length q <= length s)%nat.
Proof.
  induction 1 as [s _|pre post n _ _ IH]; [simpl; lia|].
  rewrite !length_app. simpl. lia.
Qed.

Lemma countLines_pos query text :
  (0 < countLines query text)%nat
  <-> exists line, line ∈ lines text /\ occursIn query line.
Proof.
  unfold countLines. split.
  - intros Hpos. destruct (List.filter (includes query) (lines text)) as [|line ls] eqn:Hf;
      [simpl in Hpos; lia|].
    assert (Hin : In line (List.filter (includes query) (lines text))).
    { rewrite Hf. left. reflexivity. }
    apply filter_In in Hin as [Hin Hinc]. exists line.
    split; [apply list_elem_of_In, Hin|apply includes_spec, Hinc].
  - intros (line & Hin & Hocc).
    assert (Hf : In line (List.filter (includes query) (lines text))).
    { apply filter_In. split; [apply list_elem_of_In, Hin|apply includes_spec, Hocc]. }
    destruct (List.filter (includes query) (lines text)); [destruct Hf|simpl; lia].
Qed.

(** X7. In phrase counting, the occurrences counted in a line are pairwise
    disjoint, so that their number times the length of the query is at most
    the length of the line; and the count of a text is at least the number
    of its lines that include the query. *)
Theorem phrase_count_bounds query text line :
  query ≠ [] ->
  (countInLine query line * length query <= length line)%nat
  /\ (countLines query text <= countPhrase query text)%nat.
Proof.
  intros Hq. split.
  - apply occurrences_fit, countInLine_occurrences, Hq.
  - rewrite countPhrase_sum. unfold countLines.
    induction (lines text) as [|l ls IH]; [simpl; lia|].
    rewrite fmap_cons.
    change (sum_list (countInLine query l :: (countInLine query <$> ls)))
      with (countInLine query l + sum_list (countInLine query <$> ls))%nat.
    simpl. destruct (includes query l) eqn:Hinc; simpl; [|lia].
    apply includes_spec, (countInLine_pos query l Hq) in Hinc. lia.
Qed.

End Counts.

Lemma phrase_count_bounds_witness :
  Corpus.phrase ≠ []
  /\ (countInLine Corpus.phrase (Corpus.phrase ++ Corpus.phrase) * 3 <= 6)%nat
  /\ countInLine [0x4E2D; 0x4E2D] [0x4E2D; 0x4E2D; 0x4E2D] = 1%nat.
Proof.
  assert (Hq : Corpus.phrase ≠ []) by discriminate.
  split; [exact Hq|]. split; [|reflexivity].
  exact (proj1 (phrase_count_bounds Corpus.phrase [] (Corpus.phrase ++ Corpus.phrase) Hq)).
Defined.

(** ** Results *)

Section Results.
Context {rt : JsRuntime}.
Implicit Types (this : FileIndex) (l : list FileInfo.t) (m : Matched.t).
Implicit Types (query : jsstring) (idx : nat) (acc found ms res : list Matched.t).

Lemma phraseScan_sublist query (fs : Files) l idx acc res :
  phraseScan query fs idx l acc = Normal res ->
  exists found,
    res = acc ++ found
    /\ (Matched.path <$> found) `sublist_of` (FileInfo.path <$> l).
Proof.
  revert idx acc. induction l as [|f l IH]; intros idx acc Hscan; simpl in Hscan.
  - injection Hscan as <-. exists []. rewrite app_nil_r. split; [reflexivity|constructor].
  - destruct (fs !! FileInfo.path f) as [fd|]; simpl in Hscan; [|discriminate].
    apply IH in Hscan as (found & -> & Hsub).
    destruct (decide (0 < countPhrase query (FileData.content fd))%nat).
    + eexists (_ :: found). rewrite <- app_assoc. split; [reflexivity|].
      rewrite !fmap_cons. simpl. apply sublist_skip, Hsub.
    + exists found. split; [reflexivity|]. rewrite fmap_cons. apply sublist_cons, Hsub.
Qed.

Lemma NoDup_unionPostings (w : WordIndex) (toks : list jsstring) :
  NoDup (unionPostings w toks).
Proof.
  unfold unionPostings.
  enough (H : forall a : list nat, NoDup a ->
            NoDup (foldl (fun a token => JsSet.addAll (default [] (w !! token)) a)
                     a toks)) by apply H, NoDup_nil_2.
  induction toks as [|t toks IH]; intros a Ha; simpl; [exact Ha|].
  apply IH, NoDup_addAll, Ha.
Qed.

Lemma matchedAt_NoDup query this (ords : list nat) ms :
  NoDup (FileInfo.path <$> filesList this) ->
  Forall2 (matchedAt query this) ords ms -> NoDup ords ->
  NoDup (Matched.path <$> ms).
Proof.
  intros Hpaths Hall. induction Hall as [|i m ords ms Hm Hall IH]; intros Hnd.
  - constructor.
  - apply NoDup_cons in Hnd as [Hi Hnd]. rewrite fmap_cons.
    apply NoDup_cons. split; [|apply IH, Hnd].
    intros (m' & Heq & Hm')%list_elem_of_fmap. apply Hi.
    apply list_elem_of_lookup in Hm' as (k & Hk).
    destruct (Forall2_lookup_r _ _ _ _ _ Hall Hk) as (i' & Hi' & f' & fd' & Hf' & _ & ->).
    destruct Hm as (f & fd & Hf & _ & ->). simpl in Heq.
    assert (i = i') as ->.
    { eapply NoDup_lookup; [exact Hpaths| |].
      - rewrite list_lookup_fmap, Hf. reflexivity.
      - rewrite list_lookup_fmap, Hf'. simpl. rewrite Heq. reflexivity. }
    eapply list_elem_of_lookup_2, Hi'.
Qed.

Lemma candidates_distinct query this :
  valid this ->
  exists ms,
    candidates query this = (Normal ms, this)
    /\ NoDup (Matched.path <$> ms)
    /\ forall m, m ∈ ms ->
         exists f, f ∈ filesList this
                   /\ Matched.path m = FileInfo.path f
                   /\ Matched.name m = FileInfo.name f.
Proof.
  intros Hv. unfold candidates, bind, get, lift.
  destruct (isMultiCJK query).
  - destruct (phraseScan_valid query this Hv) as (ms & Hscan & Hms).
    rewrite Hscan. exists ms. split; [reflexivity|]. split.
    + apply phraseScan_sublist in Hscan as (found & -> & Hsub). simpl.
      eapply sublist_NoDup; [apply (valid_paths _ Hv)|exact Hsub].
    + intros m (i & f & fd & Hi & _ & _ & ->)%Hms.
      exists f. split; [eapply list_elem_of_lookup_2, Hi|split; reflexivity].
  - destruct (tokenScan_valid query this Hv) as (ms & -> & Hall).
    exists ms. split; [reflexivity|]. split.
    + eapply matchedAt_NoDup; [apply (valid_paths _ Hv)|exact Hall|].
      apply NoDup_unionPostings.
    + intros m Hm. apply list_elem_of_lookup in Hm as (k & Hk).
      destruct (Forall2_lookup_r _ _ _ _ _ Hall Hk) as (i & _ & f & fd & Hi & _ & ->).
      exists f. split; [eapply list_elem_of_lookup_2, Hi|split; reflexivity].
Qed.

(** X8. On a valid index [search] returns for every query, page and page
    size, and its results before pagination name documents of the table,
    with their names, and no document twice. *)
Theorem search_lists_each_document_once this query page perPage :
  valid this ->
  exists r results,
    search query page perPage this = (Normal r, this)
    /\ fst (ranked query this) = Normal results
    /\ r = paginate results page perPage
    /\ NoDup (Entry.path <$> results)
    /\ forall e, e ∈ results ->
         exists f, f ∈ filesList this
                   /\ Entry.path e = FileInfo.path f
                   /\ Entry.name e = FileInfo.name f.
Proof.
  intros Hv. destruct (candidates_distinct query this Hv) as (ms & Hc & Hnd & Hin).
  exists (paginate (extractHits query <$> sortByMatches ms) page perPage),
         (extractHits query <$> sortByMatches ms).
  assert (Hr : fst (ranked query this)
               = Normal (extractHits query <$> sortByMatches ms)).
  { rewrite ranked_eq, Hc. reflexivity. }
  split; [rewrite search_eq, Hr; reflexivity|]. split; [exact Hr|].
  split; [reflexivity|]. split.
  - rewrite <- list_fmap_compose.
    change (Entry.path ∘ extractHits query) with Matched.path.
    rewrite sortByMatches_Permutation. exact Hnd.
  - intros e (m & -> & Hm)%list_elem_of_fmap.
    rewrite sortByMatches_Permutation in Hm. apply Hin, Hm.
Qed.

(** X9. In phrase mode, on a valid index, every result shows at least one
    hit and at most three. *)
Theorem phrase_results_show_hits this query :
  valid this -> (2 <= length (matchCJK query))%nat ->
  exists results,
    fst (ranked query this) = Normal results
    /\ forall e, e ∈ results -> (1 <= length (Entry.hits e) <= 3)%nat.
Proof.
  intros Hv Hcjk. pose proof (multiCJK_nonempty query Hcjk) as Hq.
  destruct (phraseScan_valid query this Hv) as (ms & Hscan & Hms).
  exists (extractHits query <$> sortByMatches ms). split.
  { rewrite ranked_eq. unfold candidates, bind, get, lift, isMultiCJK.
    rewrite bool_decide_true by lia. simpl. rewrite Hscan. reflexivity. }
  intros e (m & -> & Hm)%list_elem_of_fmap.
  rewrite sortByMatches_Permutation in Hm.
  apply Hms in Hm as (i & f & fd & _ & _ & Hpos & ->).
  rewrite extractHits_hits, length_take, length_hitsFrom.
  cbn [Matched.content].
  apply (countPhrase_pos query _ Hq), countLines_pos in Hpos.
  unfold countLines in Hpos. lia.
Qed.

End Results.

Lemma search_lists_each_document_once_witness :
  valid (rt := posixHost) Corpus.alphaBeta
  /\ exists r results,
       search (rt := posixHost) (js "alpha beta") 1 15 Corpus.alphaBeta
       = (Normal r, Corpus.alphaBeta)
       /\ fst (ranked (rt := posixHost) (js "alpha beta") Corpus.alphaBeta)
          = Normal results
       /\ NoDup (Entry.path <$> results)
       /\ Entry.path <$> results = [Corpus.aPath; Corpus.bPath].
Proof.
  split; [exact valid_alphaBeta|].
  destruct (search_lists_each_document_once (rt := posixHost) Corpus.alphaBeta
              (js "alpha beta") 1 15 valid_alphaBeta)
    as (r & results & Hs & Hr & _ & Hnd & _).
  exists r, results. split; [exact Hs|]. split; [exact Hr|]. split; [exact Hnd|].
  vm_compute in Hr. injection Hr as <-. reflexivity.
Defined.

Lemma phrase_results_show_hits_witness :
  (2 <= length (matchCJK Corpus.phrase))%nat
  /\ exists results,
       fst (ranked (rt := posixHost) Corpus.phrase Corpus.contiguousScattered)
       = Normal results
       /\ (forall e, e ∈ results -> (1 <= length (Entry.hits e) <= 3)%nat)
       /\ Entry.path <$> results = [Corpus.xPath].
Proof.
  assert (Hv : valid (rt := posixHost) Corpus.contiguousScattered).
  { apply validb_valid. vm_compute. reflexivity. }
  assert (Hlen : (2 <= length (matchCJK Corpus.phrase))%nat).
  { vm_compute. lia. }
  split; [exact Hlen|].
  destruct (phrase_results_show_hits (rt := posixHost) _ _ Hv Hlen)
    as (results & Hr & Hhits).
  exists results. split; [exact Hr|]. split; [exact Hhits|].
  vm_compute in Hr. injection Hr as <-. reflexivity.
Defined.

(** ** Pages *)

Lemma chunks_concat {A} (size : nat) (l : list A) (n : nat) :
  (length l <= n * size)%nat ->
  concat ((fun k => take size (drop (k * size) l)) <$> seq 0 n) = l.
Proof.
  revert l. induction n as [|n IH]; intros l Hlen.
  - destruct l; [reflexivity|simpl in Hlen; lia].
  - rewrite <- cons_seq, fmap_cons. simpl concat. rewrite drop_0.
    rewrite <- fmap_S_seq, <- list_fmap_compose.
    rewrite <- (take_drop size l) at 2. f_equal.
    rewrite <- (IH (drop size l)) by (rewrite length_drop; lia).
    f_equal. apply list_fmap_ext. intros _ k _. simpl. rewrite drop_drop. reflexivity.
Qed.

Section Pages.
Context {rt : JsRuntime}.
Implicit Types (this : FileIndex) (query : jsstring) (results : list Entry.t).

Lemma paginate_inside results (k : nat) perPage :
  (1 <= k)%nat -> Z.of_nat k <= ceilDiv (Z.of_nat (length results)) perPage ->
  SearchResult.results (paginate results (Z.of_nat k) perPage)
  = take (Pos.to_nat perPage) (drop ((k - 1) * Pos.to_nat perPage) results).
Proof.
  intros Hk Hle. unfold paginate. simpl.
  rewrite Z.min_l by exact Hle. rewrite Z.max_r by lia.
  do 2 f_equal. rewrite Z2Nat.inj_mul by lia. rewrite Z2Nat.inj_pos.
  f_equal. lia.
Qed.

(** X10. The pages of a search cover its results: page [k] of a search that
    returns is the pagination of the ranked results, no page holds more than
    [perPage] results, and pages 1 to [totalPages], one after the other, are
    the ranked results, each once and in order. *)
Theorem pages_cover_the_results this query perPage results :
  fst (ranked query this) = Normal results ->
  let totalPages := Z.to_nat (ceilDiv (Z.of_nat (length results)) perPage) in
  (forall page,
     fst (search query page perPage this)
     = Normal (paginate results page perPage))
  /\ (forall page,
        (length (SearchResult.results (paginate results page perPage))
         <= Pos.to_nat perPage)%nat)
  /\ concat ((fun k : nat =>
                SearchResult.results (paginate results (Z.of_nat k) perPage))
               <$> seq 1 totalPages)
     = results.
Proof.
  intros Hr totalPages. split; [|split].
  - intros page. rewrite search_eq, Hr. reflexivity.
  - intros page. unfold paginate. simpl. rewrite length_take. lia.
  - pose proof (ceilDiv_bounds (Z.of_nat (length results)) perPage) as Hb.
    assert (Htp : 0 <= ceilDiv (Z.of_nat (length results)) perPage) by nia.
    etransitivity;
      [|apply (chunks_concat (Pos.to_nat perPage) results totalPages);
        unfold totalPages; nia].
    rewrite <- fmap_S_seq, <- list_fmap_compose. f_equal.
    apply list_fmap_ext. intros _ k Hk%list_elem_of_lookup_2%elem_of_seq.
    unfold compose.
    rewrite (paginate_inside results (S k) perPage) by (unfold totalPages in Hk; lia).
    do 2 f_equal. lia.
Qed.

End Pages.

Lemma pages_cover_the_results_witness :
  exists results,
    fst (ranked (rt := posixHost) (js "x") Corpus.sixteen) = Normal results
    /\ length results = 16%nat
    /\ SearchResult.results (paginate results 1 15)
       ++ SearchResult.results (paginate results 2 15)
       = results.
Proof.
  destruct (fst (ranked (rt := posixHost) (js "x") Corpus.sixteen))
    as [results|] eqn:Hr.
  - exists results. split; [reflexivity|].
    destruct (pages_cover_the_results (rt := posixHost) _ _ 15 _ Hr) as (_ & _ & Hcat).
    assert (Hlen : length results = 16%nat).
    { vm_compute in Hr. injection Hr as <-. reflexivity. }
    split; [exact Hlen|].
    rewrite Hlen in Hcat. simpl in Hcat. rewrite app_nil_r in Hcat. exact Hcat.
  - vm_compute in Hr. discriminate.
Defined.

(** ** The scans and the table of time stamps *)

Lemma forEach_skip {S A} (f : A -> St S unit) (l : list A) (s : S) :
  (forall x, x ∈ l -> f x s = (Normal tt, s)) -> forEach f l s = (Normal tt, s).
Proof.
  induction l as [|x l IH]; intros Hf; simpl; [reflexivity|].
  unfold bind. rewrite (Hf x) by apply list_elem_of_here.
  apply IH. intros y Hy. apply Hf, list_elem_of_further, Hy.
Qed.

Lemma forEach_ext_valid {S A} (P : S -> Prop) (f g : A -> St S unit) (l : list A) :
  (forall x s, x ∈ l -> P s -> f x s = g x s) ->
  (forall x s, x ∈ l -> P s -> P (snd (g x s))) ->
  forall s, P s -> forEach f l s = forEach g l s.
Proof.
  induction l as [|x l IH]; intros Hfg HP s Hs; simpl; [reflexivity|].
  unfold bind. rewrite (Hfg x s) by (assumption || apply list_elem_of_here).
  pose proof (HP x s (list_elem_of_here _ _) Hs) as Hs1.
  destruct (g x s) as [[[]|] s1]; [|reflexivity]. simpl in Hs1.
  apply IH; [| |exact Hs1].
  - intros y s' Hy. apply Hfg, list_elem_of_further, Hy.
  - intros y s' Hy. apply HP, list_elem_of_further, Hy.
Qed.

Lemma forEach_keeps {S A} (P : S -> Prop) (f : A -> St S unit) (l : list A) :
  (forall x s, x ∈ l -> P s -> P (snd (f x s))) ->
  forall s, P s -> P (snd (forEach f l s)).
Proof.
  induction l as [|x l IH]; intros HP s Hs; simpl; [exact Hs|].
  unfold bind. pose proof (HP x s (list_elem_of_here _ _) Hs) as Hs1.
  destruct (f x s) as [[[]|] s1]; simpl in *; [|exact Hs1].
  apply IH; [|exact Hs1]. intros y s' Hy. apply HP, list_elem_of_further, Hy.
Qed.

Section TableFacts.
Context {rt : JsRuntime}.
Variable disk : jsstring -> option jsstring.
Implicit Types (w : Process) (this : FileIndex) (filepath p q : jsstring) (mt : Z).
Implicit Types (oldMTimes currentFiles : MTimes).

(** The content map after both loops of the start-up scan. *)
Lemma sync_files oldMTimes currentFiles w :
  valid (index w) -> NoDup currentFiles.*1 ->
  exists w',
    initializeIndex_sync disk oldMTimes currentFiles w = (Normal tt, w')
    /\ valid (index w')
    /\ reads w'
       = reads w
         ++ (List.filter (fun entry => changed oldMTimes (fst entry) (snd entry))
               currentFiles).*1
    /\ forall q,
         files (index w') !! q
         = if decide (q ∈ oldMTimes.*1 /\ q ∉ currentFiles.*1) then None
           else afterChanges disk oldMTimes currentFiles (files (index w)) q.
Proof.
  intros Hv Hnd. unfold initializeIndex_sync, removeDeleted, bind.
  destruct (change_loop disk oldMTimes currentFiles w Hv Hnd)
    as (w1 & -> & Hv1 & Hr1 & Hfs1).
  destruct (removal_loop disk currentFiles (oldMTimes.*1) w1 Hv1)
    as (w' & -> & Hv' & Hr' & Hfs').
  exists w'. split; [reflexivity|]. split; [exact Hv'|].
  split; [rewrite Hr'; exact Hr1|].
  intros q. rewrite Hfs'. destruct (decide _); [reflexivity|apply Hfs1].
Qed.

(** X11. When the index is in step with the persisted table (it holds the
    paths of the table, with its time stamps) and every new or changed file
    can be read, the start-up scan leaves a valid index in step with the
    current files: it holds exactly their paths, with their time stamps. *)
Theorem sync_keeps_index_in_step oldMTimes currentFiles w :
  valid (index w) -> NoDup currentFiles.*1 ->
  inStep (index w) oldMTimes ->
  changesReadable disk oldMTimes currentFiles ->
  exists w',
    initializeIndex_sync disk oldMTimes currentFiles w = (Normal tt, w')
    /\ valid (index w')
    /\ inStep (index w') currentFiles
    /\ forall p, p ∈ FileInfo.path <$> filesList (index w') <-> p ∈ currentFiles.*1.
Proof.
  intros Hv Hnd Hstep Hread.
  destruct (sync_files oldMTimes currentFiles w Hv Hnd) as (w' & Hrun & Hv' & _ & Hfs).
  assert (Hstep' : inStep (index w') currentFiles).
  { intros q. rewrite Hfs. destruct (decide _) as [[_ Hout]|Hno]; simpl.
    - symmetry. apply lookupMTime_None, Hout.
    - unfold afterChanges.
      destruct (lookupMTime q currentFiles) as [mt|] eqn:Hq.
      + destruct (changed oldMTimes q mt) eqn:Hch.
        * apply bool_decide_eq_true in Hch.
          destruct (Hread q mt Hq Hch) as [text ->]. reflexivity.
        * apply bool_decide_eq_false in Hch.
          rewrite Hstep. destruct (decide (lookupMTime q oldMTimes = Some mt));
            [assumption|contradiction].
      + rewrite Hstep. apply lookupMTime_None. intros Hold.
        apply Hno. split; [exact Hold|]. apply lookupMTime_None, Hq. }
  exists w'. split; [exact Hrun|]. split; [exact Hv'|]. split; [exact Hstep'|].
  intros p. rewrite (valid_table _ _ Hv').
  rewrite <- (fmap_is_Some FileData.mtime), Hstep'.
  destruct (lookupMTime p currentFiles) eqn:Hp.
  - split; [|eauto]. intros _.
    apply (list_elem_of_fmap_2 fst _ _ (lookupMTime_elem _ _ _ Hp)).
  - apply lookupMTime_None in Hp. split; [intros [? [=]]|contradiction].
Qed.

(** X12. A scan against a table that gives every path the time stamp the
    current files give it reads no file and leaves the index as it is, at
    start-up and on the scheduled rebuild, whatever the state of the
    index. *)
Theorem scan_of_unchanged_files_is_idle oldMTimes currentFiles w :
  NoDup currentFiles.*1 ->
  (forall p, lookupMTime p oldMTimes = lookupMTime p currentFiles) ->
  initializeIndex_sync disk oldMTimes currentFiles w = (Normal tt, w)
  /\ rebuildIndexCache disk oldMTimes currentFiles w = (Normal tt, w).
Proof.
  intros Hnd Hsame.
  assert (H1 : forall try_ : St Process unit -> St Process unit,
            forEach (fun entry =>
                if changed oldMTimes (fst entry) (snd entry)
                then try_ (reindex disk (fst entry) (snd entry))
                else ret tt) currentFiles w = (Normal tt, w)).
  { intros try_. apply forEach_skip. intros [p mt] Hin. simpl.
    apply (lookupMTime_unique _ _ _ Hnd) in Hin.
    unfold changed. rewrite bool_decide_false; [reflexivity|].
    intros Hne. apply Hne. rewrite Hsame. exact Hin. }
  assert (H2 : removeDeleted oldMTimes currentFiles w = (Normal tt, w)).
  { apply forEach_skip. intros p Hin. rewrite decide_True; [reflexivity|].
    destruct (lookupMTime p currentFiles) eqn:Hp.
    - apply (list_elem_of_fmap_2 fst _ _ (lookupMTime_elem _ _ _ Hp)).
    - rewrite <- Hsame in Hp. apply lookupMTime_None in Hp. contradiction. }
  split.
  - unfold initializeIndex_sync, bind. rewrite (H1 tryCatch), H2. reflexivity.
  - unfold rebuildIndexCache, tryCatch, bind. rewrite (H1 (fun m => m)), H2.
    reflexivity.
Qed.

Lemma reindex_valid filepath mt w :
  valid (index w) -> valid (index (snd (reindex disk filepath mt w))).
Proof.
  intros Hv. destruct (reindex_step disk filepath mt w Hv) as (w' & Hrun & Hv' & _).
  unfold tryCatch in Hrun. injection Hrun as <-. exact Hv'.
Qed.

Lemma removeDeleted_valid oldMTimes currentFiles w :
  valid (index w) ->
  valid (index (snd (removeDeleted oldMTimes currentFiles w))).
Proof.
  intros Hv. destruct (removal_loop disk currentFiles (oldMTimes.*1) w Hv)
    as (w' & Hrun & Hv' & _).
  unfold removeDeleted. rewrite Hrun. exact Hv'.
Qed.

(** X13. The scheduled rebuild never throws and leaves a valid index, also
    when it is cut short by a file that cannot be read; and when every new or
    changed file can be read it does to the index, and reads, exactly what
    the start-up scan does. *)
Theorem rebuild_agrees_with_startup_scan oldMTimes currentFiles w :
  valid (index w) -> NoDup currentFiles.*1 ->
  fst (rebuildIndexCache disk oldMTimes currentFiles w) = Normal tt
  /\ valid (index (snd (rebuildIndexCache disk oldMTimes currentFiles w)))
  /\ (changesReadable disk oldMTimes currentFiles ->
      rebuildIndexCache disk oldMTimes currentFiles w
      = initializeIndex_sync disk oldMTimes currentFiles w).
Proof.
  intros Hv Hnd. split; [reflexivity|]. split.
  - unfold rebuildIndexCache, tryCatch. simpl. unfold bind.
    match goal with |- context [forEach ?f currentFiles w] =>
      pose proof (forEach_keeps (fun w => valid (index w)) f currentFiles) as Hkeep
    end.
    simpl in Hkeep. specialize (fun H => Hkeep H w Hv).
    match type of Hkeep with ?H -> _ => assert (Hstep : H) end.
    { intros [p mt] s _ Hs. simpl. destruct (changed oldMTimes p mt); [|exact Hs].
      apply reindex_valid, Hs. }
    specialize (Hkeep Hstep).
    destruct (forEach _ currentFiles w) as [[[]|] w1]; simpl in *; [|exact Hkeep].
    apply removeDeleted_valid, Hkeep.
  - intros Hread.
    destruct (sync_files oldMTimes currentFiles w Hv Hnd) as (w' & Hrun & _).
    assert (Hloops :
              forEach (fun entry =>
                  if changed oldMTimes (fst entry) (snd entry)
                  then tryCatch (reindex disk (fst entry) (snd entry))
                  else ret tt) currentFiles w
              = forEach (fun entry =>
                  if changed oldMTimes (fst entry) (snd entry)
                  then reindex disk (fst entry) (snd entry)
                  else ret tt) currentFiles w).
    { apply (forEach_ext_valid (fun s => valid (index s))); [| |exact Hv].
      - intros [p mt] s Hin Hs. simpl.
        destruct (changed oldMTimes p mt) eqn:Hch; [|reflexivity].
        destruct (reindex_step disk p mt s Hs) as (s' & Htry & _ & _ & _ & Hthrow).
        unfold tryCatch in *. injection Htry as <-.
        destruct (reindex disk p mt s) as [[[]|] s1] eqn:Hre; [reflexivity|].
        exfalso. simpl in Hthrow. destruct Hthrow as [Hnone _].
        apply (lookupMTime_unique _ _ _ Hnd) in Hin.
        apply bool_decide_eq_true in Hch.
        destruct (Hread p mt Hin Hch) as [text Htext].
        rewrite Hnone in Htext by reflexivity. discriminate.
      - intros [p mt] s _ Hs. simpl. destruct (changed oldMTimes p mt); [|exact Hs].
        apply reindex_valid, Hs. }
    rewrite Hrun. unfold initializeIndex_sync, bind in Hrun.
    unfold rebuildIndexCache, tryCatch, bind.
    rewrite <- Hloops, Hrun. reflexivity.
Qed.

End TableFacts.

Lemma inStep_check (this : FileIndex) (table : MTimes) :
  map_Forall (fun p fd => lookupMTime p table = Some (FileData.mtime fd)) (files this) ->
  Forall (fun p => is_Some (files this !! p)) table.*1 ->
  inStep this table.
Proof.
  intros Hfiles Htable p. destruct (files this !! p) as [fd|] eqn:Hp; simpl.
  - symmetry. apply (Hfiles p fd Hp).
  - symmetry. apply lookupMTime_None. intros Hin.
    rewrite Forall_forall in Htable. destruct (Htable p Hin) as [fd Hfd]. congruence.
Qed.

Lemma changesReadable_check (disk : jsstring -> option jsstring)
    (oldMTimes currentFiles : MTimes) :
  forallb (fun entry => negb (changed oldMTimes (fst entry) (snd entry))
                        || bool_decide (is_Some (disk (fst entry))))
    currentFiles = true ->
  changesReadable disk oldMTimes currentFiles.
Proof.
  intros Hall p mt Hp Hne. rewrite forallb_forall in Hall.
  specialize (Hall (p, mt) (proj1 (list_elem_of_In _ _) (lookupMTime_elem _ _ _ Hp))).
  simpl in Hall. apply orb_true_iff in Hall as [Hch|Hd].
  - apply negb_true_iff, bool_decide_eq_false in Hch. contradiction.
  - apply bool_decide_eq_true in Hd. exact Hd.
Qed.

Lemma valid_cached : valid (rt := posixHost) (index Corpus.cached).
Proof. apply validb_valid. vm_compute. reflexivity. Defined.

Lemma NoDup_scanned : NoDup Corpus.scanned.*1.
Proof. apply (bool_decide_unpack _). vm_compute. exact I. Defined.

Lemma readable_scanned :
  changesReadable Corpus.diskABC Corpus.cachedMTimes Corpus.scanned.
Proof. apply changesReadable_check. vm_compute. reflexivity. Defined.

Lemma sync_keeps_index_in_step_witness :
  valid (rt := posixHost) (index Corpus.cached)
  /\ NoDup Corpus.scanned.*1
  /\ inStep (index Corpus.cached) Corpus.cachedMTimes
  /\ changesReadable Corpus.diskABC Corpus.cachedMTimes Corpus.scanned
  /\ exists w',
       initializeIndex_sync (rt := posixHost) Corpus.diskABC Corpus.cachedMTimes
         Corpus.scanned Corpus.cached = (Normal tt, w')
       /\ inStep (index w') Corpus.scanned
       /\ FileInfo.path <$> filesList (index w') = [Corpus.aPath; Corpus.cPath].
Proof.
  assert (Hstep : inStep (index Corpus.cached) Corpus.cachedMTimes).
  { apply inStep_check; apply (bool_decide_unpack _); vm_compute; exact I. }
  split; [exact valid_cached|]. split; [exact NoDup_scanned|].
  split; [exact Hstep|]. split; [exact readable_scanned|].
  destruct (sync_keeps_index_in_step (rt := posixHost) Corpus.diskABC
              Corpus.cachedMTimes Corpus.scanned Corpus.cached
              valid_cached NoDup_scanned Hstep readable_scanned)
    as (w' & Hrun & _ & Hstep' & _).
  exists w'. split; [exact Hrun|]. split; [exact Hstep'|].
  vm_compute in Hrun. injection Hrun as <-. reflexivity.
Defined.

Lemma scan_of_unchanged_files_is_idle_witness :
  NoDup Corpus.scanned.*1
  /\ initializeIndex_sync (rt := posixHost) Corpus.unreadableA Corpus.scanned
       Corpus.scanned Corpus.cached = (Normal tt, Corpus.cached)
  /\ rebuildIndexCache (rt := posixHost) Corpus.unreadableA Corpus.scanned
       Corpus.scanned Corpus.cached = (Normal tt, Corpus.cached).
Proof.
  split; [exact NoDup_scanned|].
  exact (scan_of_unchanged_files_is_idle (rt := posixHost) Corpus.unreadableA
           Corpus.scanned Corpus.scanned Corpus.cached NoDup_scanned
           (fun p => eq_refl)).
Defined.

Lemma rebuild_agrees_with_startup_scan_witness :
  valid (rt := posixHost) (index Corpus.cached)
  /\ NoDup Corpus.scanned.*1
  /\ changesReadable Corpus.diskABC Corpus.cachedMTimes Corpus.scanned
  /\ rebuildIndexCache (rt := posixHost) Corpus.diskABC Corpus.cachedMTimes
       Corpus.scanned Corpus.cached
     = initializeIndex_sync (rt := posixHost) Corpus.diskABC Corpus.cachedMTimes
         Corpus.scanned Corpus.cached.
Proof.
  split; [exact valid_cached|]. split; [exact NoDup_scanned|].
  split; [exact readable_scanned|].
  exact (proj2 (proj2 (rebuild_agrees_with_startup_scan (rt := posixHost)
                         Corpus.diskABC Corpus.cachedMTimes Corpus.scanned
                         Corpus.cached valid_cached NoDup_scanned))
           readable_scanned).
Defined.

(** ** Blank queries and white space *)

Section Trim.
Implicit Types (s pre : jsstring) (c : Z).

Lemma trimStart_fixed s :
  (forall c, head s = Some c -> isWhiteSpace c = false) -> trimStart s = s.
Proof.
  destruct s as [|c s]; intros Hhead; simpl; [reflexivity|].
  rewrite (Hhead c eq_refl). reflexivity.
Qed.

Lemma trimStart_head s c : head (trimStart s) = Some c -> isWhiteSpace c = false.
Proof.
  induction s as [|d s IH]; simpl; [discriminate|].
  destruct (isWhiteSpace d) eqn:Hd; [exact IH|]. simpl. intros [= <-]. exact Hd.
Qed.

Lemma trimStart_suffix s : exists pre, s = pre ++ trimStart s.
Proof.
  induction s as [|d s [pre IH]]; simpl; [exists []; reflexivity|].
  destruct (isWhiteSpace d).
  - exists (d :: pre). simpl. f_equal. exact IH.
  - exists []. reflexivity.
Qed.

Lemma trimStart_blank s :
  Forall (fun c => isWhiteSpace c = true) s -> trimStart s = [].
Proof.
  induction 1 as [|c s Hc _ IH]; simpl; [reflexivity|]. rewrite Hc. exact IH.
Qed.

Lemma trim_trim s : trim (trim s) = trim s.
Proof.
  unfold trim. set (a := trimStart s). set (b := trimStart (reverse a)).
  assert (Hb : trimStart b = b).
  { apply trimStart_fixed. intros c Hc. apply (trimStart_head (reverse a) c Hc). }
  assert (Hrb : trimStart (reverse b) = reverse b).
  { apply trimStart_fixed. intros c Hc.
    destruct (trimStart_suffix (reverse a)) as [pre Hpre]. fold b in Hpre.
    apply (f_equal reverse) in Hpre.
    rewrite reverse_involutive, reverse_app in Hpre.
    apply (trimStart_head s c). fold a. rewrite Hpre.
    destruct (reverse b) as [|d r]; [discriminate|]. exact Hc. }
  rewrite Hrb, reverse_involutive, Hb. reflexivity.
Qed.

End Trim.

Section BlankQueries.
Context {rt : JsRuntime}.

(** X16. [searchFiles] gives the same outcome for a query and for the query
    without its leading and trailing white space; and for a query of white
    space only, the empty string included, it returns the empty first page
    without looking at the index, whatever state the index is in. *)
Theorem searchFiles_ignores_outer_white_space (query : jsstring) (page : Z)
    (this : FileIndex) :
  searchFiles (trim query) page this = searchFiles query page this
  /\ (Forall (fun c => isWhiteSpace c = true) query ->
      searchFiles query page this = (Normal (SearchResult.mk [] 1 0 0), this)).
Proof.
  split.
  - unfold searchFiles. rewrite trim_trim. reflexivity.
  - intros Hblank. unfold searchFiles, trim.
    rewrite (trimStart_blank query Hblank). reflexivity.
Qed.

End BlankQueries.

(** ** Snapshots *)

Section Snapshots.
Context {rt : JsRuntime}.
Implicit Types (data : Snapshot.t) (other this : FileIndex).

Lemma dom_mapOfEntries (entries : list (jsstring * FileData.t)) :
  dom (mapOfEntries entries) =@{gset (list Z)} list_to_set entries.*1.
Proof.
  rewrite mapOfEntries_reverse, dom_list_to_map_L. apply set_eq. intros p.
  rewrite !elem_of_list_to_set, fmap_reverse, elem_of_reverse. reflexivity.
Qed.

Lemma rebuildFrom_Throw (fs : Files) (l : list FileInfo.t) (i : nat)
    (acc : WordIndex) (f : FileInfo.t) :
  f ∈ l -> fs !! FileInfo.path f = None -> rebuildFrom fs i l acc = Throw.
Proof.
  intros Hf Hnone. destruct (rebuildFrom fs i l acc) as [w|] eqn:Hre; [|reflexivity].
  destruct (rebuildFrom_defined _ _ _ _ _ Hre f Hf) as [fd Hfd]. congruence.
Qed.

(** X14. A snapshot whose table has pairwise distinct paths, which are the
    keys of its entries, deserializes into a valid index with that table and
    those entries, whatever the receiver held before. *)
Theorem deserialize_consistent_snapshot data other :
  NoDup (FileInfo.path <$> Snapshot.filesList data) ->
  (forall p, p ∈ FileInfo.path <$> Snapshot.filesList data
             <-> p ∈ (Snapshot.files data).*1) ->
  fst (deserialize data other) = Normal tt
  /\ valid (snd (deserialize data other))
  /\ filesList (snd (deserialize data other)) = Snapshot.filesList data
  /\ files (snd (deserialize data other)) = mapOfEntries (Snapshot.files data)
  /\ forall other', snd (deserialize data other') = snd (deserialize data other).
Proof.
  intros Hnd Hkeys.
  assert (Hdom : dom (mapOfEntries (Snapshot.files data))
                 =@{gset (list Z)} list_to_set (FileInfo.path <$> Snapshot.filesList data)).
  { rewrite dom_mapOfEntries. apply set_eq. intros p.
    rewrite !elem_of_list_to_set. symmetry. apply Hkeys. }
  destruct (rebuildFrom_Normal (mapOfEntries (Snapshot.files data))
              (Snapshot.filesList data) 0 ∅) as [w Hw].
  { intros f Hf. apply elem_of_dom. rewrite Hdom, elem_of_list_to_set.
    apply list_elem_of_fmap_2, Hf. }
  assert (Hrun : forall o, deserialize data o
            = (Normal tt,
               {| files := mapOfEntries (Snapshot.files data);
                  wordIndex := w;
                  filesList := Snapshot.filesList data |})).
  { intros o. unfold deserialize, _rebuildIndices, bind, get, put, lift. simpl.
    rewrite Hw. reflexivity. }
  rewrite !Hrun. simpl. split; [reflexivity|]. split.
  - split; simpl; [exact Hnd|exact Hdom|exact Hw].
  - split; [reflexivity|]. split; [reflexivity|]. intros o. rewrite Hrun. reflexivity.
Qed.

(** X15. A snapshot whose table lists a path for which it has no entry makes
    [deserialize] throw; the receiver is left with the table and the entries
    of the snapshot and with the posting list it had before. *)
Theorem deserialize_inconsistent_snapshot data other (f : FileInfo.t) :
  f ∈ Snapshot.filesList data ->
  FileInfo.path f ∉ (Snapshot.files data).*1 ->
  deserialize data other
  = (Throw,
     {| files := mapOfEntries (Snapshot.files data);
        wordIndex := wordIndex other;
        filesList := Snapshot.filesList data |}).
Proof.
  intros Hf Hout. unfold deserialize, _rebuildIndices, bind, get, put, lift. simpl.
  rewrite (rebuildFrom_Throw _ _ _ _ f Hf); [reflexivity|].
  apply not_elem_of_dom. rewrite dom_mapOfEntries, elem_of_list_to_set. exact Hout.
Qed.

End Snapshots.

Lemma deserialize_consistent_snapshot_witness :
  NoDup (FileInfo.path <$> Snapshot.filesList Corpus.snapshotAB)
  /\ (forall p, p ∈ FileInfo.path <$> Snapshot.filesList Corpus.snapshotAB
                <-> p ∈ (Snapshot.files Corpus.snapshotAB).*1)
  /\ fst (deserialize (rt := posixHost) Corpus.snapshotAB Corpus.alphaBeta) = Normal tt
  /\ snd (deserialize (rt := posixHost) Corpus.snapshotAB Corpus.alphaBeta)
     = index Corpus.cached.
Proof.
  assert (Hnd : NoDup (FileInfo.path <$> Snapshot.filesList Corpus.snapshotAB)).
  { apply (bool_decide_unpack _). vm_compute. exact I. }
  assert (Hkeys : forall p, p ∈ FileInfo.path <$> Snapshot.filesList Corpus.snapshotAB
                            <-> p ∈ (Snapshot.files Corpus.snapshotAB).*1).
  { intros p. split; intros Hin; exact Hin. }
  split; [exact Hnd|]. split; [exact Hkeys|].
  split.
  - exact (proj1 (deserialize_consistent_snapshot (rt := posixHost)
                    Corpus.snapshotAB Corpus.alphaBeta Hnd Hkeys)).
  - vm_compute. reflexivity.
Defined.

Lemma deserialize_inconsistent_snapshot_witness :
  FileInfo.mk Corpus.bPath (js "b.md") ∈ Snapshot.filesList Corpus.snapshotWithoutB
  /\ (Corpus.bPath ∉ (Snapshot.files Corpus.snapshotWithoutB).*1)
  /\ fst (deserialize (rt := posixHost) Corpus.snapshotWithoutB newFileIndex) = Throw
  /\ filesList (snd (deserialize (rt := posixHost) Corpus.snapshotWithoutB newFileIndex))
     = Snapshot.filesList Corpus.snapshotWithoutB.
Proof.
  assert (Hf : FileInfo.mk Corpus.bPath (js "b.md")
               ∈ Snapshot.filesList Corpus.snapshotWithoutB).
  { apply list_elem_of_further, list_elem_of_here. }
  assert (Hout : Corpus.bPath ∉ (Snapshot.files Corpus.snapshotWithoutB).*1).
  { apply (bool_decide_unpack _). vm_compute. exact I. }
  split; [exact Hf|]. split; [exact Hout|].
  rewrite (deserialize_inconsistent_snapshot (rt := posixHost) Corpus.snapshotWithoutB
             newFileIndex (FileInfo.mk Corpus.bPath (js "b.md")) Hf Hout).
  split; reflexivity.
Defined.

(** ** The directory walk *)

Lemma dirent_induction (P : dirent -> Prop) :
  (forall name stat, P (FileEntry name stat)) ->
  (forall name, P (DirEntry name None)) ->
  (forall name entries, Forall P entries -> P (DirEntry name (Some entries))) ->
  forall entry, P entry.
Proof.
  intros Hfile Hnone Hdir. fix IH 1.
  intros [name stat|name [entries|]]; [apply Hfile| |apply Hnone].
  apply Hdir. induction entries as [|e es IHes]; constructor; [apply IH|exact IHes].
Qed.

Lemma statable_dir name (entries : list dirent) :
  statable (DirEntry name (Some entries)) <-> Forall statable entries.
Proof.
  simpl. induction entries as [|e es IH].
  - split; [constructor|auto].
  - rewrite Forall_cons, <- IH. reflexivity.
Qed.

Lemma lookupMTime_mapSet (p q : jsstring) (mt : Z) (table : MTimes) :
  lookupMTime q (mapSet p mt table)
  = if decide (q = p) then Some mt else lookupMTime q table.
Proof.
  induction table as [|[k v] table IH]; simpl.
  - destruct (decide (p = q)), (decide (q = p)); congruence.
  - destruct (decide (k = p)) as [->|Hk]; simpl.
    + destruct (decide (p = q)), (decide (q = p)); congruence.
    + destruct (decide (k = q)) as [->|Hq].
      * rewrite decide_False by congruence. reflexivity.
      * exact IH.
Qed.

Lemma keys_mapSet (p q : jsstring) (mt : Z) (table : MTimes) :
  q ∈ (mapSet p mt table).*1 <-> q = p \/ q ∈ table.*1.
Proof.
  pose proof (lookupMTime_mapSet p q mt table) as Hl.
  destruct (decide (q = p)) as [->|Hne].
  - split; [auto|]. intros _. apply dec_stable. intros Hout%lookupMTime_None. congruence.
  - split.
    + intros Hin. right. apply dec_stable. intros Hout%lookupMTime_None.
      rewrite <- Hl in Hout. apply lookupMTime_None in Hout. contradiction.
    + intros [->|Hin]; [contradiction|]. apply dec_stable.
      intros Hout%lookupMTime_None. rewrite Hl in Hout.
      apply lookupMTime_None in Hout. contradiction.
Qed.

Lemma NoDup_mapSet (p : jsstring) (mt : Z) (table : MTimes) :
  NoDup table.*1 -> NoDup (mapSet p mt table).*1.
Proof.
  induction table as [|[k v] table IH]; simpl; intros Hnd.
  - apply NoDup_singleton.
  - apply NoDup_cons in Hnd as [Hk Hnd]. destruct (decide (k = p)) as [->|Hne]; simpl.
    + apply NoDup_cons. auto.
    + apply NoDup_cons. split; [|apply IH, Hnd].
      rewrite keys_mapSet. intros [->|Hin]; [congruence|contradiction].
Qed.

Section Walk.
Variable join : jsstring -> jsstring -> jsstring.
Implicit Types (dir name p q : jsstring) (files r : MTimes) (mt : Z).
Implicit Types (entry e : dirent) (entries es : list dirent).

Lemma markdownFile_mono dir es es' p mt :
  (forall e, e ∈ es -> e ∈ es') ->
  markdownFile join dir es p mt -> markdownFile join dir es' p mt.
Proof.
  intros Hsub Hm.
  inversion Hm as [d en name m Hin Hmd|d en name sub fp m Hin Hsubtree]; subst.
  - apply markdownFile_here; [apply Hsub, Hin|exact Hmd].
  - eapply markdownFile_below; [apply Hsub, Hin|exact Hsubtree].
Qed.

(** What one step of the walk does to the table. *)
Definition walkStep dir (step : St MTimes unit) es : Prop :=
  forall files,
    (forall p mt,
       lookupMTime p (snd (step files)) = Some mt ->
       lookupMTime p files = Some mt \/ markdownFile join dir es p mt)
    /\ (NoDup files.*1 -> NoDup (snd (step files)).*1)
    /\ (forall q, q ∈ files.*1 -> q ∈ (snd (step files)).*1).

Lemma walkStep_forEach dir es :
  Forall (fun e => walkStep dir (collectEntry join dir e) [e]) es ->
  walkStep dir (forEach (collectEntry join dir) es) es.
Proof.
  induction 1 as [|e es He _ IH]; intros files.
  - simpl. split; [auto|]. split; auto.
  - simpl. unfold bind. destruct (He files) as (Hs & Hn & Hk).
    destruct (collectEntry join dir e files) as [[[]|] r]; simpl in *.
    + destruct (IH r) as (Hs' & Hn' & Hk'). split; [|split].
      * intros p mt [Hr|Hm]%Hs'.
        -- apply Hs in Hr as [Hf|Hm]; [auto|right].
           eapply markdownFile_mono; [|exact Hm].
           intros x ->%list_elem_of_singleton. apply list_elem_of_here.
        -- right. eapply markdownFile_mono; [|exact Hm].
           intros x Hx. apply list_elem_of_further, Hx.
      * auto.
      * auto.
    + split; [|split; auto].
      intros p mt [Hf|Hm]%Hs; [auto|right].
      eapply markdownFile_mono; [|exact Hm].
      intros x ->%list_elem_of_singleton. apply list_elem_of_here.
Qed.

Lemma walkStep_entry dir e : walkStep dir (collectEntry join dir e) [e].
Proof.
  revert dir. induction e as [name stat|name|name entries IH] using dirent_induction;
    intros dir files.
  - simpl. destruct (endsWith name (js ".md")) eqn:Hmd; [|simpl; auto].
    destruct stat as [m|]; [|simpl; auto]. unfold bind, lift. simpl.
    split; [|split].
    + intros p mt. rewrite lookupMTime_mapSet.
      destruct (decide (p = join dir name)) as [->|_]; [|auto].
      intros [= <-]. right. apply markdownFile_here; [apply list_elem_of_here|exact Hmd].
    + apply NoDup_mapSet.
    + intros q Hq. apply keys_mapSet. auto.
  - simpl. auto.
  - simpl. unfold tryCatch. simpl.
    assert (Hall : Forall (fun e => walkStep (join dir name)
                             (collectEntry join (join dir name) e) [e]) entries).
    { eapply Forall_impl; [exact IH|]. intros e He. apply He. }
    destruct (walkStep_forEach (join dir name) entries Hall files) as (Hs & Hn & Hk).
    split; [|split; assumption].
    intros p mt [Hf|Hm]%Hs; [auto|right].
    eapply markdownFile_below; [apply list_elem_of_here|exact Hm].
Qed.

Lemma walk_complete_forEach dir es :
  Forall (fun e => forall files,
            fst (collectEntry join dir e files) = Normal tt
            /\ forall p mt, markdownFile join dir [e] p mt ->
                  p ∈ (snd (collectEntry join dir e files)).*1) es ->
  forall files,
    fst (forEach (collectEntry join dir) es files) = Normal tt
    /\ forall p mt, markdownFile join dir es p mt ->
          p ∈ (snd (forEach (collectEntry join dir) es files)).*1.
Proof.
  induction 1 as [|e es He _ IH]; intros files.
  - simpl. split; [reflexivity|]. intros p mt Hm.
    inversion Hm as [? ? ? ? Hin|? ? ? ? ? ? Hin]; apply elem_of_nil in Hin as [].
  - simpl. unfold bind. destruct (He files) as (Hn & Hm).
    pose proof (walkStep_forEach dir es) as Hkeep.
    destruct (collectEntry join dir e files) as [[[]|] r]; simpl in *; [|discriminate].
    destruct (IH r) as (Hn' & Hm'). split; [exact Hn'|].
    assert (Hk : forall q, q ∈ r.*1 ->
              q ∈ (snd (forEach (collectEntry join dir) es r)).*1).
    { apply Hkeep. apply Forall_forall. intros x _. apply walkStep_entry. }
    intros p mt Hp.
    inversion Hp as [d en name m Hin Hmd|d en name sub fp m Hin Hsub]; subst.
    + apply elem_of_cons in Hin as [<-|Hin].
      * apply Hk, (Hm _ mt). apply markdownFile_here; [apply list_elem_of_here|exact Hmd].
      * apply (Hm' _ mt). apply markdownFile_here; assumption.
    + apply elem_of_cons in Hin as [<-|Hin].
      * apply Hk, (Hm _ mt).
        eapply markdownFile_below; [apply list_elem_of_here|exact Hsub].
      * apply (Hm' _ mt). eapply markdownFile_below; eassumption.
Qed.

Lemma walk_complete_entry dir e :
  statable e ->
  forall files,
    fst (collectEntry join dir e files) = Normal tt
    /\ forall p mt, markdownFile join dir [e] p mt ->
          p ∈ (snd (collectEntry join dir e files)).*1.
Proof.
  revert dir. induction e as [name stat|name|name entries IH] using dirent_induction;
    intros dir Hst files.
  - simpl in *. destruct (endsWith name (js ".md")) eqn:Hmd.
    + destruct (Hst eq_refl) as [m ->]. unfold bind, lift. simpl.
      split; [reflexivity|]. intros p mt Hp.
      inversion Hp as [d en n m' Hin _|d en n sub fp m' Hin _]; subst;
        apply list_elem_of_singleton in Hin; [|discriminate].
      injection Hin as <- <-. apply keys_mapSet. auto.
    + simpl. split; [reflexivity|]. intros p mt Hp.
      inversion Hp as [d en n m' Hin Hmd'|d en n sub fp m' Hin _]; subst;
        apply list_elem_of_singleton in Hin; [|discriminate].
      injection Hin as <- _. congruence.
  - simpl. split; [reflexivity|]. intros p mt Hp.
    inversion Hp as [d en n m' Hin _|d en n sub fp m' Hin _]; subst;
      apply list_elem_of_singleton in Hin; discriminate.
  - apply statable_dir in Hst. simpl. unfold tryCatch. simpl.
    split; [reflexivity|].
    assert (Hall : Forall (fun e => forall files,
              fst (collectEntry join (join dir name) e files) = Normal tt
              /\ forall p mt, markdownFile join (join dir name) [e] p mt ->
                    p ∈ (snd (collectEntry join (join dir name) e files)).*1) entries).
    { rewrite Forall_forall in IH, Hst |- *. intros e He. apply IH; auto. }
    destruct (walk_complete_forEach (join dir name) entries Hall files) as [_ Hm].
    intros p mt Hp.
    inversion Hp as [d en n m' Hin _|d en n sub fp m' Hin Hsub]; subst;
      apply list_elem_of_singleton in Hin; [discriminate|].
    injection Hin as <- <-. apply (Hm p mt Hsub).
Qed.

(** X17. [collectFiles] never throws. Every path it records is the path of a
    file of the tree whose name ends in ".md", with the time stamp that
    [stat] gave, or was in the table already; the paths that were in the
    table stay, and the keys stay distinct. When [stat] succeeds on every
    such file of the tree, each of them is recorded. *)
Theorem collectFiles_records_markdown_files dir entries files :
  let r := snd (collectFiles join dir (Some entries) files) in
  fst (collectFiles join dir (Some entries) files) = Normal tt
  /\ (forall p mt,
        lookupMTime p r = Some mt ->
        lookupMTime p files = Some mt \/ markdownFile join dir entries p mt)
  /\ (NoDup files.*1 -> NoDup r.*1)
  /\ (forall q, q ∈ files.*1 -> q ∈ r.*1)
  /\ (Forall statable entries ->
      forall p mt, markdownFile join dir entries p mt -> p ∈ r.*1).
Proof.
  simpl. unfold tryCatch. simpl.
  assert (Hall : Forall (fun e => walkStep dir (collectEntry join dir e) [e]) entries).
  { apply Forall_forall. intros e _. apply walkStep_entry. }
  destruct (walkStep_forEach dir entries Hall files) as (Hs & Hn & Hk).
  split; [reflexivity|]. split; [exact Hs|]. split; [exact Hn|]. split; [exact Hk|].
  intros Hst.
  apply (walk_complete_forEach dir entries).
  eapply Forall_impl; [exact Hst|]. intros e He. apply walk_complete_entry, He.
Qed.

Lemma collectEntry_passedOver dir e files :
  passedOver e -> collectEntry join dir e files = (Normal tt, files).
Proof.
  destruct e as [name stat|name listing]; simpl.
  - intros ->. reflexivity.
  - intros ->. reflexivity.
Qed.

(** X18. An entry that is a directory that cannot be listed, or a file
    whose name does not end in ".md", changes nothing: the walk gives what
    it gives without that entry. *)
Theorem collectFiles_passes_over dir es1 e es2 files :
  passedOver e ->
  collectFiles join dir (Some (es1 ++ e :: es2)) files
  = collectFiles join dir (Some (es1 ++ es2)) files.
Proof.
  intros He. unfold collectFiles, tryCatch. f_equal.
  rewrite !forEach_app. unfold bind.
  destruct (forEach (collectEntry join dir) es1 files) as [[[]|] r]; [|reflexivity].
  simpl. unfold bind. rewrite (collectEntry_passedOver dir e r He). reflexivity.
Qed.

(** X19. A markdown file on which [stat] throws ends the walk of its
    directory: the entries after it are not visited, and the walk gives
    what the entries before it give. A sub-directory never ends the walk of
    its parent, whatever happens inside it. *)
Theorem collectFiles_stops_at_failed_stat dir es1 name es2 files :
  endsWith name (js ".md") = true ->
  collectFiles join dir (Some (es1 ++ FileEntry name None :: es2)) files
  = collectFiles join dir (Some es1) files
  /\ forall sub listing r,
       fst (collectEntry join dir (DirEntry sub listing) r) = Normal tt.
Proof.
  intros Hmd. split.
  - unfold collectFiles, tryCatch. f_equal.
    rewrite forEach_app. unfold bind.
    destruct (forEach (collectEntry join dir) es1 files) as [[[]|] r]; [|reflexivity].
    simpl. unfold bind, lift. rewrite Hmd. reflexivity.
  - intros sub [es|] r; reflexivity.
Qed.

End Walk.

Lemma collectFiles_passes_over_witness :
  passedOver (DirEntry (js "locked") None)
  /\ collectFiles Corpus.joinPath (js "/data") (Some Corpus.tree) []
     = (Normal tt,
        [(js "/data/a.md", 1); (js "/data/sub/b.md", 2); (js "/data/d.md", 4)])
  /\ collectFiles Corpus.joinPath (js "/data")
       (Some (take 3 Corpus.tree ++ DirEntry (js "locked") None :: drop 4 Corpus.tree)) []
     = collectFiles Corpus.joinPath (js "/data")
         (Some (take 3 Corpus.tree ++ drop 4 Corpus.tree)) [].
Proof.
  assert (Hp : passedOver (DirEntry (js "locked") None)) by reflexivity.
  split; [exact Hp|]. split; [reflexivity|].
  exact (collectFiles_passes_over Corpus.joinPath (js "/data") (take 3 Corpus.tree)
           (DirEntry (js "locked") None) (drop 4 Corpus.tree) [] Hp).
Defined.

Lemma collectFiles_stops_at_failed_stat_witness :
  endsWith (js "bad.md") (js ".md") = true
  /\ collectFiles Corpus.joinPath (js "/data/sub")
       (Some ([FileEntry (js "b.md") (Some 2)]
              ++ FileEntry (js "bad.md") None :: [FileEntry (js "c.md") (Some 3)])) []
     = collectFiles Corpus.joinPath (js "/data/sub")
         (Some [FileEntry (js "b.md") (Some 2)]) [].
Proof.
  assert (Hmd : endsWith (js "bad.md") (js ".md") = true) by reflexivity.
  split; [exact Hmd|].
  exact (proj1 (collectFiles_stops_at_failed_stat Corpus.joinPath (js "/data/sub")
                  [FileEntry (js "b.md") (Some 2)] (js "bad.md")
                  [FileEntry (js "c.md") (Some 3)] [] Hmd)).
Defined.

(** ** Start-up *)

Ltac start_up :=
  cbv beta iota delta
    [initializeIndex bind onProcess onIndex put get lift tryWith ret clearIndex
     existsSync readJSON andb orb negb saveCache process cacheFile mTimeFile
     index reads serialize started].

Section StartUpSteps.
Context {rt : JsRuntime}.
Variable disk : jsstring -> option jsstring.
Implicit Types (h : Host) (w : Process) (this : FileIndex) (p q : jsstring) (mt : Z).
Implicit Types (old cur : MTimes) (hash : jsstring).

Lemma deserialize_written this other :
  valid this -> deserialize (written this) other = (Normal tt, this).
Proof.
  intros Hv. unfold deserialize, written, _rebuildIndices, bind, get, put, lift. simpl.
  rewrite mapOfEntries_map_to_list.
  pose proof (valid_words _ Hv) as Hw. unfold derivedWordIndex in Hw.
  rewrite Hw. destruct this; reflexivity.
Qed.

Lemma tablesDiffer_false old cur :
  NoDup old.*1 -> NoDup cur.*1 ->
  tablesDiffer old cur = false <-> forall p, lookupMTime p old = lookupMTime p cur.
Proof.
  intros Hold Hcur. unfold tablesDiffer. split.
  - destruct (decide (length old ≠ length cur)) as [|Hlen]; [discriminate|].
    apply dec_stable in Hlen. intros Hex p.
    assert (Hsub : forall q mt, (q, mt) ∈ cur -> lookupMTime q old = Some mt).
    { intros q mt Hin. destruct (decide (lookupMTime q old = Some mt)) as [|Hne];
        [assumption|]. exfalso.
      assert (existsb (fun entry => changed old (fst entry) (snd entry)) cur = true);
        [|congruence].
      apply existsb_exists. exists (q, mt). split; [apply list_elem_of_In, Hin|].
      simpl. apply bool_decide_eq_true. exact Hne. }
    assert (Hperm : cur.*1 ≡ₚ old.*1).
    { apply submseteq_length_Permutation.
      - apply NoDup_submseteq; [exact Hcur|]. intros q Hq.
        apply list_elem_of_fmap in Hq as ([q' mt] & -> & Hin). simpl.
        apply dec_stable. intros Hout%lookupMTime_None.
        rewrite (Hsub _ _ Hin) in Hout. discriminate.
      - rewrite !length_fmap. lia. }
    destruct (lookupMTime p cur) as [mt|] eqn:Hp.
    + apply Hsub, lookupMTime_elem, Hp.
    + apply lookupMTime_None. rewrite <- Hperm. apply lookupMTime_None, Hp.
  - intros Hsame.
    assert (Hperm : old.*1 ≡ₚ cur.*1).
    { apply NoDup_Permutation; [assumption..|]. intros q.
      pose proof (lookupMTime_None q old) as Ho.
      pose proof (lookupMTime_None q cur) as Hc. rewrite Hsame in Ho.
      split; intros Hin; apply dec_stable; intros Hout.
      - apply Hc, Ho in Hout. contradiction.
      - apply Ho, Hc in Hout. contradiction. }
    rewrite decide_False.
    2:{ intros Hne. apply Hne. rewrite <- (length_fmap fst old), <- (length_fmap fst cur).
        apply Permutation_length, Hperm. }
    apply not_true_is_false. intros Hex. apply existsb_exists in Hex as ([q mt] & Hin & Hch).
    simpl in Hch. apply bool_decide_eq_true in Hch. apply Hch.
    rewrite Hsame. apply lookupMTime_unique; [exact Hcur|]. apply list_elem_of_In, Hin.
Qed.

Lemma startup_fast hash this old cur h :
  valid this -> cacheFile h = Parsed (written this) -> mTimeFile h = Parsed old ->
  tablesDiffer old cur = false ->
  initializeIndex disk (Normal hash) cur h
  = (Normal true, started h this [] (cacheFile h) (mTimeFile h)).
Proof.
  intros Hv Hc Hm Hsame. destruct h as [[idx rd] cf mf]. simpl in Hc, Hm. subst cf mf.
  start_up. rewrite Hsame. start_up. rewrite (deserialize_written _ _ Hv).
  rewrite app_nil_r. reflexivity.
Qed.

Lemma startup_delta hash this old cur h w' :
  valid this -> cacheFile h = Parsed (written this) -> mTimeFile h = Parsed old ->
  tablesDiffer old cur = true ->
  initializeIndex_sync disk old cur {| index := this; reads := reads (process h) |}
  = (Normal tt, w') ->
  initializeIndex disk (Normal hash) cur h
  = (Normal false,
     {| process := w'; cacheFile := Parsed (written (index w')); mTimeFile := Parsed cur |}).
Proof.
  intros Hv Hc Hm Hdiff Hsync. destruct h as [[idx rd] cf mf]. simpl in Hc, Hm, Hsync.
  subst cf mf. start_up. rewrite Hdiff. start_up. rewrite (deserialize_written _ _ Hv).
  start_up. rewrite Hsync. destruct w'; reflexivity.
Qed.

Lemma startup_empty hash old cur h w' :
  unusable (cacheFile h) ->
  mTimeFile h = Absent /\ old = [] \/ mTimeFile h = Parsed old ->
  initializeIndex_sync disk old cur {| index := newFileIndex; reads := reads (process h) |}
  = (Normal tt, w') ->
  initializeIndex disk (Normal hash) cur h
  = (Normal false,
     {| process := w'; cacheFile := Parsed (written (index w')); mTimeFile := Parsed cur |}).
Proof.
  intros Hc Hm Hsync. destruct h as [[idx rd] cf mf]. simpl in Hc, Hm, Hsync.
  destruct cf as [| |data]; simpl in Hc;
    (destruct Hm as [[-> ->]| ->]; start_up;
     [|destruct (tablesDiffer old cur); start_up]);
    try (rewrite Hsync; destruct w'; reflexivity).
  all: destruct (deserialize data newFileIndex) as [[[]|] this0]; simpl in Hc;
    try discriminate; start_up; rewrite Hsync; destruct w'; reflexivity.
Qed.

End StartUpSteps.

Section StartUpFacts.
Context {rt : JsRuntime}.
Variable disk : jsstring -> option jsstring.
Implicit Types (h : Host) (w : Process) (this : FileIndex) (p q : jsstring) (mt : Z).
Implicit Types (old cur : MTimes) (hash : jsstring).

Lemma sync_in_step old cur w :
  valid (index w) -> NoDup cur.*1 -> inStep (index w) old ->
  changesReadable disk old cur ->
  exists w',
    initializeIndex_sync disk old cur w = (Normal tt, w')
    /\ valid (index w')
    /\ inStep (index w') cur
    /\ reads w'
       = reads w
         ++ (List.filter (fun entry => changed old (fst entry) (snd entry)) cur).*1.
Proof.
  intros Hv Hnd Hstep Hread.
  destruct (sync_files disk old cur w Hv Hnd) as (w' & Hrun & Hv' & Hreads & Hfs).
  exists w'. split; [exact Hrun|]. split; [exact Hv'|]. split; [|exact Hreads].
  intros q. rewrite Hfs. destruct (decide _) as [[_ Hout]|Hno]; simpl.
  - symmetry. apply lookupMTime_None, Hout.
  - unfold afterChanges. destruct (lookupMTime q cur) as [mt|] eqn:Hq.
    + destruct (changed old q mt) eqn:Hch.
      * apply bool_decide_eq_true in Hch.
        destruct (Hread q mt Hq Hch) as [text ->]. reflexivity.
      * apply bool_decide_eq_false in Hch.
        rewrite Hstep. destruct (decide (lookupMTime q old = Some mt));
          [assumption|contradiction].
    + rewrite Hstep. apply lookupMTime_None. intros Hold.
      apply Hno. split; [exact Hold|]. apply lookupMTime_None, Hq.
Qed.

Lemma filter_none {A} (f : A -> bool) (l : list A) :
  existsb f l = false -> List.filter f l = [].
Proof.
  induction l as [|x l IH]; simpl; [reflexivity|].
  destruct (f x); simpl; [discriminate|exact IH].
Qed.

Lemma unchanged_tables old cur :
  tablesDiffer old cur = false ->
  List.filter (fun entry => changed old (fst entry) (snd entry)) cur = [].
Proof.
  unfold tablesDiffer. destruct (decide _); [discriminate|]. apply filter_none.
Qed.

(** X20. Where the hash of the data directory is computed and the cache
    files can be written: when the cache file holds the snapshot of a valid
    index that is in step with the table of the time-stamp file, and every
    new or changed file can be read, [initializeIndex] completes with a
    valid index in step with the current files. It loads the cache as it is exactly when the two
    tables do not differ, and then reads no data file; otherwise it reads
    the new and changed files, in the order of the scan. Either way the
    cache files it leaves are again a snapshot of the index and a table the
    index is in step with. *)
Theorem startup_with_consistent_cache hash this old cur h :
  valid this -> NoDup old.*1 -> NoDup cur.*1 ->
  cacheFile h = Parsed (written this) -> mTimeFile h = Parsed old ->
  inStep this old ->
  changesReadable disk old cur ->
  exists this' table,
    initializeIndex disk (Normal hash) cur h
    = (Normal (negb (tablesDiffer old cur)),
       started h this'
         (List.filter (fun entry => changed old (fst entry) (snd entry)) cur).*1
         (Parsed (written this')) (Parsed table))
    /\ valid this'
    /\ inStep this' cur
    /\ NoDup table.*1
    /\ (forall p, lookupMTime p table = lookupMTime p cur)
    /\ (tablesDiffer old cur = false
        <-> forall p, lookupMTime p old = lookupMTime p cur)
    /\ (tablesDiffer old cur = false -> this' = this).
Proof.
  intros Hv Hold Hcur Hc Hm Hstep Hread.
  pose proof (tablesDiffer_false old cur Hold Hcur) as Hiff.
  destruct (tablesDiffer old cur) eqn:Hd.
  - destruct (sync_in_step old cur {| index := this; reads := reads (process h) |}
                Hv Hcur Hstep Hread) as (w' & Hrun & Hv' & Hstep' & Hreads).
    exists (index w'), cur. split_and!; try done.
    rewrite (startup_delta disk hash this old cur h w' Hv Hc Hm Hd Hrun).
    unfold started. destruct w'; simpl in *. rewrite Hreads. reflexivity.
  - pose proof (proj1 Hiff eq_refl) as Hsame.
    exists this, old. split_and!; try done.
    + rewrite (startup_fast disk hash this old cur h Hv Hc Hm Hd).
      rewrite (unchanged_tables _ _ Hd), Hc, Hm. reflexivity.
    + intros p. rewrite Hstep. apply Hsame.
Qed.

(** X21. Where the hash of the data directory is computed and the cache
    files can be written: without cache files, when every file of the scan
    can be read, [initializeIndex] reads each of them once, in the order of the scan, and
    builds a valid index of exactly these files, with their base names,
    contents and time stamps. A later start with the cache files it wrote
    and the same scan loads that same index and reads no data file,
    whatever the files then hold. *)
Theorem startup_without_cache_files hash cur h :
  NoDup cur.*1 ->
  (forall p, p ∈ cur.*1 -> is_Some (disk p)) ->
  cacheFile h = Absent -> mTimeFile h = Absent ->
  exists this',
    initializeIndex disk (Normal hash) cur h
    = (Normal false,
       started h this' cur.*1 (Parsed (written this')) (Parsed cur))
    /\ valid this'
    /\ (forall p, p ∈ FileInfo.path <$> filesList this' <-> p ∈ cur.*1)
    /\ (forall p mt,
          lookupMTime p cur = Some mt ->
          files this' !! p
          = (fun text => FileData.mk (basename p) text mt) <$> disk p)
    /\ forall disk' h',
         cacheFile h' = Parsed (written this') -> mTimeFile h' = Parsed cur ->
         initializeIndex disk' (Normal hash) cur h'
         = (Normal true, started h' this' [] (cacheFile h') (mTimeFile h')).
Proof.
  intros Hcur Hread Hc Hm.
  destruct (sync_files disk [] cur {| index := newFileIndex; reads := reads (process h) |}
              valid_new Hcur) as (w' & Hrun & Hv' & Hreads & Hfs).
  assert (Hall : List.filter (fun entry => changed [] (fst entry) (snd entry)) cur = cur).
  { clear. induction cur as [|[p mt] l IH]; [reflexivity|].
    cbn [List.filter fst snd].
    assert (changed [] p mt = true) as -> by (apply bool_decide_eq_true; discriminate).
    f_equal. exact IH. }
  assert (Hfiles : forall p mt, lookupMTime p cur = Some mt ->
            files (index w') !! p
            = (fun text => FileData.mk (basename p) text mt) <$> disk p).
  { intros p mt Hp. rewrite Hfs. rewrite decide_False by (intros [[]%elem_of_nil _]).
    unfold afterChanges. rewrite Hp.
    assert (changed [] p mt = true) as -> by (apply bool_decide_eq_true; discriminate).
    reflexivity. }
  exists (index w'). split_and!.
  - rewrite (startup_empty disk hash [] cur h w'); [|rewrite Hc; exact I|auto|exact Hrun].
    unfold started. destruct w'; simpl in *. rewrite Hreads, Hall. reflexivity.
  - exact Hv'.
  - intros p. rewrite (valid_table _ _ Hv'). split.
    + intros Hsome. apply dec_stable. intros Hout.
      rewrite Hfs in Hsome. rewrite decide_False in Hsome by (intros [[]%elem_of_nil _]).
      unfold afterChanges in Hsome. apply lookupMTime_None in Hout.
      rewrite Hout in Hsome. unfold newFileIndex in Hsome. simpl in Hsome.
      rewrite lookup_empty in Hsome. destruct Hsome as [? [=]].
    + intros Hin. destruct (lookupMTime p cur) as [mt|] eqn:Hp.
      * rewrite (Hfiles p mt Hp). destruct (Hread p Hin) as [text ->]. eauto.
      * apply lookupMTime_None in Hp. contradiction.
  - exact Hfiles.
  - intros disk' h' Hc' Hm'.
    apply (startup_fast disk' hash (index w') cur cur h' Hv' Hc' Hm').
    apply tablesDiffer_false; auto.
Qed.

(** X22. [initializeIndex] throws when the module has no [require], and
    when the time-stamp file exists but cannot be parsed, whatever the cache
    file holds: the [catch] of the first parse only sets [needsRebuild], and
    the file is parsed again outside any [try]. The index is then empty, no
    data file has been read and the cache files are as they were. *)
Theorem startup_throws (dataDirHash : completion jsstring) cur h :
  dataDirHash = Throw \/ mTimeFile h = Corrupt ->
  initializeIndex disk dataDirHash cur h
  = (Throw, started h newFileIndex [] (cacheFile h) (mTimeFile h)).
Proof.
  destruct h as [[idx rd] cf mf]. simpl.
  intros [->| ->]; [start_up; rewrite app_nil_r; reflexivity|].
  destruct dataDirHash as [hash|], cf as [| |data];
    start_up; rewrite app_nil_r; reflexivity.
Qed.

(** X23. Where the hash of the data directory is computed and the cache
    files can be written: when the cache file cannot be loaded but the
    time-stamp file can, [initializeIndex] starts from an empty index and reads only the files
    whose time stamp differs from the time-stamp file: a file that is
    unchanged since that table was written is left out of the index,
    although it is among the current files. The cache files written then
    make every later start with the same scan load this index as it is. *)
Theorem startup_with_lost_cache hash old cur h :
  NoDup cur.*1 ->
  unusable (cacheFile h) -> mTimeFile h = Parsed old ->
  exists this',
    initializeIndex disk (Normal hash) cur h
    = (Normal false,
       started h this'
         (List.filter (fun entry => changed old (fst entry) (snd entry)) cur).*1
         (Parsed (written this')) (Parsed cur))
    /\ valid this'
    /\ (forall p mt,
          lookupMTime p cur = Some mt -> lookupMTime p old = Some mt ->
          files this' !! p = None /\ p ∉ FileInfo.path <$> filesList this')
    /\ forall disk' h',
         cacheFile h' = Parsed (written this') -> mTimeFile h' = Parsed cur ->
         initializeIndex disk' (Normal hash) cur h'
         = (Normal true, started h' this' [] (cacheFile h') (mTimeFile h')).
Proof.
  intros Hcur Hc Hm.
  destruct (sync_files disk old cur {| index := newFileIndex; reads := reads (process h) |}
              valid_new Hcur) as (w' & Hrun & Hv' & Hreads & Hfs).
  assert (Hnone : forall p mt,
            lookupMTime p cur = Some mt -> lookupMTime p old = Some mt ->
            files (index w') !! p = None).
  { intros p mt Hp Ho. rewrite Hfs. destruct (decide _); [reflexivity|].
    unfold afterChanges. rewrite Hp.
    assert (changed old p mt = false) as ->
      by (apply bool_decide_eq_false; intros Hne; exact (Hne Ho)).
    apply lookup_empty. }
  exists (index w'). split_and!.
  - rewrite (startup_empty disk hash old cur h w' Hc (or_intror Hm) Hrun).
    unfold started. destruct w'; simpl in *. rewrite Hreads. reflexivity.
  - exact Hv'.
  - intros p mt Hp Ho. split; [exact (Hnone p mt Hp Ho)|].
    rewrite (valid_table _ _ Hv'), (Hnone p mt Hp Ho). intros [? [=]].
  - intros disk' h' Hc' Hm'.
    apply (startup_fast disk' hash (index w') cur cur h' Hv' Hc' Hm').
    apply tablesDiffer_false; auto.
Qed.

End StartUpFacts.

Lemma NoDup_cachedMTimes : NoDup Corpus.cachedMTimes.*1.
Proof. apply (bool_decide_unpack _). vm_compute. exact I. Defined.

Lemma inStep_cached : inStep (index Corpus.cached) Corpus.cachedMTimes.
Proof. apply inStep_check; apply (bool_decide_unpack _); vm_compute; exact I. Defined.

Lemma startup_with_consistent_cache_witness :
  valid (rt := posixHost) (index Corpus.cached)
  /\ NoDup Corpus.cachedMTimes.*1
  /\ NoDup Corpus.scanned.*1
  /\ cacheFile Corpus.warmHost = Parsed (written (index Corpus.cached))
  /\ mTimeFile Corpus.warmHost = Parsed Corpus.cachedMTimes
  /\ inStep (index Corpus.cached) Corpus.cachedMTimes
  /\ changesReadable Corpus.diskABC Corpus.cachedMTimes Corpus.scanned
  /\ exists this' table,
       initializeIndex (rt := posixHost) Corpus.diskABC (Normal (js "0a1b2c3d"))
         Corpus.scanned Corpus.warmHost
       = (Normal false,
          started Corpus.warmHost this' [Corpus.cPath]
            (Parsed (written this')) (Parsed table))
       /\ inStep this' Corpus.scanned.
Proof.
  split_and!;
    [exact valid_cached|exact NoDup_cachedMTimes|exact NoDup_scanned|reflexivity
    |reflexivity|exact inStep_cached|exact readable_scanned|].
  destruct (startup_with_consistent_cache (rt := posixHost) Corpus.diskABC
              (js "0a1b2c3d") (index Corpus.cached) Corpus.cachedMTimes Corpus.scanned
              Corpus.warmHost valid_cached NoDup_cachedMTimes NoDup_scanned
              eq_refl eq_refl inStep_cached readable_scanned)
    as (this' & table & Hrun & _ & Hstep & _).
  exists this', table. split; [exact Hrun|exact Hstep].
Defined.

Lemma NoDup_freshScan : NoDup Corpus.freshScan.*1.
Proof. apply (bool_decide_unpack _). vm_compute. exact I. Defined.

Lemma startup_without_cache_files_witness :
  NoDup Corpus.freshScan.*1
  /\ (forall p, p ∈ Corpus.freshScan.*1 -> is_Some (Corpus.diskText p))
  /\ cacheFile Corpus.coldHost = Absent
  /\ mTimeFile Corpus.coldHost = Absent
  /\ exists this',
       initializeIndex (rt := posixHost) Corpus.diskText (Normal (js "0a1b2c3d"))
         Corpus.freshScan Corpus.coldHost
       = (Normal false,
          started Corpus.coldHost this' [Corpus.aPath; Corpus.bPath]
            (Parsed (written this')) (Parsed Corpus.freshScan))
       /\ files this' !! Corpus.bPath
          = Some (FileData.mk (js "b.md") (js "text") 2).
Proof.
  assert (Hread : forall p, p ∈ Corpus.freshScan.*1 -> is_Some (Corpus.diskText p)).
  { intros p _. exists (js "text"). reflexivity. }
  split_and!; [exact NoDup_freshScan|exact Hread|reflexivity|reflexivity|].
  destruct (startup_without_cache_files (rt := posixHost) Corpus.diskText
              (js "0a1b2c3d") Corpus.freshScan Corpus.coldHost
              NoDup_freshScan Hread eq_refl eq_refl)
    as (this' & Hrun & _ & _ & Hfiles & _).
  exists this'. split; [exact Hrun|].
  rewrite (Hfiles Corpus.bPath 2 eq_refl). reflexivity.
Defined.

Lemma startup_throws_witness :
  (Normal (js "0a1b2c3d") = Throw \/ mTimeFile Corpus.corruptHost = Corrupt)
  /\ fst (initializeIndex (rt := posixHost) Corpus.diskText (Normal (js "0a1b2c3d"))
            Corpus.freshScan Corpus.corruptHost) = Throw.
Proof.
  assert (H : Normal (js "0a1b2c3d") = Throw \/ mTimeFile Corpus.corruptHost = Corrupt)
    by (right; reflexivity).
  split; [exact H|].
  rewrite (startup_throws (rt := posixHost) Corpus.diskText (Normal (js "0a1b2c3d"))
             Corpus.freshScan Corpus.corruptHost H).
  reflexivity.
Defined.

Lemma startup_with_lost_cache_witness :
  NoDup Corpus.freshScan.*1
  /\ unusable (rt := posixHost) (cacheFile Corpus.lostCacheHost)
  /\ mTimeFile Corpus.lostCacheHost = Parsed Corpus.cachedMTimes
  /\ exists this',
       initializeIndex (rt := posixHost) Corpus.diskText (Normal (js "0a1b2c3d"))
         Corpus.freshScan Corpus.lostCacheHost
       = (Normal false,
          started Corpus.lostCacheHost this' []
            (Parsed (written this')) (Parsed Corpus.freshScan))
       /\ files this' !! Corpus.aPath = None.
Proof.
  split_and!; [exact NoDup_freshScan|exact I|reflexivity|].
  destruct (startup_with_lost_cache (rt := posixHost) Corpus.diskText
              (js "0a1b2c3d") Corpus.cachedMTimes Corpus.freshScan Corpus.lostCacheHost
              NoDup_freshScan I eq_refl)
    as (this' & Hrun & _ & Hnone & _).
  exists this'. split; [exact Hrun|].
  exact (proj1 (Hnone Corpus.aPath 1 eq_refl eq_refl)).
Defined.

